(** * Sync Gateway change cache and sequence identifiers

    A shallow embedding of [db/sequence_id.go] (the integer
    [SequenceID] codec and comparator) and of the sequence-buffering
    state machine of [db/change_cache.go] ([changeCache],
    [SkippedSequenceList], [LogPriorityQueue]), with the properties the
    specification states about them.

    Conventions.
    - A Go [uint64] is a [Z] in [0, 2^64); every [+ 1] of the source is
      written with its wrap-around ([wrap64]).
    - A Go [string] is a [string] (a sequence of bytes).
    - A Go [map] is a [gmap], a Go set ([base.Set], [map[uint64]struct{}])
      a [gset].
    - A Go function returning [(value, error)] returns a pair whose second
      component is an [option error]; both components are kept because the
      source returns partially filled values next to an error. *)

From Stdlib Require Import Ascii.
From stdpp Require Import base numbers strings list sorting gmap.

Local Open Scope Z_scope.

(** ** Machine integers *)

Definition maxUint64 : Z := 18446744073709551615.

Definition wrap64 (x : Z) : Z := x mod 2 ^ 64.

Definition uint64 (x : Z) : Prop := 0 ≤ x ≤ maxUint64.

(** ** The parts of Go's [strconv], [strings] and [fmt] the code calls *)

Module strconv.

Inductive NumErrorKind := ErrSyntax | ErrRange.

Definition byte_val (c : Ascii.ascii) : Z := Z.of_N (Ascii.N_of_ascii c).

Definition digit_char (d : Z) : Ascii.ascii := Ascii.ascii_of_N (Z.to_N (48 + d)).

Definition is_digit (c : Ascii.ascii) : bool :=
  (48 <=? byte_val c) && (byte_val c <=? 57).

(** [strconv.FormatUint(u, 10)]: the decimal digits of [u], most
    significant first, produced from the least significant one; a
    [uint64] has at most twenty digits. *)
Fixpoint formatBits (fuel : nat) (u : Z) (a : string) : string :=
  match fuel with
  | O => a
  | S fuel' =>
      if 10 <=? u
      then formatBits fuel' (u / 10) (String (digit_char (u mod 10)) a)
      else String (digit_char u) a
  end.

Definition FormatUint (u : Z) : string := formatBits 20 u "".

(** [strconv.ParseUint(s, 10, 64)].  With base 10 every byte outside
    ['0'..'9'] is a syntax error (a letter decodes to a digit [>= base],
    an underscore is only skipped for base 0, a sign is not accepted).
    The overflow tests are the library's: [n >= cutoff] before the
    multiplication, and [n1 < n || n1 > maxVal] after the addition,
    which is done modulo [2^64]. *)
Definition cutoff : Z := maxUint64 / 10 + 1.

Fixpoint ParseUint_loop (s : string) (n : Z) : Z * option NumErrorKind :=
  match s with
  | EmptyString => (n, None)
  | String c s' =>
      if is_digit c then
        let d := byte_val c - 48 in
        if cutoff <=? n then (maxUint64, Some ErrRange)
        else
          let n0 := wrap64 (n * 10) in
          let n1 := wrap64 (n0 + d) in
          if (n1 <? n0) || (maxUint64 <? n1)
          then (maxUint64, Some ErrRange)
          else ParseUint_loop s' n1
      else (0, Some ErrSyntax)
  end.

Definition ParseUint (s : string) : Z * option NumErrorKind :=
  match s with
  | EmptyString => (0, Some ErrSyntax)
  | _ => ParseUint_loop s 0
  end.

End strconv.

Module strings.

(** [strings.Split(s, sep)] for a one-byte separator: the pieces
    between the occurrences of [sep], one more than there are
    occurrences; [Split("", sep)] is the one-element slice holding the
    empty string. *)
Fixpoint Split (s : string) (sep : Ascii.ascii) : list string :=
  match s with
  | EmptyString => [EmptyString]
  | String c s' =>
      if decide (c = sep) then EmptyString :: Split s' sep
      else match Split s' sep with
           | piece :: rest => String c piece :: rest
           | [] => [String c EmptyString]
           end
  end.

(** [strings.Join(elems, sep)] for a one-byte separator. *)
Fixpoint Join (elems : list string) (sep : Ascii.ascii) : string :=
  match elems with
  | [] => EmptyString
  | [x] => x
  | x :: r => String.append x (String sep (Join r sep))
  end.

End strings.

(** ** Errors *)

Inductive error :=
| HTTPError (status : Z) (message : string)
| NumError (kind : strconv.NumErrorKind).

Definition HTTPErrorf (status : Z) (message : string) : error :=
  HTTPError status message.

(** An error of the 400 category. *)
Definition is_400 (e : error) : Prop :=
  match e with
  | HTTPError status _ => status = 400
  | NumError _ => False
  end.

(** ** [SequenceID] *)

Inductive SequenceType := IntSequenceType | ClockSequenceType.

(** [base.SequenceClock] is an interface declared outside the files at
    hand; the codec only ever asks a clock for its hashed value. *)
Record SequenceClock := { GetHashedValue : string }.

Record SequenceID := {
  SeqType : SequenceType;
  TriggeredBy : Z;
  LowSeq : Z;
  Seq : Z;
  Clock : option SequenceClock;
  TriggeredByClock : option SequenceClock;
  vbNo : Z
}.

(** The zero value [SequenceID{}]. *)
Definition SequenceID_zero : SequenceID :=
  {| SeqType := IntSequenceType; TriggeredBy := 0; LowSeq := 0; Seq := 0;
     Clock := None; TriggeredByClock := None; vbNo := 0 |}.

Definition set_Seq (v : Z) (s : SequenceID) : SequenceID :=
  {| SeqType := SeqType s; TriggeredBy := TriggeredBy s; LowSeq := LowSeq s;
     Seq := v; Clock := Clock s; TriggeredByClock := TriggeredByClock s;
     vbNo := vbNo s |}.

Definition set_TriggeredBy (v : Z) (s : SequenceID) : SequenceID :=
  {| SeqType := SeqType s; TriggeredBy := v; LowSeq := LowSeq s;
     Seq := Seq s; Clock := Clock s; TriggeredByClock := TriggeredByClock s;
     vbNo := vbNo s |}.

Definition set_LowSeq (v : Z) (s : SequenceID) : SequenceID :=
  {| SeqType := SeqType s; TriggeredBy := TriggeredBy s; LowSeq := v;
     Seq := Seq s; Clock := Clock s; TriggeredByClock := TriggeredByClock s;
     vbNo := vbNo s |}.

Definition set_SeqType (t : SequenceType) (s : SequenceID) : SequenceID :=
  {| SeqType := t; TriggeredBy := TriggeredBy s; LowSeq := LowSeq s;
     Seq := Seq s; Clock := Clock s; TriggeredByClock := TriggeredByClock s;
     vbNo := vbNo s |}.

(** [fmt.Sprintf("%d", u)] on a [uint64] prints what [FormatUint] does. *)
Definition fmt_d (u : Z) : string := strconv.FormatUint u.

Definition intSeqToString (s : SequenceID) : string :=
  if (0 <? LowSeq s) && (LowSeq s <? Seq s) then
    if 0 <? TriggeredBy s then
      fmt_d (LowSeq s) +:+ ":" +:+ fmt_d (TriggeredBy s) +:+ ":" +:+ fmt_d (Seq s)
    else
      fmt_d (LowSeq s) +:+ "::" +:+ fmt_d (Seq s)
  else if 0 <? TriggeredBy s then
    fmt_d (TriggeredBy s) +:+ ":" +:+ fmt_d (Seq s)
  else
    strconv.FormatUint (Seq s).

Definition clockSeqToString (s : SequenceID) : string :=
  match TriggeredByClock s with
  | Some tc => GetHashedValue tc +:+ ":" +:+ fmt_d (vbNo s) +:+ "." +:+ fmt_d (Seq s)
  | None =>
      match Clock s with
      | Some c => GetHashedValue c
      | None => fmt_d (vbNo s) +:+ "." +:+ fmt_d (Seq s)
      end
  end.

Definition SequenceID_String (s : SequenceID) : string :=
  match SeqType s with
  | IntSequenceType => intSeqToString s
  | ClockSequenceType => clockSeqToString s
  end.

Definition ParseIntSequenceComponent (component : string) (allowEmpty : bool)
  : Z * option error :=
  if allowEmpty && bool_decide (component = "") then (0, None)
  else
    let '(value, err) := strconv.ParseUint component in
    (value, NumError <$> err).

Definition parseIntegerSequenceID (str : string) : SequenceID * option error :=
  if decide (str = "") then (SequenceID_zero, None)
  else
    let s := set_SeqType IntSequenceType SequenceID_zero in
    match strings.Split str ":"%char with
    | [c0] =>
        let '(v, err) := ParseIntSequenceComponent c0 false in
        let s := set_Seq v s in
        match err with
        | Some _ => (s, Some (HTTPErrorf 400 "Invalid sequence"))
        | None => (s, None)
        end
    | [c0; c1] =>
        let '(v, err) := ParseIntSequenceComponent c0 false in
        let s := set_TriggeredBy v s in
        match err with
        | Some e => (s, Some e)
        | None =>
            let '(v, err) := ParseIntSequenceComponent c1 false in
            let s := set_Seq v s in
            match err with
            | Some e => (s, Some e)
            | None => (s, None)
            end
        end
    | [c0; c1; c2] =>
        let '(v, err) := ParseIntSequenceComponent c0 false in
        let s := set_LowSeq v s in
        match err with
        | Some e => (s, Some e)
        | None =>
            let '(v, err) := ParseIntSequenceComponent c1 true in
            let s := set_TriggeredBy v s in
            match err with
            | Some e => (s, Some e)
            | None =>
                let '(v, err) := ParseIntSequenceComponent c2 false in
                let s := set_Seq v s in
                match err with
                | Some e => (s, Some e)
                | None => (s, None)
                end
            end
        end
    | _ => (s, Some (HTTPErrorf 400 "Invalid sequence"))
    end.

Definition SafeSequence (s : SequenceID) : Z :=
  if 0 <? LowSeq s then LowSeq s else Seq s.

Definition Before (s s2 : SequenceID) : bool :=
  if TriggeredBy s =? TriggeredBy s2 then SafeSequence s <? SafeSequence s2
  else if TriggeredBy s =? 0 then SafeSequence s <? TriggeredBy s2
  else if TriggeredBy s2 =? 0 then TriggeredBy s <=? SafeSequence s2
  else TriggeredBy s <? TriggeredBy s2.

(** An integer sequence with the given three numbers. *)
Definition intSeq (lowSeq triggeredBy seq : Z) : SequenceID :=
  {| SeqType := IntSequenceType; TriggeredBy := triggeredBy; LowSeq := lowSeq;
     Seq := seq; Clock := None; TriggeredByClock := None; vbNo := 0 |}.

(** ** Log entries

    [LogEntry] is [channels.LogEntry]; its declaration is outside the
    files at hand, the fields are the ones the change cache reads and
    writes.  A [time.Time] is a number of nanoseconds, and so is a
    [time.Duration].  [Channels] maps a channel name to a removal marker,
    [None] standing for the nil pointer. *)

Record ChannelRemoval := {
  Removal_Seq : Z;
  Removal_RevID : string;
  Removal_Deleted : bool
}.

Record LogEntry := {
  Sequence : Z;
  DocID : string;
  RevID : string;
  Flags : Z;
  TimeReceived : Z;
  TimeSaved : Z;
  Channels : gmap string (option ChannelRemoval);
  Skipped : bool
}.

Definition set_Channels (ch : gmap string (option ChannelRemoval)) (e : LogEntry)
  : LogEntry :=
  {| Sequence := Sequence e; DocID := DocID e; RevID := RevID e; Flags := Flags e;
     TimeReceived := TimeReceived e; TimeSaved := TimeSaved e; Channels := ch;
     Skipped := Skipped e |}.

Definition set_Skipped (b : bool) (e : LogEntry) : LogEntry :=
  {| Sequence := Sequence e; DocID := DocID e; RevID := RevID e; Flags := Flags e;
     TimeReceived := TimeReceived e; TimeSaved := TimeSaved e;
     Channels := Channels e; Skipped := b |}.

(** The entry [&LogEntry{Sequence: seq, TimeReceived: time.Now()}]. *)
Definition placeholder (seq now : Z) : LogEntry :=
  {| Sequence := seq; DocID := ""; RevID := ""; Flags := 0; TimeReceived := now;
     TimeSaved := 0; Channels := ∅; Skipped := false |}.

(** ** The skipped-sequence list

    [skippedList] is the [container/list] read from front to back;
    [skippedMap] sends a sequence to the list element holding it. *)

Record SkippedSequence := { seq : Z; timeAdded : Z }.

Global Instance SkippedSequence_eq_dec : EqDecision SkippedSequence.
Proof. solve_decision. Defined.

Record SkippedSequenceList := {
  skippedList : list SkippedSequence;
  skippedMap : gmap Z SkippedSequence
}.

Inductive SkippedError := ErrValueNotFound | ErrPushLower.

Module SkippedList.

Definition NewSkippedSequenceList : SkippedSequenceList :=
  {| skippedList := []; skippedMap := ∅ |}.

Definition getOldest (l : SkippedSequenceList) : Z :=
  match skippedList l with
  | firstElement :: _ => seq firstElement
  | [] => 0
  end.

(** [list.Remove(e)]: the element leaves the list. *)
Fixpoint list_Remove (e : SkippedSequence) (l : list SkippedSequence)
  : list SkippedSequence :=
  match l with
  | [] => []
  | x :: r => if decide (x = e) then r else x :: list_Remove e r
  end.

Definition Remove (l : SkippedSequenceList) (x : Z)
  : SkippedSequenceList * option SkippedError :=
  match skippedMap l !! x with
  | Some listElement =>
      ({| skippedList := list_Remove listElement (skippedList l);
          skippedMap := delete x (skippedMap l) |}, None)
  | None => (l, Some ErrValueNotFound)
  end.

Definition Contains (l : SkippedSequenceList) (x : Z) : bool :=
  bool_decide (is_Some (skippedMap l !! x)).

Definition Push (l : SkippedSequenceList) (x : SkippedSequence)
  : SkippedSequenceList * option SkippedError :=
  let validPush :=
    match last (skippedList l) with
    | None => true
    | Some lastSkipped => seq lastSkipped <? seq x
    end in
  if validPush then
    ({| skippedList := skippedList l ++ [x];
        skippedMap := <[seq x := x]> (skippedMap l) |}, None)
  else (l, Some ErrPushLower).

(** [time.Since(t)] at the instant [now] is [now - t]. *)
Fixpoint olderThan (now skippedExpiry : Z) (l : list SkippedSequence) : list Z :=
  match l with
  | [] => []
  | skippedSeq :: r =>
      if skippedExpiry <? now - timeAdded skippedSeq
      then seq skippedSeq :: olderThan now skippedExpiry r
      else []
  end.

Definition getOlderThan (now : Z) (l : SkippedSequenceList) (skippedExpiry : Z)
  : list Z :=
  olderThan now skippedExpiry (skippedList l).

(** A caller's use of the list: one call after the other. *)
Inductive op := OpPush (x : SkippedSequence) | OpRemove (x : Z).

Definition apply (l : SkippedSequenceList) (o : op) : SkippedSequenceList :=
  match o with
  | OpPush x => fst (Push l x)
  | OpRemove x => fst (Remove l x)
  end.

Definition run (l : SkippedSequenceList) (ops : list op) : SkippedSequenceList :=
  foldl apply l ops.

(** The orders the list is meant to be in. *)
Definition by_sequence (a b : SkippedSequence) : Prop := seq a < seq b.
Definition by_time_strictly (a b : SkippedSequence) : Prop :=
  timeAdded a < timeAdded b.
Definition by_time (a b : SkippedSequence) : Prop := timeAdded a ≤ timeAdded b.

(** The entries pushed by [ops] carry clock readings that do not go
    back, starting from the reading [t]. *)
Fixpoint pushed_in_time_order (t : Z) (ops : list op) : Prop :=
  match ops with
  | [] => True
  | OpPush x :: r => t ≤ timeAdded x ∧ pushed_in_time_order (timeAdded x) r
  | OpRemove _ :: r => pushed_in_time_order t r
  end.

(** The index agrees with the list: [skippedMap] sends a sequence to an
    element exactly when that element is in the list and holds that
    sequence. *)
Definition indexed (l : SkippedSequenceList) : Prop :=
  ∀ x e, skippedMap l !! x = Some e ↔ (e ∈ skippedList l ∧ seq e = x).

(** The list is in strictly increasing order of [seq] and its index
    agrees with it. *)
Definition wellKept (l : SkippedSequenceList) : Prop :=
  StronglySorted by_sequence (skippedList l) ∧ indexed l.

End SkippedList.

(** ** Channel caches

    [channelCache] is implemented in a file that is not at hand.  The
    change cache creates channel caches and calls [addToCache],
    [AddLateSequence] and [pruneCache] on them; a channel cache is
    represented here by what it was created with and by the calls made on
    it, oldest first. *)

Inductive channelCacheCall :=
| Call_addToCache (change : LogEntry) (isRemoval : bool)
| Call_AddLateSequence (change : LogEntry)
| Call_pruneCache.

Record channelCache := {
  channelName : string;
  validFrom : Z;
  calls : list channelCacheCall
}.

Definition called (call : channelCacheCall) (cache : channelCache) : channelCache :=
  {| channelName := channelName cache; validFrom := validFrom cache;
     calls := calls cache ++ [call] |}.

(** ** The change cache *)

Record CacheOptions := {
  CachePendingSeqMaxWait : Z;
  CachePendingSeqMaxNum : Z;
  CacheSkippedSeqMaxWait : Z
}.

Definition DefaultCachePendingSeqMaxNum : Z := 10000.
Definition DefaultCachePendingSeqMaxWait : Z := 5 * 1000000000.
Definition DefaultSkippedSeqMaxWait : Z := 60 * 60 * 1000000000.

(** [channels.UserStarChannel]. *)
Definition UserStarChannel : string := "*".

(** The fields of [changeCache] that hold data.  The maps and the skipped
    list are the allocated ones [Init] installs. *)
Record changeCache := {
  logsDisabled : bool;
  nextSequence : Z;
  initialSequence : Z;
  receivedSeqs : gset Z;
  pendingLogs : list LogEntry;
  channelCaches : gmap string channelCache;
  stopped : bool;
  skippedSeqs : SkippedSequenceList;
  options : CacheOptions
}.

Definition set_logsDisabled (b : bool) (c : changeCache) : changeCache :=
  {| logsDisabled := b; nextSequence := nextSequence c;
     initialSequence := initialSequence c; receivedSeqs := receivedSeqs c;
     pendingLogs := pendingLogs c; channelCaches := channelCaches c;
     stopped := stopped c; skippedSeqs := skippedSeqs c; options := options c |}.

Definition set_nextSequence (n : Z) (c : changeCache) : changeCache :=
  {| logsDisabled := logsDisabled c; nextSequence := n;
     initialSequence := initialSequence c; receivedSeqs := receivedSeqs c;
     pendingLogs := pendingLogs c; channelCaches := channelCaches c;
     stopped := stopped c; skippedSeqs := skippedSeqs c; options := options c |}.

Definition set_initialSequence (n : Z) (c : changeCache) : changeCache :=
  {| logsDisabled := logsDisabled c; nextSequence := nextSequence c;
     initialSequence := n; receivedSeqs := receivedSeqs c;
     pendingLogs := pendingLogs c; channelCaches := channelCaches c;
     stopped := stopped c; skippedSeqs := skippedSeqs c; options := options c |}.

Definition set_receivedSeqs (r : gset Z) (c : changeCache) : changeCache :=
  {| logsDisabled := logsDisabled c; nextSequence := nextSequence c;
     initialSequence := initialSequence c; receivedSeqs := r;
     pendingLogs := pendingLogs c; channelCaches := channelCaches c;
     stopped := stopped c; skippedSeqs := skippedSeqs c; options := options c |}.

Definition set_pendingLogs (p : list LogEntry) (c : changeCache) : changeCache :=
  {| logsDisabled := logsDisabled c; nextSequence := nextSequence c;
     initialSequence := initialSequence c; receivedSeqs := receivedSeqs c;
     pendingLogs := p; channelCaches := channelCaches c;
     stopped := stopped c; skippedSeqs := skippedSeqs c; options := options c |}.

Definition set_channelCaches (m : gmap string channelCache) (c : changeCache)
  : changeCache :=
  {| logsDisabled := logsDisabled c; nextSequence := nextSequence c;
     initialSequence := initialSequence c; receivedSeqs := receivedSeqs c;
     pendingLogs := pendingLogs c; channelCaches := m;
     stopped := stopped c; skippedSeqs := skippedSeqs c; options := options c |}.

Definition set_stopped (b : bool) (c : changeCache) : changeCache :=
  {| logsDisabled := logsDisabled c; nextSequence := nextSequence c;
     initialSequence := initialSequence c; receivedSeqs := receivedSeqs c;
     pendingLogs := pendingLogs c; channelCaches := channelCaches c;
     stopped := b; skippedSeqs := skippedSeqs c; options := options c |}.

Definition set_skippedSeqs (l : SkippedSequenceList) (c : changeCache) : changeCache :=
  {| logsDisabled := logsDisabled c; nextSequence := nextSequence c;
     initialSequence := initialSequence c; receivedSeqs := receivedSeqs c;
     pendingLogs := pendingLogs c; channelCaches := channelCaches c;
     stopped := stopped c; skippedSeqs := l; options := options c |}.

(** *** The priority queue of pending entries

    [pendingLogs] is used through [container/heap] with
    [Less(i, j) = h[i].Sequence < h[j].Sequence].  The change cache
    observes the queue by its length, by [pendingLogs[0]] (an entry of
    least sequence) and by [heap.Pop] (which removes that entry); the
    queue is kept here in increasing order of sequence, so that its head
    is [pendingLogs[0]]. *)
Module heap.

Fixpoint Push (h : list LogEntry) (x : LogEntry) : list LogEntry :=
  match h with
  | [] => [x]
  | y :: r => if Sequence x <? Sequence y then x :: y :: r else y :: Push r x
  end.

Definition Pop (h : list LogEntry) : list LogEntry := tail h.

End heap.

(** *** Operations

    The operations that hold [c.lock] run one at a time; each is a
    function of the state before it.  An operation that reads the clock
    ([time.Now], [time.Since]) takes its reading as [now]: the readings
    of one call are taken to be one instant.  The counters kept in
    [expvar] maps and the log lines are left out. *)

Section ChangeCache.

(** The package variable [EnableStarChannelLog]. *)
Variable EnableStarChannelLog : bool.

(** [Init] with the given options, up to the point where it takes the
    lock. *)
Definition Init (opts : option CacheOptions) : changeCache :=
  let pick (given default : Z) := if 0 <? given then given else default in
  {| logsDisabled := false; nextSequence := 0; initialSequence := 0;
     receivedSeqs := ∅; pendingLogs := []; channelCaches := ∅;
     stopped := false;
     skippedSeqs := SkippedList.NewSkippedSequenceList;
     options :=
       match opts with
       | Some o =>
           {| CachePendingSeqMaxWait :=
                pick (CachePendingSeqMaxWait o) DefaultCachePendingSeqMaxWait;
              CachePendingSeqMaxNum :=
                pick (CachePendingSeqMaxNum o) DefaultCachePendingSeqMaxNum;
              CacheSkippedSeqMaxWait :=
                pick (CacheSkippedSeqMaxWait o) DefaultSkippedSeqMaxWait |}
       | None =>
           {| CachePendingSeqMaxWait := DefaultCachePendingSeqMaxWait;
              CachePendingSeqMaxNum := DefaultCachePendingSeqMaxNum;
              CacheSkippedSeqMaxWait := DefaultSkippedSeqMaxWait |}
       end |}.

Definition _setInitialSequence (c : changeCache) (initialSequence : Z)
  : changeCache :=
  set_nextSequence (wrap64 (initialSequence + 1))
    (set_initialSequence initialSequence c).

(** [Start]; [lastSequence] is what [c.context.LastSequence()] returns. *)
Definition Start (c : changeCache) (lastSequence : Z * option error)
  : changeCache * option error :=
  match snd lastSequence with
  | Some err => (c, Some err)
  | None => (_setInitialSequence c (fst lastSequence), None)
  end.

Definition Stop (c : changeCache) : changeCache :=
  set_logsDisabled true (set_stopped true c).

(** [Clear]: the result of [LastSequence] is assigned to
    [initialSequence] before the error is looked at. *)
Definition Clear (c : changeCache) (lastSequence : Z * option error)
  : changeCache * option error :=
  let c := set_initialSequence (fst lastSequence) c in
  match snd lastSequence with
  | Some err => (c, Some err)
  | None => (set_pendingLogs [] (set_channelCaches ∅ c), None)
  end.

Definition LastSequence (c : changeCache) : Z := wrap64 (nextSequence c - 1).

Definition WasSkipped (c : changeCache) (x : Z) : bool :=
  SkippedList.Contains (skippedSeqs c) x.

Definition RemoveSkipped (c : changeCache) (x : Z) : changeCache :=
  set_skippedSeqs (fst (SkippedList.Remove (skippedSeqs c) x)) c.

Definition PushSkipped (c : changeCache) (now sequence : Z) : changeCache :=
  set_skippedSeqs
    (fst (SkippedList.Push (skippedSeqs c) {| seq := sequence; timeAdded := now |}))
    c.

(** [_getChannelCache]: the cache of that name, made and recorded in the
    map when there is none. *)
Definition _getChannelCache (c : changeCache) (name : string)
  : changeCache * channelCache :=
  match channelCaches c !! name with
  | Some cache => (c, cache)
  | None =>
      let cache := {| channelName := name;
                      validFrom := wrap64 (initialSequence c + 1);
                      calls := [] |} in
      (set_channelCaches (<[name := cache]> (channelCaches c)) c, cache)
  end.

(** A method call on the cache [_getChannelCache] returns. *)
Definition onChannelCache (c : changeCache) (name : string)
  (call : channelCacheCall) : changeCache :=
  let '(c, cache) := _getChannelCache c name in
  set_channelCaches (<[name := called call cache]> (channelCaches c)) c.

Definition addToChannel (change : LogEntry) (isRemoval : bool)
  (acc : changeCache * gset string) (name : string) : changeCache * gset string :=
  let '(c, addedTo) := acc in
  let c := onChannelCache c name (Call_addToCache change isRemoval) in
  let c := if Skipped change
           then onChannelCache c name (Call_AddLateSequence change) else c in
  (c, {[name]} ∪ addedTo).

(** The result [nil] is the empty set. *)
Definition _addToCache (c : changeCache) (change : LogEntry)
  : changeCache * gset string :=
  let c := if nextSequence c <=? Sequence change
           then set_nextSequence (wrap64 (Sequence change + 1)) c else c in
  if decide (DocID change = "") then (c, ∅)
  else
    let ch := Channels change in
    let change := set_Channels ∅ change in
    let acc :=
      foldl (λ acc '(name, removal),
               match removal with
               | None => addToChannel change false acc name
               | Some r =>
                   if Removal_Seq r =? Sequence change
                   then addToChannel change true acc name else acc
               end)
            (c, ∅) (map_to_list ch) in
    if EnableStarChannelLog
    then addToChannel change false acc UserStarChannel
    else acc.

(** One pass of the loop of [_addPendingLogs] for each unit of [fuel]. *)
Fixpoint addPendingLogs_loop (fuel : nat) (c : changeCache) (now : Z)
  : changeCache * gset string :=
  match fuel with
  | O => (c, ∅)
  | S fuel' =>
      match pendingLogs c with
      | [] => (c, ∅)
      | change :: _ =>
          if Sequence change =? nextSequence c then
            let c := set_pendingLogs (heap.Pop (pendingLogs c)) c in
            let '(c, changed) := _addToCache c change in
            let '(c, changedChannels) := addPendingLogs_loop fuel' c now in
            (c, changed ∪ changedChannels)
          else if (CachePendingSeqMaxNum (options c) <? Z.of_nat (length (pendingLogs c)))
                  || (CachePendingSeqMaxWait (options c) <=? now - TimeReceived change)
          then
            let c := PushSkipped c now (nextSequence c) in
            let c := set_nextSequence (wrap64 (nextSequence c + 1)) c in
            addPendingLogs_loop fuel' c now
          else (c, ∅)
      end
  end.

(** The number of passes the loop can make: to reach the head of the
    queue [nextSequence] is incremented (modulo [2^64]) as many times
    as it is away from it, the head is then popped and leaves
    [nextSequence] one above it. *)
Fixpoint addPendingLogs_passes (next : Z) (pending : list LogEntry) : nat :=
  match pending with
  | [] => O
  | change :: rest =>
      (S (Z.to_nat (wrap64 (Sequence change - next)))
       + addPendingLogs_passes (wrap64 (Sequence change + 1)) rest)%nat
  end.

Definition _addPendingLogs (c : changeCache) (now : Z) : changeCache * gset string :=
  addPendingLogs_loop (addPendingLogs_passes (nextSequence c) (pendingLogs c)) c now.

Definition processEntry (c : changeCache) (now : Z) (change : LogEntry)
  : changeCache * gset string :=
  if logsDisabled c then (c, ∅)
  else
    let sequence := Sequence change in
    if decide (sequence ∈ receivedSeqs c) then (c, ∅)
    else
      let c := set_receivedSeqs ({[sequence]} ∪ receivedSeqs c) c in
      if (sequence =? nextSequence c) || (nextSequence c =? 0) then
        let '(c, changedChannels) := _addToCache c change in
        let '(c, more) := _addPendingLogs c now in
        (c, changedChannels ∪ more)
      else if nextSequence c <? sequence then
        let c := set_pendingLogs (heap.Push (pendingLogs c) change) c in
        let numPending := Z.of_nat (length (pendingLogs c)) in
        if CachePendingSeqMaxNum (options c) <? numPending
        then _addPendingLogs c now
        else (c, ∅)
      else if initialSequence c <? sequence then
        let change := if WasSkipped c sequence
                      then set_Skipped true change else change in
        let '(c, changedChannels) := _addToCache c change in
        (RemoveSkipped c sequence, changedChannels)
      else (c, ∅).

(** What a caller hands to [c.notifyChange]: the changed channels, when
    there are any. *)
Definition notify (changedChannels : gset string) : list (gset string) :=
  if decide (changedChannels = ∅) then [] else [changedChannels].

(** [CleanUp]; the maps of the state are allocated, so the test for a
    nil [channelCaches] fails and the result is [true]. *)
Definition CleanUp (c : changeCache) (now : Z)
  : changeCache * list (gset string) * bool :=
  let '(c, changedChannels) := _addPendingLogs c now in
  let c := set_channelCaches (called Call_pruneCache <$> channelCaches c) c in
  (c, notify changedChannels, true).

Definition releaseUnusedSequence (c : changeCache) (now sequence : Z)
  : changeCache * list (gset string) :=
  let '(c, changedChannels) := processEntry c now (placeholder sequence now) in
  (c, notify changedChannels).

(** [strings.TrimPrefix(s, prefix)]: [s] without the leading [prefix], or
    [s] itself when it does not start with it. *)
Fixpoint trimmed (s prefix : string) : option string :=
  match prefix, s with
  | EmptyString, _ => Some s
  | String p prefix', String c s' =>
      if decide (c = p) then trimmed s' prefix' else None
  | String _ _, EmptyString => None
  end.

Definition TrimPrefix (s prefix : string) : string :=
  default s (trimmed s prefix).

(** [processUnusedSequence]; the constant [UnusedSequenceKeyPrefix] is
    declared outside the files at hand and is a parameter. *)
Definition processUnusedSequence (UnusedSequenceKeyPrefix : string)
  (c : changeCache) (now : Z) (docID : string)
  : changeCache * list (gset string) :=
  let sequenceStr := TrimPrefix docID UnusedSequenceKeyPrefix in
  match strconv.ParseUint sequenceStr with
  | (_, Some _) => (c, [])
  | (sequence, None) => releaseUnusedSequence c now sequence
  end.

(** The loop [for seq := from; seq <= to; seq++] of
    [processUnusedSequenceRange], for [to] below the largest [uint64]. *)
Definition releaseRange (c : changeCache) (now fromSequence toSequence : Z)
  : changeCache * list (gset string) :=
  foldl (λ '(c, notified) sequence,
           let '(c, more) := releaseUnusedSequence c now sequence in
           (c, notified ++ more))
        (c, []) (seqZ fromSequence (toSequence + 1 - fromSequence)).

(** [processUnusedSequenceRange].  When [toSequence] is the largest
    [uint64] the condition [seq <= toSequence] of its loop holds of
    every [uint64] and the call does not return: the result is [None]. *)
Definition processUnusedSequenceRange (c : changeCache) (now : Z) (docID : string)
  : option (changeCache * list (gset string)) :=
  match strings.Split docID ":"%char with
  | [_; _; s2; s3] =>
      match strconv.ParseUint s2 with
      | (_, Some _) => Some (c, [])
      | (fromSequence, None) =>
          match strconv.ParseUint s3 with
          | (_, Some _) => Some (c, [])
          | (toSequence, None) =>
              if toSequence =? maxUint64 then None
              else Some (releaseRange c now fromSequence toSequence)
          end
      end
  | _ => Some (c, [])
  end.

Definition getOldestSkippedSequence (c : changeCache) : Z :=
  SkippedList.getOldest (skippedSeqs c).

Definition GetSkippedSequencesOlderThanMaxWait (c : changeCache) (now : Z) : list Z :=
  SkippedList.getOlderThan now (skippedSeqs c) (CacheSkippedSeqMaxWait (options c)).

(** [RemoveSkippedSequences]: the state and the number of sequences that
    were removed. *)
Definition RemoveSkippedSequences (c : changeCache) (sequences : list Z)
  : changeCache * Z :=
  foldl (λ '(c, removedCount) sequence,
           match SkippedList.Remove (skippedSeqs c) sequence with
           | (_, Some _) => (c, removedCount)
           | (l, None) => (set_skippedSeqs l c, removedCount + 1)
           end)
        (c, 0) sequences.

Definition GetStableSequence (c : changeCache) (docID : string) : SequenceID :=
  intSeq 0 0 (LastSequence c).

Definition EnableChannelIndexing (c : changeCache) (enable : bool) : changeCache :=
  set_logsDisabled (negb enable) c.

(** *** Cleaning the skipped sequences

    [CleanSkippedSequenceQueue] asks the database for the skipped
    sequences that have waited too long.  What the database answers is
    outside the files at hand: [getChangesForSequences] and [GetDocument]
    are the answers of [c.context], the latter giving the channels of the
    document.  [DisableCleanSkippedQuery] is the unsupported option of
    that name and [SkippedSeqCleanViewBatch] the package variable. *)
Variable getChangesForSequences : list Z → list LogEntry * option error.
Variable GetDocument : string → gmap string (option ChannelRemoval) * option error.

(** The loop over the batches, one batch for each unit of [fuel]; a
    batch size of at least one takes a sequence off [oldSkippedSequences]
    with each batch. *)
Fixpoint queryBatches (fuel : nat) (batch : nat) (oldSkippedSequences : list Z)
  (foundEntries : list LogEntry) (pendingRemovals : list Z)
  : list LogEntry * list Z :=
  match fuel with
  | O => (foundEntries, pendingRemovals)
  | S fuel' =>
      match oldSkippedSequences with
      | [] => (foundEntries, pendingRemovals)
      | _ =>
          let skippedSeqBatch := take batch oldSkippedSequences in
          let oldSkippedSequences := drop batch oldSkippedSequences in
          match getChangesForSequences skippedSeqBatch with
          | (_, Some _) =>
              queryBatches fuel' batch oldSkippedSequences foundEntries pendingRemovals
          | (entries, None) =>
              let foundMap : gset Z := list_to_set (Sequence <$> entries) in
              queryBatches fuel' batch oldSkippedSequences
                (foundEntries ++ entries)
                (pendingRemovals
                 ++ filter (λ skippedSeq, skippedSeq ∉ foundMap) skippedSeqBatch)
          end
      end
  end.

(** The found entries go through [processEntry] as skipped ones, with
    the channels of their documents. *)
Definition processFound (c : changeCache) (now : Z) (foundEntries : list LogEntry)
  : changeCache * gset string :=
  foldl (λ '(c, changedChannelsCombined) entry,
           let entry := set_Skipped true entry in
           match GetDocument (DocID entry) with
           | (_, Some _) => (c, changedChannelsCombined)
           | (channels, None) =>
               let entry := set_Channels channels entry in
               let '(c, changedChannels) := processEntry c now entry in
               (c, changedChannelsCombined ∪ changedChannels)
           end)
        (c, ∅) foundEntries.

(** [CleanSkippedSequenceQueue]: the state, what the listener is told,
    and what is added to the counter [abandoned_seqs].  With a batch
    size that is not positive the loop over the batches does not come to
    an end (zero) or slices out of range (negative): the result is
    [None]. *)
Definition CleanSkippedSequenceQueue (DisableCleanSkippedQuery : bool)
  (SkippedSeqCleanViewBatch : Z) (c : changeCache) (now : Z)
  : option (changeCache * list (gset string) * Z) :=
  let oldSkippedSequences := GetSkippedSequencesOlderThanMaxWait c now in
  match oldSkippedSequences with
  | [] => Some (c, [], 0)
  | _ =>
      let queried :=
        if DisableCleanSkippedQuery then Some ([], oldSkippedSequences)
        else if SkippedSeqCleanViewBatch <=? 0 then None
        else Some (queryBatches (length oldSkippedSequences)
                     (Z.to_nat SkippedSeqCleanViewBatch) oldSkippedSequences [] [])
      in
      match queried with
      | None => None
      | Some (foundEntries, pendingRemovals) =>
          let '(c, changedChannelsCombined) := processFound c now foundEntries in
          let '(c, numRemoved) := RemoveSkippedSequences c pendingRemovals in
          Some (c, notify changedChannelsCombined, numRemoved)
      end
  end.

End ChangeCache.

(** ** Notions the statements below are phrased with *)

(** The value of a string of decimal digits read after the value [n], as
    an unbounded integer. *)
Fixpoint decimal_value (s : string) (n : Z) : Z :=
  match s with
  | EmptyString => n
  | String c s' => decimal_value s' (n * 10 + (strconv.byte_val c - 48))
  end.

Fixpoint digits_only (s : string) : bool :=
  match s with
  | EmptyString => true
  | String c s' => strconv.is_digit c && digits_only s'
  end.

(** A decimal numeral of a [uint64]. *)
Definition numeral (s : string) : Prop :=
  s ≠ "" ∧ digits_only s = true ∧ decimal_value s 0 ≤ maxUint64.

Definition numeralb (s : string) : bool :=
  negb (bool_decide (s = "")) && digits_only s
  && (decimal_value s 0 <=? maxUint64).

(** The three wire forms of a sequence identifier: [seq],
    [triggeredBy:seq] and [lowSeq:triggeredBy:seq], the last with a
    [triggeredBy] that may be empty. *)
Definition recognized (str : string) : Prop :=
  numeral str
  ∨ (∃ t sq, numeral t ∧ numeral sq ∧ str = t +:+ ":" +:+ sq)
  ∨ (∃ l t sq, numeral l ∧ (t = "" ∨ numeral t) ∧ numeral sq
               ∧ str = l +:+ ":" +:+ t +:+ ":" +:+ sq).

(** The same, decided on the pieces between the colons. *)
Definition recognizedb (str : string) : bool :=
  match strings.Split str ":"%char with
  | [sq] => numeralb sq
  | [t; sq] => numeralb t && numeralb sq
  | [l; t; sq] => numeralb l && (bool_decide (t = "") || numeralb t) && numeralb sq
  | _ => false
  end.

(** An integer sequence identifier that its string determines: of the
    integer kind, without clocks or vbucket, its numbers [uint64]s, and
    its [LowSeq] either absent or below [Seq] (a [LowSeq] that is not
    below [Seq] is dropped by the encoder). *)
Definition wellFormed (s : SequenceID) : Prop :=
  SeqType s = IntSequenceType ∧ Clock s = None ∧ TriggeredByClock s = None
  ∧ vbNo s = 0
  ∧ uint64 (Seq s) ∧ uint64 (TriggeredBy s) ∧ uint64 (LowSeq s)
  ∧ (LowSeq s = 0 ∨ LowSeq s < Seq s).


(** Two states that differ at most in their channel caches. *)
Definition same_buffering (c c' : changeCache) : Prop :=
  logsDisabled c' = logsDisabled c
  ∧ nextSequence c' = nextSequence c
  ∧ initialSequence c' = initialSequence c
  ∧ receivedSeqs c' = receivedSeqs c
  ∧ pendingLogs c' = pendingLogs c
  ∧ stopped c' = stopped c
  ∧ skippedSeqs c' = skippedSeqs c
  ∧ options c' = options c.

Definition by_Sequence (a b : LogEntry) : Prop := Sequence a < Sequence b.

(** What holds of the sequence buffering while [_addPendingLogs] runs: the
    pending entries are in strictly increasing order of sequence, lie
    from [nextSequence] on and below the largest [uint64], have been
    recorded in [receivedSeqs], and there are none while [nextSequence]
    is still zero. *)
Definition draining (c : changeCache) : Prop :=
  uint64 (nextSequence c)
  ∧ StronglySorted by_Sequence (pendingLogs c)
  ∧ (∀ e, e ∈ pendingLogs c → nextSequence c ≤ Sequence e < maxUint64)
  ∧ (∀ e, e ∈ pendingLogs c → Sequence e ∈ receivedSeqs c)
  ∧ (pendingLogs c ≠ [] → 0 < nextSequence c).

(** The states of the sequence buffering between two operations: as
    above, and every pending entry is strictly beyond [nextSequence]. *)
Definition buffering (c : changeCache) : Prop :=
  draining c ∧ (∀ e, e ∈ pendingLogs c → nextSequence c < Sequence e).

(** The loop of [_addPendingLogs] has nothing left to do: the queue is
    empty, or its head is not the next sequence and is neither beyond the
    allowed number of pending entries nor waiting for too long. *)
Definition settled (c : changeCache) (now : Z) : Prop :=
  match pendingLogs c with
  | [] => True
  | change :: _ =>
      Sequence change ≠ nextSequence c
      ∧ Z.of_nat (length (pendingLogs c)) ≤ CachePendingSeqMaxNum (options c)
      ∧ now - TimeReceived change < CachePendingSeqMaxWait (options c)
  end.

(** A document entry received at [now], present in the given channels. *)
Definition docEntry (sequence : Z) (docID : string) (chans : list string) (now : Z)
  : LogEntry :=
  {| Sequence := sequence; DocID := docID; RevID := "1-a"; Flags := 0;
     TimeReceived := now; TimeSaved := now;
     Channels := list_to_map ((λ name, (name, None)) <$> chans);
     Skipped := false |}.

(** One operation under the lock of the change cache; the entries that
    [processEntry] is given carry a sequence below the largest [uint64]. *)
Inductive step (star : bool) : changeCache → changeCache → Prop :=
| step_processEntry c now change :
    0 ≤ Sequence change < maxUint64 →
    step star c (fst (processEntry star c now change))
| step_CleanUp c now :
    step star c (fst (fst (CleanUp star c now)))
| step_Clear c lastSequence :
    step star c (fst (Clear c lastSequence)).

(** Entries handed to [processEntry] one after the other, each with the
    clock reading of its call. *)
Definition submit (star : bool) (c : changeCache) (jobs : list (Z * LogEntry))
  : changeCache :=
  foldl (λ c '(now, change), fst (processEntry star c now change)) c jobs.


(** Two states that differ at most in their skipped sequences. *)
Definition skipped_apart (c c' : changeCache) : Prop :=
  logsDisabled c' = logsDisabled c
  ∧ nextSequence c' = nextSequence c
  ∧ initialSequence c' = initialSequence c
  ∧ receivedSeqs c' = receivedSeqs c
  ∧ pendingLogs c' = pendingLogs c
  ∧ channelCaches c' = channelCaches c
  ∧ stopped c' = stopped c
  ∧ options c' = options c.

(** The skipped list of the state is well kept and holds sequences below
    [nextSequence] only, and every sequence from [lo] up to [nextSequence]
    has been received or is on the skipped list. *)
Definition accounted (lo : Z) (c : changeCache) : Prop :=
  0 < nextSequence c
  ∧ SkippedList.wellKept (skippedSeqs c)
  ∧ (∀ x, x ∈ skippedList (skippedSeqs c) → seq x < nextSequence c)
  ∧ (∀ s, lo ≤ s < nextSequence c →
       s ∈ receivedSeqs c ∨ SkippedList.Contains (skippedSeqs c) s = true).

(** The pending queue holds no more entries than
    [CachePendingSeqMaxNum] allows. *)
Definition bounded (c : changeCache) : Prop :=
  Z.of_nat (length (pendingLogs c)) ≤ CachePendingSeqMaxNum (options c).

(** What a channel cache is told about an entry: [addToCache], and
    [AddLateSequence] as well when the entry was skipped. *)
Definition callsFor (entry : LogEntry) (isRemoval : bool) : list channelCacheCall :=
  Call_addToCache entry isRemoval
  :: (if Skipped entry then [Call_AddLateSequence entry] else []).

(** The calls an entry owes to a channel by what its [Channels] hold
    for that channel: nothing, no removal, or a removal. *)
Definition docCalls (entry : LogEntry) (removal : option (option ChannelRemoval))
  : list channelCacheCall :=
  match removal with
  | Some None => callsFor entry false
  | Some (Some r) =>
      if Removal_Seq r =? Sequence entry then callsFor entry true else []
  | None => []
  end.

(** The calls an entry owes to the cache of the channel [name]: those
    for the channels of its document, then the one for the star channel. *)
Definition callsOn (star : bool) (change : LogEntry) (name : string)
  : list channelCacheCall :=
  let entry := set_Channels ∅ change in
  docCalls entry (Channels change !! name)
  ++ (if star && bool_decide (name = UserStarChannel)
      then callsFor entry false else []).

(** * Properties *)

Ltac Zify.zify_post_hook ::= Z.to_euclidean_division_equations.

Set Warnings "-clear-no-such-hyp".

(** ** Examples of the codec *)

Example format_examples :
SequenceID_String (intSeq 0 0 1234) = "1234"
∧ SequenceID_String (intSeq 0 5678 1234) = "5678:1234"
∧ SequenceID_String (intSeq 12 0 1234) = "12::1234"
∧ SequenceID_String (intSeq 12 5678 1234) = "12:5678:1234"
∧ SequenceID_String (intSeq 4321 5678 1234) = "5678:1234"
∧ SequenceID_String (intSeq 0 0 maxUint64) = "18446744073709551615".
Proof. vm_compute. repeat split. Qed.

Example parse_examples :
parseIntegerSequenceID "1234" = (intSeq 0 0 1234, None)
∧ parseIntegerSequenceID "5678:1234" = (intSeq 0 5678 1234, None)
∧ parseIntegerSequenceID "12::1234" = (intSeq 12 0 1234, None)
∧ parseIntegerSequenceID "12:5678:1234" = (intSeq 12 5678 1234, None)
∧ parseIntegerSequenceID "18446744073709551615" = (intSeq 0 0 maxUint64, None)
∧ snd (parseIntegerSequenceID "18446744073709551616")
  = Some (HTTPError 400 "Invalid sequence")
∧ snd (parseIntegerSequenceID "1:2:3:4") = Some (HTTPError 400 "Invalid sequence")
∧ snd (parseIntegerSequenceID "12a") = Some (HTTPError 400 "Invalid sequence")
∧ snd (parseIntegerSequenceID ":5") = Some (NumError strconv.ErrSyntax).
Proof. vm_compute. repeat split. Qed.

(** A [LowSeq] that is not below [Seq] does not come back. *)
Example parse_format_drops_LowSeq :
parseIntegerSequenceID (SequenceID_String (intSeq 7 0 5)) = (intSeq 0 0 5, None).
Proof. by vm_compute. Qed.

(** ** Strings *)

Lemma append_cons c s t : String c s +:+ t = String c (s +:+ t).
Proof. reflexivity. Qed.

Lemma append_nil_l t : "" +:+ t = t.
Proof. reflexivity. Qed.

Lemma append_nil_r s : s +:+ "" = s.
Proof. induction s as [|c s IH]; [done|]. by rewrite append_cons, IH. Qed.

Lemma append_assoc s t u : (s +:+ t) +:+ u = s +:+ (t +:+ u).
Proof. induction s as [|c s IH]; [done|]. by rewrite !append_cons, IH. Qed.

Lemma length_append s t :
  String.length (s +:+ t) = (String.length s + String.length t)%nat.
Proof. induction s as [|c s IH]; [done|]. rewrite append_cons. simpl. by rewrite IH. Qed.

(** ** Decimal numerals *)

Section Numerals.

Import strconv.

Lemma is_digit_bounds c :
  is_digit c = true → 0 ≤ byte_val c - 48 ≤ 9.
Proof. unfold is_digit. intros [??]%andb_prop. lia. Qed.

Lemma decimal_value_ge s : ∀ n,
  digits_only s = true → 0 ≤ n → n ≤ decimal_value s n.
Proof.
  induction s as [|c s IH]; intros n Hd Hn; simpl in *; [lia|].
  apply andb_prop in Hd as [Hc Hs]. apply is_digit_bounds in Hc.
  etrans; [|apply IH]; [lia|done|lia].
Qed.

Lemma wrap64_small x : 0 ≤ x ≤ maxUint64 → wrap64 x = x.
Proof. unfold wrap64, maxUint64. intros. apply Z.mod_small. lia. Qed.

Lemma ParseUint_loop_ok s : ∀ n,
  digits_only s = true → 0 ≤ n → decimal_value s n ≤ maxUint64 →
  ParseUint_loop s n = (decimal_value s n, None).
Proof.
  induction s as [|c s IH]; intros n Hd Hn Hv; simpl in *; [done|].
  apply andb_prop in Hd as [Hc Hs]. rewrite Hc.
  pose proof (is_digit_bounds _ Hc) as Hb.
  pose proof (decimal_value_ge s (n * 10 + (byte_val c - 48)) Hs ltac:(lia)).
  assert (n * 10 + (byte_val c - 48) ≤ maxUint64) as Hle by lia.
  unfold cutoff, maxUint64 in *.
  destruct (Z.leb_spec (18446744073709551615 / 10 + 1) n) as [Hcut|Hcut]; [lia|].
  rewrite (wrap64_small (n * 10)) by (unfold maxUint64; lia).
  rewrite wrap64_small by (unfold maxUint64; lia).
  destruct (Z.ltb_spec (n * 10 + (byte_val c - 48)) (n * 10)); [lia|].
  destruct (Z.ltb_spec 18446744073709551615 (n * 10 + (byte_val c - 48))); [lia|].
  simpl. apply IH; [done|lia|done].
Qed.

Lemma ParseUint_loop_inv s : ∀ n v,
  0 ≤ n ≤ maxUint64 → ParseUint_loop s n = (v, None) →
  digits_only s = true ∧ v = decimal_value s n ∧ v ≤ maxUint64.
Proof.
  induction s as [|c s IH]; intros n v Hn Hp; simpl in *.
  { inversion Hp; subst. split_and!; [done..|lia]. }
  destruct (is_digit c) eqn:Hc; [|done].
  pose proof (is_digit_bounds _ Hc) as Hb.
  unfold cutoff, maxUint64 in *.
  destruct (Z.leb_spec (18446744073709551615 / 10 + 1) n) as [Hcut|Hcut]; [done|].
  rewrite (wrap64_small (n * 10)) in Hp by (unfold maxUint64; lia).
  destruct (Z.ltb_spec (wrap64 (n * 10 + (byte_val c - 48))) (n * 10)) as [Hlt|Hge];
    [done|].
  destruct (Z.ltb_spec 18446744073709551615 (wrap64 (n * 10 + (byte_val c - 48))));
    [done|].
  simpl in Hp.
  assert (wrap64 (n * 10 + (byte_val c - 48)) = n * 10 + (byte_val c - 48)) as Hw.
  { unfold wrap64 in *. lia. }
  rewrite Hw in *. apply IH in Hp as (? & ? & ?); [|lia]. done.
Qed.

(** [ParseUint] succeeds exactly on the numerals of a [uint64], with
    their value. *)
Lemma ParseUint_ok s v :
  ParseUint s = (v, None) ↔ numeral s ∧ v = decimal_value s 0.
Proof.
  unfold ParseUint, numeral. split.
  - destruct s as [|c s]; [done|]. intros Hp.
    apply ParseUint_loop_inv in Hp as (? & ? & ?); [|unfold maxUint64; lia].
    subst. done.
  - intros [(Hne & Hd & Hle) ->]. destruct s as [|c s]; [done|].
    by apply ParseUint_loop_ok.
Qed.

Lemma ParseUint_numeralb s :
  numeralb s = true ↔ numeral s.
Proof.
  unfold numeralb, numeral. rewrite !andb_true_iff, negb_true_iff.
  rewrite bool_decide_eq_false, Z.leb_le. tauto.
Qed.

Lemma ParseUint_error s v e :
  ParseUint s = (v, Some e) → ¬ numeral s.
Proof.
  intros Hp Hn.
  assert (ParseUint s = (decimal_value s 0, None)) as Hok
    by (by apply ParseUint_ok).
  congruence.
Qed.

(** The digits [formatBits] puts in front of [a]. *)
Lemma digit_char_val d :
  0 ≤ d ≤ 9 → is_digit (digit_char d) = true ∧ byte_val (digit_char d) - 48 = d.
Proof.
  intros Hd. unfold is_digit, byte_val, digit_char.
  rewrite Ascii.N_ascii_embedding by lia.
  rewrite andb_true_iff, !Z.leb_le. lia.
Qed.

Lemma formatBits_digits fuel : ∀ u a,
  0 ≤ u < 10 ^ Z.of_nat (S fuel) →
  ∃ ds, formatBits (S fuel) u a = ds +:+ a ∧ ds ≠ "" ∧ digits_only ds = true
        ∧ (∀ s n, decimal_value (ds +:+ s) n
                  = decimal_value s (n * 10 ^ Z.of_nat (String.length ds) + u))
        ∧ (∀ s, digits_only (ds +:+ s) = digits_only s).
Proof.
  assert (∀ u a, 0 ≤ u < 10 →
    ∃ ds, String (digit_char u) a = ds +:+ a ∧ ds ≠ "" ∧ digits_only ds = true
        ∧ (∀ s n, decimal_value (ds +:+ s) n
                  = decimal_value s (n * 10 ^ Z.of_nat (String.length ds) + u))
        ∧ (∀ s, digits_only (ds +:+ s) = digits_only s)) as Hone.
  { intros u a Hu. destruct (digit_char_val u) as [Hdig Hval]; [lia|].
    exists (String (digit_char u) ""). simpl. rewrite Hdig, Hval.
    repeat split; try done; intros; simpl; f_equal; lia. }
  induction fuel as [|fuel IH]; intros u a Hu.
  - cbn [formatBits]. destruct (Z.leb_spec 10 u) as [Hge|Hlt]; [simpl in Hu; lia|].
    apply Hone. lia.
  - cbn [formatBits]. fold (formatBits (S fuel)).
    destruct (Z.leb_spec 10 u) as [Hge|Hlt]; [|apply Hone; lia].
    destruct (IH (u / 10) (String (digit_char (u mod 10)) a)) as
      (ds & Heq & Hne & Hd & Hv & Hds).
    { rewrite Nat2Z.inj_succ, Z.pow_succ_r in Hu by lia. lia. }
    destruct (digit_char_val (u mod 10)) as [Hdig Hval]; [lia|].
    exists (ds +:+ String (digit_char (u mod 10)) "").
    assert (∀ s, (ds +:+ String (digit_char (u mod 10)) "") +:+ s
                 = ds +:+ String (digit_char (u mod 10)) s) as Happ.
    { intros s. by rewrite append_assoc. }
    repeat split.
    + cbn [formatBits] in Heq. by rewrite Heq, Happ.
    + destruct ds; done.
    + specialize (Hds (String (digit_char (u mod 10)) "")).
      rewrite Hds. simpl. by rewrite Hdig.
    + intros s n. rewrite Happ, Hv. simpl. rewrite Hval.
      f_equal. rewrite length_append. simpl String.length.
      rewrite Nat2Z.inj_add, Z.pow_add_r by lia. simpl (Z.of_nat 1). lia.
    + intros s. rewrite Happ, Hds. simpl. by rewrite Hdig.
Qed.

Lemma FormatUint_digits u :
  uint64 u →
  FormatUint u ≠ "" ∧ digits_only (FormatUint u) = true
  ∧ decimal_value (FormatUint u) 0 = u.
Proof.
  intros Hu. unfold FormatUint.
  destruct (formatBits_digits 19 u "") as (ds & Heq & Hne & Hd & Hv & _).
  { unfold uint64, maxUint64 in Hu. lia. }
  rewrite Heq, append_nil_r.
  repeat split; try done.
  specialize (Hv "" 0). rewrite append_nil_r in Hv.
  rewrite Hv. simpl. lia.
Qed.

Lemma FormatUint_numeral u : uint64 u → numeral (FormatUint u).
Proof.
  intros Hu. destruct (FormatUint_digits u Hu) as (? & ? & Hv).
  repeat split; try done. rewrite Hv. apply Hu.
Qed.

(** Reading back what was printed. *)
Lemma ParseUint_FormatUint u :
  uint64 u → ParseUint (FormatUint u) = (u, None).
Proof.
  intros Hu. apply ParseUint_ok. split; [by apply FormatUint_numeral|].
  symmetry. by apply FormatUint_digits.
Qed.

End Numerals.

(** ** Splitting at colons *)

Section Splitting.

Import strconv strings.

Lemma Split_not_nil s sep : Split s sep ≠ [].
Proof.
  destruct s as [|c s]; simpl; [done|].
  destruct (decide (c = sep)); [done|]. by destruct (Split s sep).
Qed.

Lemma Join_cons x l sep :
  l ≠ [] → Join (x :: l) sep = x +:+ String sep (Join l sep).
Proof. by destruct l. Qed.

(** [strings.Join(strings.Split(s, sep), sep) == s]. *)
Lemma Join_Split s sep : Join (Split s sep) sep = s.
Proof.
  induction s as [|c s IH]; simpl; [done|].
  pose proof (Split_not_nil s sep).
  destruct (decide (c = sep)) as [->|Hne].
  - by rewrite Join_cons, IH.
  - destruct (Split s sep) as [|x r] eqn:E; [done|].
    destruct r as [|y r]; [simpl in *; by rewrite IH|].
    rewrite Join_cons in IH by done. rewrite Join_cons by done.
    by rewrite append_cons, IH.
Qed.

Lemma is_digit_not_colon c : is_digit c = true → c ≠ ":"%char.
Proof. intros Hc ->. vm_compute in Hc. done. Qed.

Lemma Split_digits s : digits_only s = true → Split s ":"%char = [s].
Proof.
  induction s as [|c s IH]; simpl; [done|]. intros [Hc Hs]%andb_prop.
  destruct (decide (c = ":"%char)) as [Heq|_];
    [by apply is_digit_not_colon in Hc|].
  by rewrite IH.
Qed.

Lemma Split_digits_colon s rest :
  digits_only s = true →
  Split (s +:+ ":" +:+ rest) ":"%char = s :: Split rest ":"%char.
Proof.
  change (":" +:+ rest) with (String ":"%char rest).
  induction s as [|c s IH]; intros Hd.
  - rewrite append_nil_l. reflexivity.
  - simpl in Hd. apply andb_prop in Hd as [Hc Hs].
    rewrite append_cons. simpl.
    destruct (decide (c = ":"%char)) as [Heq|_];
      [by apply is_digit_not_colon in Hc|].
    by rewrite IH.
Qed.

Lemma recognized_iff str : recognized str ↔ recognizedb str = true.
Proof.
  unfold recognized, recognizedb. split.
  - intros [Hn|[(t & sq & Ht & Hsq & ->)|(l & t & sq & Hl & Ht & Hsq & ->)]].
    + rewrite Split_digits by apply Hn. by apply ParseUint_numeralb.
    + rewrite Split_digits_colon, Split_digits by (apply Ht || apply Hsq).
      rewrite andb_true_iff, !ParseUint_numeralb. done.
    + rewrite Split_digits_colon by apply Hl.
      assert (Split (t +:+ ":" +:+ sq) ":"%char = [t; sq]) as ->.
      { destruct Ht as [->|Ht].
        - rewrite append_nil_l. change (Split (":" +:+ sq) ":"%char)
            with ("" :: Split sq ":"%char). by rewrite Split_digits by apply Hsq.
        - by rewrite Split_digits_colon, Split_digits by (apply Ht || apply Hsq). }
      rewrite !andb_true_iff, orb_true_iff, bool_decide_eq_true,
        !ParseUint_numeralb. done.
  - intros Hb. pose proof (Join_Split str ":"%char) as Hj.
    destruct (Split str ":"%char) as [|a [|b [|c [|d r]]]]; try done.
    + simpl in Hj. subst. left. by apply ParseUint_numeralb.
    + simpl in Hj. apply andb_prop in Hb as [Ha Hb].
      right; left. exists a, b. rewrite <- !ParseUint_numeralb. done.
    + simpl in Hj. apply andb_prop in Hb as [[Ha Hb]%andb_prop Hc].
      right; right. exists a, b, c.
      rewrite <- !ParseUint_numeralb. split_and!; try done.
      apply orb_prop in Hb as [Hb%bool_decide_eq_true|Hb]; auto.
Qed.

End Splitting.

(** ** Sequence identifiers *)

Section SequenceIDs.

Import strconv strings.

Lemma ParseIntSequenceComponent_fmt u allowEmpty :
  uint64 u → ParseIntSequenceComponent (fmt_d u) allowEmpty = (u, None).
Proof.
  intros Hu. unfold ParseIntSequenceComponent, fmt_d.
  rewrite bool_decide_eq_false_2 by (by apply FormatUint_digits).
  rewrite andb_false_r. by rewrite ParseUint_FormatUint.
Qed.

Lemma ParseIntSequenceComponent_ok component allowEmpty v :
  ParseIntSequenceComponent component allowEmpty = (v, None) →
  (allowEmpty = true ∧ component = "") ∨ numeral component.
Proof.
  unfold ParseIntSequenceComponent.
  destruct allowEmpty; simpl.
  - case_bool_decide; [auto|].
    destruct (ParseUint component) as [w [k|]] eqn:E; [done|].
    intros _. right. by apply ParseUint_ok in E as [? _].
  - destruct (ParseUint component) as [w [k|]] eqn:E; [done|].
    intros _. right. by apply ParseUint_ok in E as [? _].
Qed.

Lemma fmt_d_colon_free u : uint64 u → digits_only (fmt_d u) = true.
Proof. intros. by apply FormatUint_digits. Qed.

Lemma fmt_d_not_empty u rest : uint64 u → fmt_d u +:+ rest ≠ "".
Proof.
  intros Hu. destruct (FormatUint_digits u Hu) as (Hne & _).
  unfold fmt_d. by destruct (FormatUint u).
Qed.

(** What the round trip gives for any integer sequence identifier
    whose numbers are [uint64]s: the identifier itself, but for a
    [LowSeq] that the encoder dropped. *)
Lemma parse_format s :
  uint64 (Seq s) → uint64 (TriggeredBy s) → uint64 (LowSeq s) →
  parseIntegerSequenceID (intSeqToString s)
  = (intSeq (if (0 <? LowSeq s) && (LowSeq s <? Seq s) then LowSeq s else 0)
            (TriggeredBy s) (Seq s), None).
Proof.
  intros HS HT HL. unfold intSeqToString, parseIntegerSequenceID.
  destruct ((0 <? LowSeq s) && (LowSeq s <? Seq s)) eqn:El;
    destruct (Z.ltb_spec 0 (TriggeredBy s)) as [Ht|Ht].
  - rewrite decide_False by (by apply fmt_d_not_empty).
    rewrite !Split_digits_colon, Split_digits by (by apply fmt_d_colon_free).
    by rewrite !ParseIntSequenceComponent_fmt.
  - rewrite decide_False by (by apply fmt_d_not_empty).
    change ("::" +:+ fmt_d (Seq s)) with (":" +:+ ":" +:+ fmt_d (Seq s)).
    rewrite Split_digits_colon by (by apply fmt_d_colon_free).
    change (Split (":" +:+ fmt_d (Seq s)) ":"%char)
      with ("" :: Split (fmt_d (Seq s)) ":"%char).
    rewrite Split_digits by (by apply fmt_d_colon_free).
    rewrite !ParseIntSequenceComponent_fmt by done.
    unfold ParseIntSequenceComponent at 1. simpl.
    replace (TriggeredBy s) with 0 by (destruct HT; lia). done.
  - rewrite decide_False by (by apply fmt_d_not_empty).
    rewrite !Split_digits_colon, Split_digits by (by apply fmt_d_colon_free).
    by rewrite !ParseIntSequenceComponent_fmt.
  - pose proof (FormatUint_digits (Seq s) HS) as (Hne & Hd & _).
    rewrite decide_False by done.
    rewrite Split_digits by done.
    change (FormatUint (Seq s)) with (fmt_d (Seq s)).
    rewrite ParseIntSequenceComponent_fmt by done.
    replace (TriggeredBy s) with 0 by (destruct HT; lia). done.
Qed.

Lemma empty_not_recognized : ¬ recognized "".
Proof. rewrite recognized_iff. vm_compute. discriminate. Qed.

(** C10: parsing the empty string succeeds and gives the zero-value
    SequenceID (Seq, TriggeredBy and LowSeq all zero) without an error,
    although the empty string is none of the three wire forms. *)
Theorem parse_empty_string :
  parseIntegerSequenceID "" = (SequenceID_zero, None)
  ∧ Seq SequenceID_zero = 0 ∧ TriggeredBy SequenceID_zero = 0
  ∧ LowSeq SequenceID_zero = 0
  ∧ ¬ recognized "".
Proof.
  split_and!; try reflexivity. apply empty_not_recognized.
Qed.

(** C2: for every well-formed integer SequenceID [s], parsing its string
    gives [s] back, without an error. *)
Theorem parse_String_roundtrip s :
  wellFormed s →
  parseIntegerSequenceID (SequenceID_String s) = (s, None).
Proof.
  intros (Hty & Hc & Htc & Hvb & HS & HT & HL & Hlow).
  unfold SequenceID_String. rewrite Hty, parse_format by done.
  f_equal. destruct s as [ty t l sq c tc vb]. simpl in *. subst.
  unfold intSeq. f_equal.
  destruct (Z.ltb_spec 0 l), (Z.ltb_spec l sq); simpl; destruct HL; lia.
Qed.

(** The condition on [LowSeq] is the one that decides the round trip. *)
Lemma parse_String_roundtrip_exact s :
  SeqType s = IntSequenceType → Clock s = None → TriggeredByClock s = None →
  vbNo s = 0 → uint64 (Seq s) → uint64 (TriggeredBy s) → uint64 (LowSeq s) →
  parseIntegerSequenceID (SequenceID_String s) = (s, None)
  ↔ (LowSeq s = 0 ∨ LowSeq s < Seq s).
Proof.
  intros Hty Hc Htc Hvb HS HT HL.
  unfold SequenceID_String. rewrite Hty, parse_format by done.
  destruct s as [ty t l sq c tc vb]. simpl in *. subst. unfold intSeq.
  split.
  - intros Heq. apply (f_equal (λ r, LowSeq (fst r))) in Heq. simpl in Heq.
    destruct (Z.ltb_spec 0 l), (Z.ltb_spec l sq); simpl in Heq; lia.
  - intros Hlow. do 2 f_equal.
    destruct (Z.ltb_spec 0 l), (Z.ltb_spec l sq); simpl; destruct HL; lia.
Qed.

Lemma parse_String_roundtrip_witness :
  wellFormed (intSeq 12 5678 1234)
  ∧ parseIntegerSequenceID (SequenceID_String (intSeq 12 5678 1234))
    = (intSeq 12 5678 1234, None).
Proof.
  assert (wellFormed (intSeq 12 5678 1234)) as Hwf.
  { unfold wellFormed, uint64, maxUint64. simpl. split_and!; try done. lia. }
  split; [exact Hwf|]. exact (parse_String_roundtrip _ Hwf).
Defined.

End SequenceIDs.

Section SequenceIDForms.

Import strconv strings.

(** C5: the string of an integer SequenceID is ["seq"] when triggeredBy
    and lowSeq are both zero, ["triggeredBy:seq"] when only triggeredBy
    is positive, ["lowSeq::seq"] when only lowSeq is positive,
    ["lowSeq:triggeredBy:seq"] when both are; a lowSeq that is not
    below seq is ignored, the identifier being printed as if its lowSeq
    were zero (so the two forms with a lowSeq are those of a lowSeq
    below seq). *)
Theorem intSeqToString_forms s :
  (TriggeredBy s = 0 → LowSeq s = 0 →
     intSeqToString s = fmt_d (Seq s))
  ∧ (0 < TriggeredBy s → LowSeq s = 0 →
     intSeqToString s = fmt_d (TriggeredBy s) +:+ ":" +:+ fmt_d (Seq s))
  ∧ (TriggeredBy s = 0 → 0 < LowSeq s → LowSeq s < Seq s →
     intSeqToString s = fmt_d (LowSeq s) +:+ "::" +:+ fmt_d (Seq s))
  ∧ (0 < TriggeredBy s → 0 < LowSeq s → LowSeq s < Seq s →
     intSeqToString s
     = fmt_d (LowSeq s) +:+ ":" +:+ fmt_d (TriggeredBy s) +:+ ":" +:+ fmt_d (Seq s))
  ∧ (Seq s ≤ LowSeq s →
     intSeqToString s = intSeqToString (set_LowSeq 0 s)).
Proof.
  unfold intSeqToString. simpl.
  split_and!; intros;
    repeat match goal with
      | |- context [?a <? ?b] => destruct (Z.ltb_spec a b); try lia; simpl
      end; done.
Qed.

Lemma intSeqToString_forms_witness :
  intSeqToString (intSeq 0 0 1234) = "1234"
  ∧ intSeqToString (intSeq 0 5678 1234) = "5678:1234"
  ∧ intSeqToString (intSeq 12 0 1234) = "12::1234"
  ∧ intSeqToString (intSeq 12 5678 1234) = "12:5678:1234"
  ∧ intSeqToString (intSeq 4321 5678 1234) = "5678:1234".
Proof.
  split_and!.
  - exact (proj1 (intSeqToString_forms (intSeq 0 0 1234)) eq_refl eq_refl).
  - exact (proj1 (proj2 (intSeqToString_forms (intSeq 0 5678 1234)))
             eq_refl eq_refl).
  - exact (proj1 (proj2 (proj2 (intSeqToString_forms (intSeq 12 0 1234))))
             eq_refl eq_refl eq_refl).
  - exact (proj1 (proj2 (proj2 (proj2 (intSeqToString_forms (intSeq 12 5678 1234)))))
             eq_refl eq_refl eq_refl).
  - etrans.
    + apply (proj2 (proj2 (proj2 (proj2
               (intSeqToString_forms (intSeq 4321 5678 1234)))))).
      vm_compute. discriminate.
    + reflexivity.
Defined.

(** C6, as the code has it: every input that is not empty and is
    none of the three wire forms makes [parseIntegerSequenceID] return
    an error, and for an input of one piece or of more than three pieces
    between colons that error is the 400 one. *)
Theorem parse_unrecognized_fails str :
  str ≠ "" → ¬ recognized str →
  ∃ e, snd (parseIntegerSequenceID str) = Some e
       ∧ (length (Split str ":"%char) ≠ 2%nat →
          length (Split str ":"%char) ≠ 3%nat →
          e = HTTPError 400 "Invalid sequence" ∧ is_400 e).
Proof.
  intros Hne Hnot. unfold parseIntegerSequenceID.
  rewrite decide_False by done.
  pose proof (Join_Split str ":"%char) as Hj.
  destruct (Split str ":"%char) as [|c0 [|c1 [|c2 [|c3 r]]]] eqn:Es.
  - simpl. eexists; split; [done|]. by intros.
  - simpl in Hj. subst c0.
    destruct (ParseIntSequenceComponent str false) as [v [e|]] eqn:E0.
    + simpl. eexists; split; [done|]. by intros.
    + apply ParseIntSequenceComponent_ok in E0 as [[? _]|Hn]; [done|].
      destruct Hnot. by left.
  - destruct (ParseIntSequenceComponent c0 false) as [v0 [e0|]] eqn:E0;
      [simpl; eexists; split; [done|done]|].
    destruct (ParseIntSequenceComponent c1 false) as [v1 [e1|]] eqn:E1;
      [simpl; eexists; split; [done|done]|].
    apply ParseIntSequenceComponent_ok in E0 as [[? _]|H0]; [done|].
    apply ParseIntSequenceComponent_ok in E1 as [[? _]|H1]; [done|].
    destruct Hnot. right; left. exists c0, c1. simpl in Hj. done.
  - destruct (ParseIntSequenceComponent c0 false) as [v0 [e0|]] eqn:E0;
      [simpl; eexists; split; [done|done]|].
    destruct (ParseIntSequenceComponent c1 true) as [v1 [e1|]] eqn:E1;
      [simpl; eexists; split; [done|done]|].
    destruct (ParseIntSequenceComponent c2 false) as [v2 [e2|]] eqn:E2;
      [simpl; eexists; split; [done|done]|].
    apply ParseIntSequenceComponent_ok in E0 as [[? _]|H0]; [done|].
    apply ParseIntSequenceComponent_ok in E2 as [[? _]|H2]; [done|].
    apply ParseIntSequenceComponent_ok in E1 as H1.
    destruct Hnot. right; right. exists c0, c1, c2. simpl in Hj.
    split_and!; try done. destruct H1 as [[_ ->]|H1]; auto.
  - simpl. eexists; split; [done|]. by intros.
Qed.

Lemma parse_unrecognized_fails_witness :
  ∃ e, snd (parseIntegerSequenceID "12a") = Some e
       ∧ (length (Split "12a" ":"%char) ≠ 2%nat →
          length (Split "12a" ":"%char) ≠ 3%nat →
          e = HTTPError 400 "Invalid sequence" ∧ is_400 e).
Proof.
  apply parse_unrecognized_fails; [discriminate|].
  rewrite recognized_iff. vm_compute. discriminate.
Defined.

(** C6 as stated fails on the empty string, which is none of the wire
    forms and is accepted. *)
Lemma parse_unrecognized_counterexample :
  ¬ (∀ str, ¬ recognized str →
       ∃ e, snd (parseIntegerSequenceID str) = Some e ∧ is_400 e).
Proof.
  intros H. destruct (H "") as (e & He & _).
  - apply empty_not_recognized.
  - vm_compute in He. discriminate.
Qed.

(** An input of two pieces with a malformed one is answered with the
    error of [strconv], not with the 400 one the last lines of the
    function set. *)
Lemma parse_two_pieces_error_kind :
  snd (parseIntegerSequenceID "a:1") = Some (NumError ErrSyntax)
  ∧ ¬ recognized "a:1"
  ∧ ¬ is_400 (NumError ErrSyntax).
Proof.
  split_and!; [by vm_compute| |by intros []].
  rewrite recognized_iff. vm_compute. discriminate.
Qed.

(** C1, as the code has it: for [x = {seq: xs}] and
    [y = {triggeredBy: yt, seq: ys}] with [yt] positive, [y.Before(x)]
    holds exactly when [yt <= xs] and [x.Before(y)] holds exactly when
    [xs < yt]; for [xs = 10], [yt = 8] this makes [y.Before(x)] true
    and [x.Before(y)] false. *)
Theorem Before_untriggered_triggered xs yt ys :
  0 < yt →
  (Before (intSeq 0 yt ys) (intSeq 0 0 xs) = true ↔ yt ≤ xs)
  ∧ (Before (intSeq 0 0 xs) (intSeq 0 yt ys) = true ↔ xs < yt).
Proof.
  intros Hyt. unfold Before, SafeSequence, intSeq.
  cbn [TriggeredBy LowSeq Seq]. rewrite Z.ltb_irrefl.
  rewrite (proj2 (Z.eqb_neq yt 0)), (proj2 (Z.eqb_neq 0 yt)) by lia.
  rewrite Z.eqb_refl, Z.leb_le, Z.ltb_lt. done.
Qed.

Lemma Before_untriggered_triggered_witness :
  Before (intSeq 0 8 20) (intSeq 0 0 10) = true
  ∧ Before (intSeq 0 0 10) (intSeq 0 8 20) = false.
Proof.
  destruct (Before_untriggered_triggered 10 8 20 ltac:(lia)) as [Hyx Hxy].
  split.
  - apply Hyx. lia.
  - apply not_true_is_false. intros E. apply Hxy in E. lia.
Defined.

(** C1 as stated asks for [y.Before(x) == false]; the comparator
    gives [true]. *)
Lemma Before_untriggered_triggered_counterexample :
  ¬ (Before (intSeq 0 8 20) (intSeq 0 0 10) = false
     ∧ (Before (intSeq 0 0 10) (intSeq 0 8 20) = true ↔ 10 < 8)).
Proof. intros [H _]. vm_compute in H. discriminate. Qed.

End SequenceIDForms.

(** ** The skipped-sequence list *)

Section SkippedSequences.

Import SkippedList.

Lemma list_Remove_sublist e l : sublist (list_Remove e l) l.
Proof.
  induction l as [|x r IH]; simpl; [done|].
  destruct (decide (x = e)); [by apply sublist_cons|by apply sublist_skip].
Qed.

Lemma StronglySorted_sublist {A} (R : relation A) (l k : list A) :
  sublist l k → StronglySorted R k → StronglySorted R l.
Proof.
  intros Hsub Hk. revert l Hsub.
  induction Hk as [|x k Hk IH Hall]; intros l Hsub.
  - apply sublist_nil_r in Hsub as ->. constructor.
  - apply sublist_cons_r in Hsub as [Hsub|(l' & -> & Hsub)]; [by apply IH|].
    constructor; [by apply IH|].
    rewrite Forall_forall in Hall |- *. intros y Hy. apply Hall.
    by eapply elem_of_sublist.
Qed.

Lemma Remove_sorted R l x :
  StronglySorted R (skippedList l) →
  StronglySorted R (skippedList (fst (Remove l x))).
Proof.
  intros Hs. unfold Remove. destruct (skippedMap l !! x); simpl; [|done].
  eapply StronglySorted_sublist; [apply list_Remove_sublist|done].
Qed.

Lemma Remove_elem_of l x e :
  e ∈ skippedList (fst (Remove l x)) → e ∈ skippedList l.
Proof.
  unfold Remove. destruct (skippedMap l !! x); simpl; [|done].
  intros He. eapply elem_of_sublist; [done|apply list_Remove_sublist].
Qed.

(** What [Push] does, by the comparison with the tail. *)
Lemma Push_accepts l x :
  match last (skippedList l) with
  | None => True
  | Some lastSkipped => seq lastSkipped < seq x
  end →
  Push l x = ({| skippedList := skippedList l ++ [x];
                 skippedMap := <[seq x := x]> (skippedMap l) |}, None).
Proof.
  unfold Push. destruct (last (skippedList l)); [|done].
  intros Hlt. by rewrite (proj2 (Z.ltb_lt _ _) Hlt).
Qed.

Lemma Push_rejects l x lastSkipped :
  last (skippedList l) = Some lastSkipped → seq x ≤ seq lastSkipped →
  Push l x = (l, Some ErrPushLower).
Proof.
  unfold Push. intros -> Hle. by rewrite (proj2 (Z.ltb_ge _ _) Hle).
Qed.

Lemma Push_cases l x :
  (Push l x = ({| skippedList := skippedList l ++ [x];
                  skippedMap := <[seq x := x]> (skippedMap l) |}, None)
   ∧ match last (skippedList l) with
     | None => True
     | Some lastSkipped => seq lastSkipped < seq x
     end)
  ∨ (Push l x = (l, Some ErrPushLower)
     ∧ ∃ lastSkipped, last (skippedList l) = Some lastSkipped
                      ∧ seq x ≤ seq lastSkipped).
Proof.
  destruct (last (skippedList l)) as [t|] eqn:El.
  - destruct (Z.lt_ge_cases (seq t) (seq x)) as [Hlt|Hge].
    + left. split; [|done]. apply Push_accepts. by rewrite El.
    + right. split; [by eapply Push_rejects|eauto].
  - left. split; [|done]. apply Push_accepts. by rewrite El.
Qed.

Lemma StronglySorted_last_bound (l : list SkippedSequence) t e :
  StronglySorted by_sequence l → last l = Some t → e ∈ l → seq e ≤ seq t.
Proof.
  intros Hs Hl He. apply last_Some in Hl as [l' ->].
  apply StronglySorted_app in Hs as (Hlt & _ & _).
  apply elem_of_app in He as [He|He].
  - apply Z.lt_le_incl, (Hlt e t He). set_solver.
  - apply list_elem_of_singleton in He as ->. done.
Qed.

Lemma Push_sorted l x :
  StronglySorted by_sequence (skippedList l) →
  StronglySorted by_sequence (skippedList (fst (Push l x))).
Proof.
  intros Hs. destruct (Push_cases l x) as [[-> Hlast]|[-> _]]; simpl; [|done].
  apply StronglySorted_app_2; [|done|repeat constructor].
  intros a b Ha ->%list_elem_of_singleton. unfold by_sequence.
  destruct (last (skippedList l)) as [t|] eqn:El.
  - pose proof (StronglySorted_last_bound _ _ _ Hs El Ha). lia.
  - apply last_None in El. rewrite El in Ha. by apply elem_of_nil in Ha.
Qed.

Lemma run_sorted ops : ∀ l,
  StronglySorted by_sequence (skippedList l) →
  StronglySorted by_sequence (skippedList (run l ops)).
Proof.
  induction ops as [|o ops IH]; intros l Hs; [done|].
  apply IH. destruct o; simpl; [by apply Push_sorted|by apply Remove_sorted].
Qed.

Lemma run_time_sorted ops : ∀ l t,
  StronglySorted by_time (skippedList l) →
  (∀ e, e ∈ skippedList l → timeAdded e ≤ t) →
  pushed_in_time_order t ops →
  StronglySorted by_time (skippedList (run l ops)).
Proof.
  induction ops as [|o ops IH]; intros l t Hs Hb Ho; [done|].
  destruct o as [x|x]; simpl in Ho.
  - destruct Ho as [Htx Ho]. apply (IH _ (timeAdded x)); [| |done].
    + simpl. destruct (Push_cases l x) as [[-> _]|[-> _]]; simpl; [|done].
      apply StronglySorted_app_2; [|done|repeat constructor].
      intros a b Ha ->%list_elem_of_singleton. unfold by_time.
      specialize (Hb a Ha). lia.
    + simpl. destruct (Push_cases l x) as [[-> _]|[-> _]]; simpl.
      * intros e [He| ->%list_elem_of_singleton]%elem_of_app; [|done].
        specialize (Hb e He). lia.
      * intros e He. specialize (Hb e He). lia.
  - apply (IH _ t); [by apply Remove_sorted| |done].
    intros e He. apply Hb. by eapply Remove_elem_of.
Qed.

(** C8, as the code has it: every sequence of [Push] and [Remove]
    keeps the list strictly increasing in [seq]; [Push] appends exactly
    when the list is empty or the new [seq] is above that of the tail,
    and otherwise returns an error and leaves the list as it was.
    [Push] does not look at [timeAdded]: the list is in non-decreasing
    order of [timeAdded] when the entries are pushed with clock readings
    that do not go back. *)
Theorem Push_Remove_keep_sequence_order :
  (∀ l ops,
     StronglySorted by_sequence (skippedList l) →
     StronglySorted by_sequence (skippedList (run l ops)))
  ∧ (∀ l x,
       match last (skippedList l) with
       | None => True
       | Some lastSkipped => seq lastSkipped < seq x
       end →
       Push l x = ({| skippedList := skippedList l ++ [x];
                      skippedMap := <[seq x := x]> (skippedMap l) |}, None))
  ∧ (∀ l x lastSkipped,
       last (skippedList l) = Some lastSkipped → seq x ≤ seq lastSkipped →
       Push l x = (l, Some ErrPushLower))
  ∧ (∀ l ops t,
       StronglySorted by_time (skippedList l) →
       (∀ e, e ∈ skippedList l → timeAdded e ≤ t) →
       pushed_in_time_order t ops →
       StronglySorted by_time (skippedList (run l ops))).
Proof.
  split_and!.
  - intros l ops. apply run_sorted.
  - apply Push_accepts.
  - apply Push_rejects.
  - intros l ops. apply run_time_sorted.
Qed.

Lemma Push_Remove_keep_sequence_order_witness :
  let ops := [OpPush {| seq := 3; timeAdded := 5 |};
              OpPush {| seq := 4; timeAdded := 5 |};
              OpPush {| seq := 2; timeAdded := 6 |};
              OpRemove 3;
              OpPush {| seq := 9; timeAdded := 7 |}] in
  StronglySorted by_sequence (skippedList (run NewSkippedSequenceList ops))
  ∧ StronglySorted by_time (skippedList (run NewSkippedSequenceList ops))
  ∧ skippedList (run NewSkippedSequenceList ops)
    = [{| seq := 4; timeAdded := 5 |}; {| seq := 9; timeAdded := 7 |}]
  ∧ Push (run NewSkippedSequenceList ops) {| seq := 9; timeAdded := 8 |}
    = (run NewSkippedSequenceList ops, Some ErrPushLower).
Proof.
  intros ops.
  destruct Push_Remove_keep_sequence_order as (Hseq & Hacc & Hrej & Htime).
  split_and!.
  - apply Hseq. constructor.
  - apply (Htime _ _ 0); [constructor|by intros e ?%elem_of_nil|].
    simpl. lia.
  - reflexivity.
  - apply (Hrej _ _ {| seq := 9; timeAdded := 7 |}); [reflexivity|simpl; lia].
Defined.

(** C8 as stated fails for [timeAdded]: two entries pushed with the
    same clock reading are both taken. *)
Lemma Push_Remove_time_counterexample :
  ¬ (∀ ops,
       StronglySorted by_sequence (skippedList (run NewSkippedSequenceList ops))
       ∧ StronglySorted by_time_strictly
           (skippedList (run NewSkippedSequenceList ops))).
Proof.
  intros H.
  destruct (H [OpPush {| seq := 1; timeAdded := 5 |};
               OpPush {| seq := 2; timeAdded := 5 |}]) as [_ Ht].
  change (StronglySorted by_time_strictly
            [{| seq := 1; timeAdded := 5 |}; {| seq := 2; timeAdded := 5 |}]) in Ht.
  apply StronglySorted_cons in Ht as [Hall _].
  apply Forall_cons in Hall as [Hlt _].
  unfold by_time_strictly in Hlt. simpl in Hlt. lia.
Qed.

End SkippedSequences.

(** ** The change cache: what each step leaves alone *)

Section Frames.

Variable star : bool.

Lemma same_buffering_refl c : same_buffering c c.
Proof. by repeat split. Qed.

Lemma same_buffering_trans c1 c2 c3 :
  same_buffering c1 c2 → same_buffering c2 c3 → same_buffering c1 c3.
Proof.
  unfold same_buffering. intros (?&?&?&?&?&?&?&?) (?&?&?&?&?&?&?&?).
  split_and!; congruence.
Qed.

Lemma onChannelCache_same c name call :
  same_buffering c (onChannelCache c name call).
Proof.
  unfold onChannelCache, _getChannelCache.
  destruct (channelCaches c !! name); by repeat split.
Qed.

Lemma addToChannel_same change isRemoval acc name :
  same_buffering (fst acc) (fst (addToChannel change isRemoval acc name)).
Proof.
  destruct acc as [c addedTo]. unfold addToChannel. simpl.
  destruct (Skipped change); simpl.
  - eapply same_buffering_trans; apply onChannelCache_same.
  - apply onChannelCache_same.
Qed.

Lemma addToChannels_same change (l : list (string * option ChannelRemoval)) :
  ∀ acc,
  same_buffering (fst acc)
    (fst (foldl (λ acc '(name, removal),
                   match removal with
                   | None => addToChannel change false acc name
                   | Some r =>
                       if Removal_Seq r =? Sequence change
                       then addToChannel change true acc name else acc
                   end) acc l)).
Proof.
  induction l as [|[name removal] l IH]; intros acc; simpl.
  - apply same_buffering_refl.
  - eapply same_buffering_trans; [|apply IH].
    destruct removal as [r|]; [|apply addToChannel_same].
    destruct (Removal_Seq r =? Sequence change);
      [apply addToChannel_same|apply same_buffering_refl].
Qed.

(** [_addToCache] moves [nextSequence] and touches channel caches. *)
Lemma addToCache_same c change :
  same_buffering
    (if nextSequence c <=? Sequence change
     then set_nextSequence (wrap64 (Sequence change + 1)) c else c)
    (fst (_addToCache star c change)).
Proof.
  unfold _addToCache.
  set (c1 := if nextSequence c <=? Sequence change
             then set_nextSequence (wrap64 (Sequence change + 1)) c else c).
  destruct (decide (DocID change = "")); [apply same_buffering_refl|].
  destruct star.
  - eapply same_buffering_trans; [|apply addToChannel_same].
    apply (addToChannels_same _ _ (c1, ∅)).
  - apply (addToChannels_same _ _ (c1, ∅)).
Qed.

Lemma addToCache_placeholder c change :
  DocID change = "" →
  _addToCache star c change
  = (if nextSequence c <=? Sequence change
     then set_nextSequence (wrap64 (Sequence change + 1)) c else c, ∅).
Proof. intros Hd. unfold _addToCache. by rewrite decide_True. Qed.

Lemma addToCache_nextSequence c change :
  nextSequence (fst (_addToCache star c change))
  = if nextSequence c <=? Sequence change
    then wrap64 (Sequence change + 1) else nextSequence c.
Proof.
  destruct (addToCache_same c change) as (_ & -> & _).
  by destruct (nextSequence c <=? Sequence change).
Qed.

Lemma addToCache_fields c change :
  let c' := fst (_addToCache star c change) in
  logsDisabled c' = logsDisabled c
  ∧ initialSequence c' = initialSequence c
  ∧ receivedSeqs c' = receivedSeqs c
  ∧ pendingLogs c' = pendingLogs c
  ∧ stopped c' = stopped c
  ∧ skippedSeqs c' = skippedSeqs c
  ∧ options c' = options c.
Proof.
  cbv zeta.
  destruct (addToCache_same c change) as (-> & _ & -> & -> & -> & -> & -> & ->).
  by destruct (nextSequence c <=? Sequence change).
Qed.

(** The loop of [_addPendingLogs] leaves these fields alone, however
    long it runs. *)
Lemma addPendingLogs_loop_fields fuel now : ∀ c,
  let c' := fst (addPendingLogs_loop star fuel c now) in
  logsDisabled c' = logsDisabled c
  ∧ initialSequence c' = initialSequence c
  ∧ receivedSeqs c' = receivedSeqs c
  ∧ stopped c' = stopped c
  ∧ options c' = options c.
Proof.
  induction fuel as [|fuel IH]; intros c; simpl; [done|].
  destruct (pendingLogs c) as [|change rest] eqn:Ep; [done|].
  destruct (Sequence change =? nextSequence c).
  - destruct (_addToCache star (set_pendingLogs (heap.Pop (change :: rest)) c) change)
      as [c1 changed] eqn:E1.
    pose proof (addToCache_fields (set_pendingLogs (heap.Pop (change :: rest)) c) change)
      as Hf. rewrite E1 in Hf. simpl in Hf.
    destruct Hf as (<- & <- & <- & _ & <- & _ & <-).
    specialize (IH c1). destruct (addPendingLogs_loop star fuel c1 now). apply IH.
  - destruct (_ || _); [|done].
    match goal with |- context [addPendingLogs_loop star fuel ?c2 now] =>
      apply (IH c2) end.
Qed.

End Frames.

(** ** Duplicates *)

Section Duplicates.

Variable star : bool.

Lemma addPendingLogs_fields c now :
  let c' := fst (_addPendingLogs star c now) in
  logsDisabled c' = logsDisabled c
  ∧ initialSequence c' = initialSequence c
  ∧ receivedSeqs c' = receivedSeqs c
  ∧ stopped c' = stopped c
  ∧ options c' = options c.
Proof. apply addPendingLogs_loop_fields. Qed.

(** What [processEntry] does to the fields outside the buffering. *)
Lemma processEntry_fields c now change :
  let c' := fst (processEntry star c now change) in
  logsDisabled c' = logsDisabled c
  ∧ initialSequence c' = initialSequence c
  ∧ stopped c' = stopped c
  ∧ options c' = options c
  ∧ receivedSeqs c'
    = (if logsDisabled c then receivedSeqs c
       else {[Sequence change]} ∪ receivedSeqs c).
Proof.
  cbv zeta. unfold processEntry.
  destruct (logsDisabled c) eqn:Hdis; [done|].
  destruct (decide (Sequence change ∈ receivedSeqs c)) as [Hin|Hin].
  { simpl. split_and!; try done. set_solver. }
  set (c0 := set_receivedSeqs ({[Sequence change]} ∪ receivedSeqs c) c).
  destruct ((Sequence change =? nextSequence c0) || (nextSequence c0 =? 0)).
  - destruct (_addToCache star c0 change) as [c1 ch1] eqn:E1.
    pose proof (addToCache_fields star c0 change) as Hf.
    rewrite E1 in Hf. simpl in Hf. destruct Hf as (H1 & H2 & H3 & _ & H5 & _ & H7).
    destruct (_addPendingLogs star c1 now) as [c2 ch2] eqn:E2.
    pose proof (addPendingLogs_fields c1 now) as Hg.
    rewrite E2 in Hg. simpl in Hg. destruct Hg as (G1 & G2 & G3 & G4 & G5).
    simpl. rewrite G1, G2, G3, G4, G5, H1, H2, H3, H5, H7. done.
  - destruct (nextSequence c0 <? Sequence change).
    + set (c1 := set_pendingLogs (heap.Push (pendingLogs c0) change) c0).
      destruct (CachePendingSeqMaxNum (options c1) <? Z.of_nat (length (pendingLogs c1)));
        [|done].
      destruct (addPendingLogs_fields c1 now) as (G1 & G2 & G3 & G4 & G5).
      rewrite G1, G2, G3, G4, G5. done.
    + destruct (initialSequence c0 <? Sequence change); [|done].
      set (change' := if WasSkipped c0 (Sequence change)
                      then set_Skipped true change else change).
      destruct (_addToCache star c0 change') as [c1 ch1] eqn:E1.
      pose proof (addToCache_fields star c0 change') as Hf.
      rewrite E1 in Hf. simpl in Hf. destruct Hf as (H1 & H2 & H3 & _ & H5 & _ & H7).
      simpl. rewrite H1, H2, H3, H5, H7. done.
Qed.


End Duplicates.


(** ** The pending queue *)

Section PendingQueue.

Lemma heap_Push_elem_of h x e : e ∈ heap.Push h x ↔ e = x ∨ e ∈ h.
Proof.
  induction h as [|y r IH]; simpl; [set_solver|].
  destruct (Sequence x <? Sequence y); [set_solver|].
  rewrite !elem_of_cons, IH. tauto.
Qed.

Lemma heap_Push_length h x : length (heap.Push h x) = S (length h).
Proof.
  induction h as [|y r IH]; simpl; [done|].
  destruct (Sequence x <? Sequence y); simpl; by rewrite ?IH.
Qed.

Lemma heap_Push_sorted h x :
  StronglySorted by_Sequence h →
  (∀ e, e ∈ h → Sequence e ≠ Sequence x) →
  StronglySorted by_Sequence (heap.Push h x).
Proof.
  induction h as [|y r IH]; intros Hs Hne; simpl; [repeat constructor|].
  apply StronglySorted_cons in Hs as [Hall Hr].
  destruct (Z.ltb_spec (Sequence x) (Sequence y)) as [Hlt|Hge].
  - apply StronglySorted_cons. split; [|by apply StronglySorted_cons].
    constructor; [done|]. rewrite Forall_forall in Hall |- *.
    intros e He. specialize (Hall e He). unfold by_Sequence in *. lia.
  - apply StronglySorted_cons. split.
    + rewrite Forall_forall in Hall |- *. intros e [->|He]%heap_Push_elem_of.
      * unfold by_Sequence. specialize (Hne y ltac:(set_solver)). lia.
      * by apply Hall.
    + apply IH; [done|]. intros e He. apply Hne. set_solver.
Qed.

(** The head of a sorted queue is its least entry. *)
Lemma sorted_head_least (change : LogEntry) rest e :
  StronglySorted by_Sequence (change :: rest) → e ∈ change :: rest →
  Sequence change ≤ Sequence e.
Proof.
  intros [Hall _]%StronglySorted_cons [->|He]%elem_of_cons; [done|].
  rewrite Forall_forall in Hall. specialize (Hall e He).
  unfold by_Sequence in Hall. lia.
Qed.

End PendingQueue.

(** ** The loop of [_addPendingLogs] comes to its end *)

Section Draining.

Variable star : bool.
Variable now : Z.

Lemma addPendingLogs_loop_empty fuel c :
  pendingLogs c = [] → addPendingLogs_loop star fuel c now = (c, ∅).
Proof. intros Hp. destruct fuel; simpl; by rewrite ?Hp. Qed.

Lemma wrap64_uint64 x : uint64 (wrap64 x).
Proof. unfold uint64, wrap64, maxUint64. lia. Qed.

(** With the passes counted by [addPendingLogs_passes] the loop has
    stopped by itself, and more passes change nothing. *)
Lemma addPendingLogs_loop_enough n : ∀ c,
  uint64 (nextSequence c) →
  (∀ e, e ∈ pendingLogs c → uint64 (Sequence e)) →
  (addPendingLogs_passes (nextSequence c) (pendingLogs c) ≤ n)%nat →
  ∀ fuel, (n ≤ fuel)%nat →
  addPendingLogs_loop star fuel c now = addPendingLogs_loop star n c now
  ∧ settled (fst (addPendingLogs_loop star n c now)) now.
Proof.
  induction n as [|n IH]; intros c Hnext Hq Hn fuel Hfuel.
  - assert (pendingLogs c = []) as Hp.
    { destruct (pendingLogs c); [done|]. simpl in Hn. lia. }
    rewrite !addPendingLogs_loop_empty by done. simpl.
    unfold settled. by rewrite Hp.
  - destruct fuel as [|fuel]; [lia|]. simpl.
    destruct (pendingLogs c) as [|change rest] eqn:Ep.
    { simpl. unfold settled. by rewrite Ep. }
    simpl in Hn.
    assert (uint64 (Sequence change)) as Hc by (apply Hq; set_solver).
    destruct (Z.eqb_spec (Sequence change) (nextSequence c)) as [Heq|Hne].
    + set (c0 := set_pendingLogs (heap.Pop (change :: rest)) c).
      pose proof (addToCache_nextSequence star c0 change) as Hn1.
      pose proof (addToCache_fields star c0 change) as (_ & _ & _ & Hp1 & _).
      destruct (_addToCache star c0 change) as [c1 changed]. simpl in Hn1, Hp1.
      rewrite (proj2 (Z.leb_le _ _)) in Hn1 by lia.
      destruct (IH c1) with (fuel := fuel) as [Hsame Hset].
      * rewrite Hn1. apply wrap64_uint64.
      * rewrite Hp1. intros e He. apply Hq. set_solver.
      * rewrite Hn1, Hp1. simpl. lia.
      * lia.
      * rewrite Hsame.
        destruct (addPendingLogs_loop star n c1 now) as [c2 more]. done.
    + destruct ((CachePendingSeqMaxNum (options c) <? Z.of_nat (length (change :: rest)))
                || (CachePendingSeqMaxWait (options c) <=? now - TimeReceived change))
        eqn:Eforce.
      * apply IH; [apply wrap64_uint64|simpl; by rewrite Ep| |lia].
        simpl. rewrite Ep. simpl.
        assert (Z.to_nat (wrap64 (Sequence change - wrap64 (nextSequence c + 1)))
                < Z.to_nat (wrap64 (Sequence change - nextSequence c)))%nat; [|lia].
        unfold uint64, maxUint64, wrap64 in *. lia.
      * simpl. unfold settled. rewrite Ep.
        apply orb_false_elim in Eforce as [H1 H2].
        apply Z.ltb_ge in H1. apply Z.leb_gt in H2. done.
Qed.

Lemma addPendingLogs_settled c :
  uint64 (nextSequence c) →
  (∀ e, e ∈ pendingLogs c → uint64 (Sequence e)) →
  settled (fst (_addPendingLogs star c now)) now.
Proof.
  intros Hn Hq. unfold _addPendingLogs.
  by apply (addPendingLogs_loop_enough _ c Hn Hq (le_n _) _ (le_n _)).
Qed.

(** The loop keeps the buffering in order and never moves
    [nextSequence] back. *)
Lemma addPendingLogs_loop_draining fuel : ∀ c,
  draining c →
  nextSequence c ≤ nextSequence (fst (addPendingLogs_loop star fuel c now))
  ∧ draining (fst (addPendingLogs_loop star fuel c now)).
Proof.
  induction fuel as [|fuel IH]; intros c Hd; simpl; [done|].
  destruct (pendingLogs c) as [|change rest] eqn:Ep; [done|].
  destruct Hd as (Hnext & Hsort & Hbound & Hrec & Hpos).
  rewrite Ep in Hsort, Hbound, Hrec, Hpos.
  pose proof (Hbound change ltac:(set_solver)) as Hhead.
  apply StronglySorted_cons in Hsort as Hsort'. destruct Hsort' as [Hall Hrest].
  rewrite Forall_forall in Hall. unfold by_Sequence in Hall.
  destruct (Z.eqb_spec (Sequence change) (nextSequence c)) as [Heq|Hne].
  - set (c0 := set_pendingLogs (heap.Pop (change :: rest)) c).
    pose proof (addToCache_nextSequence star c0 change) as Hn1.
    pose proof (addToCache_fields star c0 change) as (_ & _ & Hr1 & Hp1 & _).
    destruct (_addToCache star c0 change) as [c1 changed]. simpl in Hn1, Hp1, Hr1.
    rewrite (proj2 (Z.leb_le _ _)) in Hn1 by lia.
    rewrite wrap64_small in Hn1 by (unfold uint64, maxUint64 in *; lia).
    destruct (IH c1) as [Hle Hd1].
    { unfold draining. rewrite Hn1, Hp1, Hr1.
      split_and!; [unfold uint64, maxUint64 in *; lia|done| |
        |intros _; unfold uint64 in *; lia].
      - intros e He. specialize (Hall e He).
        specialize (Hbound e ltac:(set_solver)). lia.
      - intros e He. apply Hrec. set_solver. }
    destruct (addPendingLogs_loop star fuel c1 now) as [c2 more]. simpl in *.
    split; [lia|done].
  - destruct (_ || _); [|simpl; split; [lia|]; unfold draining; by rewrite Ep].
    rewrite (wrap64_small (nextSequence c + 1))
      by (unfold uint64, maxUint64 in *; lia).
    match goal with |- context [addPendingLogs_loop star fuel ?c2 now] =>
      destruct (IH c2) as [Hle Hd2] end.
    { unfold draining. simpl. rewrite Ep.
      split_and!; [unfold uint64, maxUint64 in *; lia|done| |done
        |intros _; unfold uint64 in *; lia].
      intros e [->|He]%elem_of_cons; [lia|].
      specialize (Hall e He). specialize (Hbound e ltac:(set_solver)). lia. }
    simpl in Hle. split; [lia|done].
Qed.

Lemma draining_settled_buffering c :
  draining c → settled c now → buffering c.
Proof.
  intros Hd Hs. split; [done|]. intros e He.
  destruct Hd as (_ & Hsort & Hbound & _). unfold settled in Hs.
  destruct (pendingLogs c) as [|change rest]; [by apply elem_of_nil in He|].
  destruct Hs as (Hne & _).
  pose proof (sorted_head_least _ _ _ Hsort He).
  specialize (Hbound change ltac:(set_solver)). lia.
Qed.

Lemma buffering_draining c : buffering c → draining c.
Proof. by intros [? _]. Qed.

Lemma draining_uint64 c :
  draining c →
  uint64 (nextSequence c) ∧ ∀ e, e ∈ pendingLogs c → uint64 (Sequence e).
Proof.
  intros (Hn & _ & Hb & _). split; [done|]. intros e He.
  specialize (Hb e He). unfold uint64, maxUint64 in *. lia.
Qed.

(** [_addPendingLogs] on a state of the buffering. *)
Lemma addPendingLogs_buffering c :
  draining c →
  nextSequence c ≤ nextSequence (fst (_addPendingLogs star c now))
  ∧ buffering (fst (_addPendingLogs star c now)).
Proof.
  intros Hd. destruct (draining_uint64 c Hd) as [Hn Hq].
  pose proof (addPendingLogs_settled c Hn Hq) as Hset.
  unfold _addPendingLogs in *.
  destruct (addPendingLogs_loop_draining
              (addPendingLogs_passes (nextSequence c) (pendingLogs c)) c Hd)
    as [Hle Hd'].
  split; [done|]. by apply draining_settled_buffering.
Qed.

End Draining.

(** ** [nextSequence] along the operations *)

Section NextSequence.

Variable star : bool.

Lemma draining_ext c c' :
  nextSequence c' = nextSequence c → pendingLogs c' = pendingLogs c →
  receivedSeqs c ⊆ receivedSeqs c' →
  draining c → draining c'.
Proof.
  intros Hn Hp Hr (H1 & H2 & H3 & H4 & H5). unfold draining.
  rewrite Hn, Hp. split_and!; try done. intros e He. apply Hr, H4, He.
Qed.

Lemma buffering_ext c c' :
  nextSequence c' = nextSequence c → pendingLogs c' = pendingLogs c →
  receivedSeqs c ⊆ receivedSeqs c' →
  buffering c → buffering c'.
Proof.
  intros Hn Hp Hr [Hd Hs]. split; [by eapply draining_ext|].
  by rewrite Hn, Hp.
Qed.

Lemma addToCache_monotone c change :
  uint64 (nextSequence c) → 0 ≤ Sequence change < maxUint64 →
  nextSequence c ≤ nextSequence (fst (_addToCache star c change)).
Proof.
  intros Hn Hs. rewrite addToCache_nextSequence.
  destruct (Z.leb_spec (nextSequence c) (Sequence change)); [|lia].
  rewrite wrap64_small by lia. lia.
Qed.

Lemma processEntry_buffering c now change :
  buffering c → 0 ≤ Sequence change < maxUint64 →
  nextSequence c ≤ nextSequence (fst (processEntry star c now change))
  ∧ buffering (fst (processEntry star c now change)).
Proof.
  intros Hb Hseq. unfold processEntry.
  destruct (logsDisabled c); [done|].
  destruct (decide (Sequence change ∈ receivedSeqs c)) as [Hin|Hin]; [done|].
  set (c0 := set_receivedSeqs ({[Sequence change]} ∪ receivedSeqs c) c).
  assert (buffering c0) as Hb0.
  { eapply buffering_ext; [..|exact Hb]; try done. simpl. set_solver. }
  destruct Hb as [(Hnext & Hsort & Hbound & Hrec & Hpos) Hstrict].
  change (nextSequence c0) with (nextSequence c).
  change (initialSequence c0) with (initialSequence c).
  destruct ((Sequence change =? nextSequence c) || (nextSequence c =? 0)) eqn:Enext.
  - pose proof (addToCache_nextSequence star c0 change) as Hn1.
    pose proof (addToCache_fields star c0 change) as (_ & _ & Hr1 & Hp1 & _).
    destruct (_addToCache star c0 change) as [c1 ch1]. simpl in Hn1, Hr1, Hp1.
    assert (nextSequence c ≤ Sequence change) as Hle.
    { apply orb_prop in Enext as [?%Z.eqb_eq|?%Z.eqb_eq]; lia. }
    rewrite (proj2 (Z.leb_le _ _) Hle), wrap64_small in Hn1 by lia.
    destruct (addPendingLogs_buffering star now c1) as [Hle2 Hb2].
    { unfold draining. rewrite Hn1, Hp1, Hr1.
      split_and!; [unfold uint64; lia|done| | |lia].
      - intros e He. specialize (Hstrict e He). specialize (Hbound e He).
        apply orb_prop in Enext as [?%Z.eqb_eq|?%Z.eqb_eq]; [lia|].
        destruct (pendingLogs c); [by apply elem_of_nil in He|].
        specialize (Hpos ltac:(done)). lia.
      - intros e He. specialize (Hrec e He). set_solver. }
    destruct (_addPendingLogs star c1 now) as [c2 ch2]. simpl in *.
    split; [lia|done].
  - apply orb_false_elim in Enext as [Hne%Z.eqb_neq Hnz%Z.eqb_neq].
    destruct (Z.ltb_spec (nextSequence c) (Sequence change)) as [Hlt|Hge].
    + set (c1 := set_pendingLogs (heap.Push (pendingLogs c0) change) c0).
      assert (buffering c1) as Hb1.
      { split; [unfold draining|]; simpl.
        - split_and!; [done| | | |unfold uint64 in Hnext; lia].
          + apply heap_Push_sorted; [done|].
            intros e He Heq. apply Hin. rewrite <- Heq. by apply Hrec.
          + intros e [->|He]%heap_Push_elem_of; [lia|].
            specialize (Hbound e He). lia.
          + intros e [->|He]%heap_Push_elem_of; [set_solver|].
            specialize (Hrec e He). set_solver.
        - intros e [->|He]%heap_Push_elem_of; [lia|]. by apply Hstrict. }
      destruct (CachePendingSeqMaxNum (options c1) <? Z.of_nat (length (pendingLogs c1))).
      * apply (addPendingLogs_buffering star now c1), Hb1.
      * simpl. split; [lia|done].
    + destruct (initialSequence c <? Sequence change); [|simpl; split; [lia|done]].
      set (change' := if WasSkipped c0 (Sequence change)
                      then set_Skipped true change else change).
      assert (Sequence change' = Sequence change) as Hs'
        by (unfold change'; by destruct (WasSkipped c0 (Sequence change))).
      pose proof (addToCache_nextSequence star c0 change') as Hn1.
      pose proof (addToCache_fields star c0 change') as (_ & _ & Hr1 & Hp1 & _).
      destruct (_addToCache star c0 change') as [c1 ch1]. simpl in Hn1, Hr1, Hp1.
      rewrite Hs', (proj2 (Z.leb_gt _ _)) in Hn1 by lia.
      simpl. rewrite Hn1. split; [lia|].
      eapply buffering_ext; [..|exact Hb0]; simpl; by rewrite ?Hn1, ?Hp1, ?Hr1.
Qed.

Lemma CleanUp_buffering c now :
  buffering c →
  nextSequence c ≤ nextSequence (fst (fst (CleanUp star c now)))
  ∧ buffering (fst (fst (CleanUp star c now))).
Proof.
  intros Hb. unfold CleanUp.
  destruct (addPendingLogs_buffering star now c (buffering_draining c Hb))
    as [Hle Hb'].
  destruct (_addPendingLogs star c now) as [c1 ch]. simpl in *.
  split; [done|]. by eapply buffering_ext; [..|exact Hb'].
Qed.

Lemma Clear_buffering c lastSequence :
  buffering c →
  nextSequence (fst (Clear c lastSequence)) = nextSequence c
  ∧ buffering (fst (Clear c lastSequence)).
Proof.
  intros Hb. unfold Clear. destruct (snd lastSequence); simpl.
  - split; [done|]. by eapply buffering_ext; [..|exact Hb].
  - split; [done|]. destruct Hb as [(Hn & _) _].
    split; [unfold draining|]; simpl.
    + split_and!; [done|constructor|by intros e ?%elem_of_nil..|done].
    + by intros e ?%elem_of_nil.
Qed.

Lemma step_buffering c c' :
  buffering c → step star c c' →
  nextSequence c ≤ nextSequence c' ∧ buffering c'.
Proof.
  intros Hb Hstep. destruct Hstep as [c now change Hs|c now|c lastSequence].
  - by apply processEntry_buffering.
  - by apply CleanUp_buffering.
  - destruct (Clear_buffering c lastSequence Hb) as [-> ?]. split; [lia|done].
Qed.

Lemma steps_buffering c c' :
  buffering c → rtc (step star) c c' →
  nextSequence c ≤ nextSequence c' ∧ buffering c'.
Proof.
  intros Hb Hsteps. induction Hsteps as [c|c c1 c2 Hstep Hsteps IH]; [done|].
  destruct (step_buffering c c1 Hb Hstep) as [Hle Hb1].
  destruct (IH Hb1) as [Hle' Hb2]. split; [lia|done].
Qed.

(** A cache that was started on a last sequence below the largest
    [uint64] is in a state of the buffering. *)
Lemma Start_buffering opts lastSequence :
  0 ≤ lastSequence < maxUint64 →
  buffering (fst (Start (Init opts) (lastSequence, None))).
Proof.
  intros Hl. split; [unfold draining|]; simpl.
  - rewrite wrap64_small by lia.
    split_and!; [unfold uint64; lia|constructor|by intros e ?%elem_of_nil..|done].
  - by intros e ?%elem_of_nil.
Qed.

(** C9, as the code has it: from a state of the buffering (such as
    the one a started cache is in), and as long as no entry carries the
    largest [uint64] as its sequence, [nextSequence] never decreases:
    not along any number of calls of [processEntry], [CleanUp] and
    [Clear], and not in [_addToCache] or [_addPendingLogs], which these
    run. *)
Theorem nextSequence_never_decreases c :
  buffering c →
  (∀ c', rtc (step star) c c' → nextSequence c ≤ nextSequence c')
  ∧ (∀ now change, 0 ≤ Sequence change < maxUint64 →
       nextSequence c ≤ nextSequence (fst (processEntry star c now change)))
  ∧ (∀ change, 0 ≤ Sequence change < maxUint64 →
       nextSequence c ≤ nextSequence (fst (_addToCache star c change)))
  ∧ (∀ now, nextSequence c ≤ nextSequence (fst (_addPendingLogs star c now)))
  ∧ (∀ now, nextSequence c ≤ nextSequence (fst (fst (CleanUp star c now))))
  ∧ (∀ lastSequence, nextSequence c ≤ nextSequence (fst (Clear c lastSequence))).
Proof.
  intros Hb. split_and!.
  - intros c' Hsteps. by apply steps_buffering.
  - intros now change Hs. by apply processEntry_buffering.
  - intros change Hs. apply addToCache_monotone; [apply Hb|done].
  - intros now. by apply addPendingLogs_buffering, buffering_draining.
  - intros now. by apply CleanUp_buffering.
  - intros lastSequence.
    destruct (Clear_buffering c lastSequence Hb) as [-> _]. lia.
Qed.

End NextSequence.

Lemma nextSequence_never_decreases_witness :
  let c := fst (Start (Init None) (0, None)) in
  let c' := fst (fst (CleanUp true
              (fst (processEntry true
                 (fst (processEntry true c 10 (docEntry 3 "doc3" ["A"] 10)))
                 11 (docEntry 1 "doc1" ["A"] 11)))
              6000000000)) in
  buffering c
  ∧ nextSequence c = 1 ∧ nextSequence c' = 4
  ∧ nextSequence c ≤ nextSequence c'.
Proof.
  intros c c'.
  assert (buffering c) as Hb.
  { split; [split_and!|]; simpl; try (by intros e ?%elem_of_nil).
    - by vm_compute.
    - constructor.
    - done. }
  split_and!; [done|reflexivity|by vm_compute|].
  refine (proj1 (nextSequence_never_decreases true c Hb) c' _).
  refine (rtc_l _ _ _ _
            (step_processEntry true c 10 (docEntry 3 "doc3" ["A"] 10) _) _);
    [by vm_compute|].
  refine (rtc_l _ _ _ _
            (step_processEntry true _ 11 (docEntry 1 "doc1" ["A"] 11) _) _);
    [by vm_compute|].
  refine (rtc_l _ _ _ _ (step_CleanUp true _ 6000000000) _).
  exact (rtc_refl _ _).
Defined.

(** C9 as stated fails at the largest [uint64]: the entry with that
    sequence takes [nextSequence] from it to zero. *)
Lemma nextSequence_wraps_counterexample :
  ¬ (∀ c now change,
       nextSequence c ≤ nextSequence (fst (processEntry true c now change))).
Proof.
  intros H.
  specialize (H (fst (Start (Init None) (maxUint64 - 1, None))) 0
                (placeholder maxUint64 0)).
  vm_compute in H. by apply H.
Qed.

(** ** Unused ranges of sequences *)

Section UnusedRange.

Import strconv strings.

Variable star : bool.
Variable now : Z.








End UnusedRange.



(** ** Too many pending entries *)

Section Overflow.

Variable star : bool.



Variable now : Z.


(** With no more than the allowed number of entries on the queue, none
    of them waiting for too long, the loop leaves the skipped list
    alone. *)
Lemma addPendingLogs_loop_unforced fuel : ∀ c,
  Z.of_nat (length (pendingLogs c)) ≤ CachePendingSeqMaxNum (options c) →
  (∀ e, e ∈ pendingLogs c → now - TimeReceived e < CachePendingSeqMaxWait (options c)) →
  skippedSeqs (fst (addPendingLogs_loop star fuel c now)) = skippedSeqs c.
Proof.
  induction fuel as [|fuel IH]; intros c Hlen Hwait; simpl; [done|].
  destruct (pendingLogs c) as [|change rest] eqn:Ep; [done|].
  destruct (Sequence change =? nextSequence c).
  - set (c0 := set_pendingLogs (heap.Pop (change :: rest)) c).
    pose proof (addToCache_fields star c0 change) as (_ & _ & _ & Hp1 & _ & Hs1 & Ho1).
    destruct (_addToCache star c0 change) as [c1 ch]. simpl in Hp1, Hs1, Ho1.
    specialize (IH c1). rewrite Hp1, Ho1, Hs1 in IH.
    destruct (addPendingLogs_loop star fuel c1 now) as [c2 more]. simpl in *.
    apply IH; [lia|]. intros e He. apply Hwait. set_solver.
  - rewrite (proj2 (Z.ltb_ge _ _) Hlen). simpl.
    rewrite (proj2 (Z.leb_gt _ _)); [done|]. apply Hwait. set_solver.
Qed.


End Overflow.



(** ** The order on sequence identifiers *)

Section SequenceIDOrder.

Import strconv strings.

Ltac before_cases :=
  unfold Before, SafeSequence;
  repeat match goal with
    | |- context [?a =? ?b] => destruct (Z.eqb_spec a b)
    | |- context [?a <? ?b] => destruct (Z.ltb_spec a b)
    | |- context [?a <=? ?b] => destruct (Z.leb_spec a b)
    | H : context [?a =? ?b] |- _ => destruct (Z.eqb_spec a b)
    | H : context [?a <? ?b] |- _ => destruct (Z.ltb_spec a b)
    | H : context [?a <=? ?b] |- _ => destruct (Z.leb_spec a b)
    end;
  try done; try lia.

(** [Before] is a strict order on all sequence identifiers: nothing is
    before itself, two identifiers are never before each other, and
    [Before] is transitive. *)
Theorem Before_strict_order :
  (∀ a, Before a a = false)
  ∧ (∀ a b, Before a b = true → Before b a = false)
  ∧ (∀ a b c, Before a b = true → Before b c = true → Before a c = true).
Proof.
  split_and!.
  - intros a. before_cases.
  - intros a b. before_cases.
  - intros a b c Hab Hbc. revert Hab Hbc. before_cases.
Qed.

(** Two identifiers are left unordered by [Before] exactly when they
    have the same [TriggeredBy] and the same [SafeSequence]; in
    particular an identifier that is triggered and one that is not are
    always ordered. *)
Theorem Before_unordered_iff a b :
  (Before a b = false ∧ Before b a = false)
  ↔ (TriggeredBy a = TriggeredBy b ∧ SafeSequence a = SafeSequence b).
Proof.
  unfold Before.
  destruct (Z.eqb_spec (TriggeredBy a) (TriggeredBy b)) as [Heq|Hne].
  - rewrite Heq, Z.eqb_refl, !Z.ltb_ge. split; [intros [??]; split; [done|lia]|].
    intros [_ ->]. lia.
  - destruct (Z.eqb_spec (TriggeredBy b) (TriggeredBy a)) as [?|_]; [congruence|].
    split; [|tauto]. intros [H1 H2]. exfalso. revert H1 H2.
    repeat match goal with
      | |- context [?x =? ?y] => destruct (Z.eqb_spec x y)
      end; rewrite ?Z.ltb_ge, ?Z.leb_gt; lia.
Qed.

End SequenceIDOrder.

(** ** What the parser accepts *)

Section Acceptance.

Import strconv strings.

Lemma ParseIntSequenceComponent_numeral component allowEmpty :
  numeral component →
  ParseIntSequenceComponent component allowEmpty
  = (decimal_value component 0, None).
Proof.
  intros Hn. unfold ParseIntSequenceComponent.
  rewrite bool_decide_eq_false_2 by apply Hn. rewrite andb_false_r.
  by rewrite (proj2 (ParseUint_ok component _) (conj Hn eq_refl)).
Qed.

Lemma numeral_not_empty s rest : numeral s → s +:+ rest ≠ "".
Proof. intros (Hne & _). by destruct s. Qed.

(** The identifier a recognized string stands for. *)
Lemma parse_recognized_values :
  (∀ sq, numeral sq →
     parseIntegerSequenceID sq = (intSeq 0 0 (decimal_value sq 0), None))
  ∧ (∀ t sq, numeral t → numeral sq →
       parseIntegerSequenceID (t +:+ ":" +:+ sq)
       = (intSeq 0 (decimal_value t 0) (decimal_value sq 0), None))
  ∧ (∀ l sq, numeral l → numeral sq →
       parseIntegerSequenceID (l +:+ "::" +:+ sq)
       = (intSeq (decimal_value l 0) 0 (decimal_value sq 0), None))
  ∧ (∀ l t sq, numeral l → numeral t → numeral sq →
       parseIntegerSequenceID (l +:+ ":" +:+ t +:+ ":" +:+ sq)
       = (intSeq (decimal_value l 0) (decimal_value t 0) (decimal_value sq 0),
          None)).
Proof.
  split_and!.
  - intros sq Hs. unfold parseIntegerSequenceID.
    rewrite decide_False by apply Hs. rewrite Split_digits by apply Hs.
    by rewrite ParseIntSequenceComponent_numeral.
  - intros t sq Ht Hs. unfold parseIntegerSequenceID.
    rewrite decide_False by (by apply numeral_not_empty).
    rewrite Split_digits_colon, Split_digits by (apply Ht || apply Hs).
    by rewrite !ParseIntSequenceComponent_numeral.
  - intros l sq Hl Hs. unfold parseIntegerSequenceID.
    rewrite decide_False by (by apply numeral_not_empty).
    change ("::" +:+ sq) with (":" +:+ ":" +:+ sq).
    rewrite Split_digits_colon by apply Hl.
    change (Split (":" +:+ sq) ":"%char) with ("" :: Split sq ":"%char).
    rewrite Split_digits by apply Hs.
    rewrite (ParseIntSequenceComponent_numeral l),
      (ParseIntSequenceComponent_numeral sq) by done.
    reflexivity.
  - intros l t sq Hl Ht Hs. unfold parseIntegerSequenceID.
    rewrite decide_False by (by apply numeral_not_empty).
    rewrite !Split_digits_colon, Split_digits by (apply Hl || apply Ht || apply Hs).
    by rewrite !ParseIntSequenceComponent_numeral.
Qed.

Lemma parse_ok_recognized str :
  str ≠ "" → snd (parseIntegerSequenceID str) = None → recognized str.
Proof.
  intros Hne. unfold parseIntegerSequenceID. rewrite decide_False by done.
  pose proof (Join_Split str ":"%char) as Hj.
  destruct (Split str ":"%char) as [|c0 [|c1 [|c2 [|c3 r]]]] eqn:Es; try done.
  - simpl in Hj. subst c0.
    destruct (ParseIntSequenceComponent str false) as [v [e|]] eqn:E0; [done|].
    intros _. apply ParseIntSequenceComponent_ok in E0 as [[? _]|Hn]; [done|].
    by left.
  - destruct (ParseIntSequenceComponent c0 false) as [v0 [e0|]] eqn:E0; [done|].
    destruct (ParseIntSequenceComponent c1 false) as [v1 [e1|]] eqn:E1; [done|].
    intros _.
    apply ParseIntSequenceComponent_ok in E0 as [[? _]|H0]; [done|].
    apply ParseIntSequenceComponent_ok in E1 as [[? _]|H1]; [done|].
    right; left. exists c0, c1. simpl in Hj. done.
  - destruct (ParseIntSequenceComponent c0 false) as [v0 [e0|]] eqn:E0; [done|].
    destruct (ParseIntSequenceComponent c1 true) as [v1 [e1|]] eqn:E1; [done|].
    destruct (ParseIntSequenceComponent c2 false) as [v2 [e2|]] eqn:E2; [done|].
    intros _.
    apply ParseIntSequenceComponent_ok in E0 as [[? _]|H0]; [done|].
    apply ParseIntSequenceComponent_ok in E2 as [[? _]|H2]; [done|].
    apply ParseIntSequenceComponent_ok in E1 as H1.
    right; right. exists c0, c1, c2. simpl in Hj.
    split_and!; try done. destruct H1 as [[_ ->]|H1]; auto.
Qed.

(** [parseIntegerSequenceID] returns without an error exactly on the
    empty string and on the three wire forms. *)
Theorem parse_accepts_exactly str :
  snd (parseIntegerSequenceID str) = None ↔ str = "" ∨ recognized str.
Proof.
  split.
  - intros Hok. destruct (decide (str = "")) as [->|Hne]; [by left|].
    right. by apply parse_ok_recognized.
  - destruct parse_recognized_values as (H1 & H2 & H3 & H4).
    intros [->|[Hn|[(t & sq & Ht & Hs & ->)|(l & t & sq & Hl & Ht & Hs & ->)]]].
    + reflexivity.
    + by rewrite H1.
    + by rewrite H2.
    + destruct Ht as [->|Ht].
      * change (l +:+ ":" +:+ "" +:+ ":" +:+ sq) with (l +:+ "::" +:+ sq).
        by rewrite H3.
      * by rewrite H4.
Qed.


(** Two well-formed identifiers with the same string are the same. *)
Theorem SequenceID_String_injective s1 s2 :
  wellFormed s1 → wellFormed s2 →
  SequenceID_String s1 = SequenceID_String s2 → s1 = s2.
Proof.
  intros Hw1 Hw2 Heq.
  assert (∀ s, wellFormed s →
            parseIntegerSequenceID (SequenceID_String s) = (s, None)) as Hrt.
  { intros s (Hty & Hc & Htc & Hvb & HS & HT & HL & Hlow).
    by apply parse_String_roundtrip_exact. }
  pose proof (Hrt s1 Hw1) as H1. pose proof (Hrt s2 Hw2) as H2.
  rewrite Heq in H1. congruence.
Qed.

End Acceptance.

Lemma parse_accepts_exactly_witness :
  snd (parseIntegerSequenceID "12::34") = None
  ∧ snd (parseIntegerSequenceID "12:x:34") ≠ None.
Proof.
  split.
  - apply parse_accepts_exactly. right. apply recognized_iff. by vm_compute.
  - intros [Hc|Hc]%parse_accepts_exactly; [done|].
    apply recognized_iff in Hc. by vm_compute in Hc.
Defined.


Lemma SequenceID_String_injective_witness :
  SequenceID_String (intSeq 0 12 34) ≠ SequenceID_String (intSeq 12 0 34).
Proof.
  intros Heq.
  assert (wellFormed (intSeq 0 12 34)) as H1
    by (unfold wellFormed, uint64, maxUint64; simpl; split_and!; (done || lia || auto)).
  assert (wellFormed (intSeq 12 0 34)) as H2
    by (unfold wellFormed, uint64, maxUint64; simpl; split_and!; (done || lia || auto)).
  pose proof (SequenceID_String_injective _ _ H1 H2 Heq) as Hs.
  discriminate Hs.
Defined.

(** ** The skipped-sequence list and its index *)

Section SkippedIndex.

Import SkippedList.

Lemma filter_all {A} (P : A → Prop) `{!∀ x, Decision (P x)} (l : list A) :
  (∀ x, x ∈ l → P x) → filter P l = l.
Proof.
  induction l as [|x l IH]; intros Hall; [done|].
  rewrite filter_cons_True by (apply Hall; set_solver).
  rewrite IH; [done|]. intros y Hy. apply Hall. set_solver.
Qed.

Lemma filter_none {A} (P : A → Prop) `{!∀ x, Decision (P x)} (l : list A) :
  (∀ x, x ∈ l → ¬ P x) → filter P l = [].
Proof.
  induction l as [|x l IH]; intros Hall; [done|].
  rewrite filter_cons_False by (apply Hall; set_solver).
  apply IH. intros y Hy. apply Hall. set_solver.
Qed.

Lemma sorted_seq_unique (l : list SkippedSequence) a b :
  StronglySorted by_sequence l → a ∈ l → b ∈ l → seq a = seq b → a = b.
Proof.
  induction 1 as [|x l Hs IH Hall]; intros Ha Hb Heq.
  - by apply elem_of_nil in Ha.
  - rewrite Forall_forall in Hall. unfold by_sequence in Hall.
    apply elem_of_cons in Ha as [->|Ha]; apply elem_of_cons in Hb as [->|Hb].
    + done.
    + specialize (Hall b Hb). lia.
    + specialize (Hall a Ha). lia.
    + by apply IH.
Qed.

Lemma list_Remove_filter (l : list SkippedSequence) e :
  StronglySorted by_sequence l → e ∈ l →
  list_Remove e l = filter (λ y, seq y ≠ seq e) l.
Proof.
  induction 1 as [|x l Hs IH Hall]; intros He.
  - by apply elem_of_nil in He.
  - rewrite Forall_forall in Hall. unfold by_sequence in Hall.
    simpl. rewrite filter_cons. destruct (decide (x = e)) as [->|Hne].
    + rewrite decide_False by (intros H; by apply H).
      symmetry. apply filter_all.
      intros y Hy. specialize (Hall y Hy). lia.
    + apply elem_of_cons in He as [->|He]; [done|].
      specialize (Hall e He). rewrite decide_True by lia.
      by rewrite IH.
Qed.

Lemma New_wellKept : wellKept NewSkippedSequenceList.
Proof.
  split; [constructor|]. intros x e. simpl. rewrite lookup_empty.
  split; [done|]. by intros [?%elem_of_nil _].
Qed.

Lemma Contains_iff l x :
  indexed l → Contains l x = true ↔ x ∈ seq <$> skippedList l.
Proof.
  intros Hi. unfold Contains. rewrite bool_decide_eq_true.
  rewrite list_elem_of_fmap. split.
  - intros [e He]. apply Hi in He as [He Hx]. eauto.
  - intros (e & -> & He). exists e. by apply Hi.
Qed.

Lemma Push_wellKept l x : wellKept l → wellKept (fst (Push l x)).
Proof.
  intros [Hs Hi]. split; [by apply Push_sorted|].
  destruct (Push_cases l x) as [[-> Hlast]|[-> _]]; simpl; [|done].
  assert (∀ e, e ∈ skippedList l → seq e < seq x) as Hbelow.
  { intros e He. destruct (last (skippedList l)) as [t|] eqn:El.
    - pose proof (StronglySorted_last_bound _ _ _ Hs El He). lia.
    - apply last_None in El. rewrite El in He. by apply elem_of_nil in He. }
  intros y e. simpl. rewrite elem_of_app, list_elem_of_singleton.
  destruct (decide (seq x = y)) as [<-|Hne].
  - rewrite lookup_insert_eq. split.
    + intros [= <-]. auto.
    + intros [[He| ->] Heq]; [|done]. specialize (Hbelow e He). lia.
  - rewrite lookup_insert_ne by done. rewrite (Hi y e). split.
    + intros [??]. auto.
    + intros [[He| ->] Heq]; [done|]. done.
Qed.

(** What [Remove] does on a list that is well kept. *)
Lemma Remove_present l x :
  wellKept l → Contains l x = true →
  ∃ l', Remove l x = (l', None)
        ∧ skippedList l' = filter (λ y, seq y ≠ x) (skippedList l)
        ∧ Contains l' x = false
        ∧ wellKept l'.
Proof.
  intros [Hs Hi] Hc. unfold Contains in Hc. apply bool_decide_eq_true in Hc as [e He].
  pose proof (proj1 (Hi x e) He) as [Hel Hx].
  unfold Remove. rewrite He. eexists. split; [reflexivity|]. simpl.
  rewrite list_Remove_filter by done. rewrite Hx.
  split_and!; [done| |].
  - unfold Contains. simpl. rewrite lookup_delete_eq.
    apply bool_decide_eq_false. by intros [??].
  - split; simpl.
    + eapply StronglySorted_sublist; [apply sublist_filter|done].
    + intros y e'. simpl. rewrite list_elem_of_filter.
      destruct (decide (x = y)) as [<-|Hne].
      * rewrite lookup_delete_eq. split; [done|]. by intros [[??] ?].
      * rewrite lookup_delete_ne by done. rewrite (Hi y e'). split.
        -- intros [? Hy]. split_and!; try done. congruence.
        -- intros [[??] ?]. done.
Qed.

Lemma Remove_absent l x :
  Contains l x = false → Remove l x = (l, Some ErrValueNotFound).
Proof.
  unfold Contains, Remove. intros Hc%bool_decide_eq_false.
  destruct (skippedMap l !! x) eqn:E; [|done]. destruct Hc. eauto.
Qed.

Lemma Remove_wellKept l x : wellKept l → wellKept (fst (Remove l x)).
Proof.
  intros Hw. destruct (Contains l x) eqn:Hc.
  - destruct (Remove_present l x Hw Hc) as (l' & -> & _ & _ & Hw'). done.
  - by rewrite Remove_absent.
Qed.

Lemma run_wellKept ops : ∀ l, wellKept l → wellKept (run l ops).
Proof.
  induction ops as [|o ops IH]; intros l Hw; [done|].
  apply IH. destruct o; simpl; [by apply Push_wellKept|by apply Remove_wellKept].
Qed.

(** After any sequence of [Push] and [Remove] on a new list, [Contains]
    answers [true] exactly for the sequences that are in the list. *)
Theorem Contains_in_list ops x :
  Contains (run NewSkippedSequenceList ops) x = true
  ↔ x ∈ seq <$> skippedList (run NewSkippedSequenceList ops).
Proof. apply Contains_iff, run_wellKept, New_wellKept. Qed.

(** [Remove] of a sequence that is in a well-kept list takes exactly the
    element of that sequence out, returns no error, and leaves a
    well-kept list that no longer contains it; [Remove] of any other
    sequence returns the error and leaves the list as it was. *)
Theorem Remove_removes_exactly l x :
  wellKept l →
  (Contains l x = true →
   ∃ l', Remove l x = (l', None)
         ∧ skippedList l' = filter (λ y, seq y ≠ x) (skippedList l)
         ∧ Contains l' x = false
         ∧ (∀ y, y ≠ x → Contains l' y = Contains l y)
         ∧ wellKept l')
  ∧ (Contains l x = false → Remove l x = (l, Some ErrValueNotFound)).
Proof.
  intros Hw. split; [|apply Remove_absent].
  intros Hc. destruct (Remove_present l x Hw Hc) as (l' & Hr & Hl & Hn & Hw').
  exists l'. split_and!; try done.
  intros y Hy. unfold Remove in Hr. unfold Contains in *.
  destruct (skippedMap l !! x); [|done]. inversion Hr; subst; simpl.
  by rewrite lookup_delete_ne.
Qed.

(** [getOldest] is the least sequence of a list in increasing order, and
    zero for the empty list. *)
Theorem getOldest_least l :
  StronglySorted by_sequence (skippedList l) →
  (skippedList l = [] → getOldest l = 0)
  ∧ (skippedList l ≠ [] → getOldest l ∈ seq <$> skippedList l)
  ∧ (∀ e, e ∈ skippedList l → getOldest l ≤ seq e).
Proof.
  intros Hs. unfold getOldest. destruct (skippedList l) as [|x r]; split_and!.
  - done.
  - done.
  - by intros e ?%elem_of_nil.
  - done.
  - intros _. simpl. set_solver.
  - apply StronglySorted_cons in Hs as [Hall _]. rewrite Forall_forall in Hall.
    intros e [->|He]%elem_of_cons; [done|].
    specialize (Hall e He). unfold by_sequence in Hall. lia.
Qed.

Lemma olderThan_filter now skippedExpiry (l : list SkippedSequence) :
  StronglySorted by_time l →
  olderThan now skippedExpiry l
  = seq <$> filter (λ e, skippedExpiry < now - timeAdded e) l.
Proof.
  induction 1 as [|x l Hs IH Hall]; [done|].
  simpl. rewrite filter_cons.
  destruct (Z.ltb_spec skippedExpiry (now - timeAdded x)) as [Hlt|Hge].
  - rewrite decide_True by done. by rewrite fmap_cons, IH.
  - rewrite decide_False by lia. symmetry.
    rewrite filter_none; [done|].
    rewrite Forall_forall in Hall. intros y Hy. specialize (Hall y Hy).
    unfold by_time in Hall. lia.
Qed.

(** On a list in the order of its clock readings, [getOlderThan] returns
    the sequences of all the entries that have waited longer than the
    given time, in the order of the list: stopping at the first entry
    that has not waited that long misses none. *)
Theorem getOlderThan_all now l skippedExpiry :
  StronglySorted by_time (skippedList l) →
  getOlderThan now l skippedExpiry
  = seq <$> filter (λ e, skippedExpiry < now - timeAdded e) (skippedList l).
Proof. apply olderThan_filter. Qed.

Lemma olderThan_prefix now skippedExpiry (l : list SkippedSequence) :
  ∃ k, olderThan now skippedExpiry l = seq <$> take k l
       ∧ (∀ e, e ∈ take k l → skippedExpiry < now - timeAdded e)
       ∧ (∀ e, l !! k = Some e → now - timeAdded e ≤ skippedExpiry).
Proof.
  induction l as [|x r IH].
  - exists 0%nat. split_and!; [done|by intros e ?%elem_of_nil|done].
  - simpl. destruct (Z.ltb_spec skippedExpiry (now - timeAdded x)) as [Hlt|Hge].
    + destruct IH as (k & Heq & Hold & Hnext). exists (S k). simpl.
      split_and!; [by rewrite Heq| |done].
      intros e [->|He]%elem_of_cons; [done|]. by apply Hold.
    + exists 0%nat. simpl. split_and!; [done|by intros e ?%elem_of_nil|].
      intros e [= <-]. done.
Qed.

(** Whatever the order, what [getOlderThan] returns are the sequences of
    a front part of the list, each of which has waited longer than the
    given time. *)
Theorem getOlderThan_prefix now l skippedExpiry :
  ∃ k, getOlderThan now l skippedExpiry = seq <$> take k (skippedList l)
       ∧ (∀ e, e ∈ take k (skippedList l) → skippedExpiry < now - timeAdded e)
       ∧ (∀ e, skippedList l !! k = Some e → now - timeAdded e ≤ skippedExpiry).
Proof. apply olderThan_prefix. Qed.

End SkippedIndex.

Lemma Remove_removes_exactly_witness :
  let l := SkippedList.run SkippedList.NewSkippedSequenceList
             [SkippedList.OpPush {| seq := 3; timeAdded := 5 |};
              SkippedList.OpPush {| seq := 4; timeAdded := 6 |}] in
  (∃ l', SkippedList.Remove l 3 = (l', None)
         ∧ skippedList l' = [{| seq := 4; timeAdded := 6 |}])
  ∧ SkippedList.Remove l 7 = (l, Some ErrValueNotFound).
Proof.
  intros l.
  assert (SkippedList.wellKept l) as Hw by apply run_wellKept, New_wellKept.
  destruct (Remove_removes_exactly l 3 Hw) as [Hin _].
  destruct (Remove_removes_exactly l 7 Hw) as [_ Hout].
  split.
  - destruct (Hin eq_refl) as (l' & Hr & Hl & _). exists l'. split; [done|].
    rewrite Hl. reflexivity.
  - apply Hout. reflexivity.
Defined.

Lemma getOldest_least_witness :
  let l := SkippedList.run SkippedList.NewSkippedSequenceList
             [SkippedList.OpPush {| seq := 3; timeAdded := 5 |};
              SkippedList.OpPush {| seq := 4; timeAdded := 6 |}] in
  SkippedList.getOldest l = 3
  ∧ ∀ e, e ∈ skippedList l → SkippedList.getOldest l ≤ seq e.
Proof.
  intros l. split; [reflexivity|].
  apply getOldest_least. apply run_sorted. constructor.
Defined.

Lemma getOlderThan_all_witness :
  let l := SkippedList.run SkippedList.NewSkippedSequenceList
             [SkippedList.OpPush {| seq := 3; timeAdded := 5 |};
              SkippedList.OpPush {| seq := 4; timeAdded := 5 |};
              SkippedList.OpPush {| seq := 8; timeAdded := 9 |}] in
  SkippedList.getOlderThan 20 l 12 = [3; 4].
Proof.
  intros l. rewrite getOlderThan_all; [reflexivity|].
  apply (run_time_sorted _ _ 0); [constructor|by intros e ?%elem_of_nil|].
  simpl. lia.
Defined.

(** ** Giving up on skipped sequences *)

Section Abandoning.

Import SkippedList.

Lemma list_Remove_length (l : list SkippedSequence) e :
  e ∈ l → S (length (list_Remove e l)) = length l.
Proof.
  induction l as [|x r IH]; intros He; [by apply elem_of_nil in He|].
  simpl. destruct (decide (x = e)) as [->|Hne]; [done|].
  apply elem_of_cons in He as [->|He]; [done|]. simpl. by rewrite IH.
Qed.

Lemma Remove_present_length l x :
  indexed l → Contains l x = true →
  S (length (skippedList (fst (Remove l x)))) = length (skippedList l).
Proof.
  intros Hi Hc. unfold Contains in Hc. apply bool_decide_eq_true in Hc as [e He].
  unfold Remove. rewrite He. simpl. apply list_Remove_length.
  apply (proj1 (Hi x e) He).
Qed.

Lemma skipped_apart_refl c : skipped_apart c c.
Proof. by repeat split. Qed.

Lemma RemoveSkippedSequences_fold sequences : ∀ c removedCount,
  wellKept (skippedSeqs c) →
  let r := foldl (λ '(c, removedCount) sequence,
                    match Remove (skippedSeqs c) sequence with
                    | (_, Some _) => (c, removedCount)
                    | (l, None) => (set_skippedSeqs l c, removedCount + 1)
                    end) (c, removedCount) sequences in
  skipped_apart c (fst r)
  ∧ wellKept (skippedSeqs (fst r))
  ∧ skippedList (skippedSeqs (fst r))
    = filter (λ e, seq e ∉ sequences) (skippedList (skippedSeqs c))
  ∧ snd r = removedCount
            + (Z.of_nat (length (skippedList (skippedSeqs c)))
               - Z.of_nat (length (skippedList (skippedSeqs (fst r))))).
Proof.
  induction sequences as [|x sequences IH]; intros c n Hw; cbv zeta.
  - simpl. split_and!; [apply skipped_apart_refl|done| |lia].
    symmetry. apply filter_all. intros e _. apply not_elem_of_nil.
  - cbn [foldl]. destruct (Contains (skippedSeqs c) x) eqn:Hc.
    + destruct (Remove_present _ x Hw Hc) as (l' & Hr & Hl & _ & Hw').
      pose proof (Remove_present_length _ x (proj2 Hw) Hc) as Hlen.
      rewrite Hr in Hlen |- *. simpl in Hlen.
      specialize (IH (set_skippedSeqs l' c) (n + 1) Hw'). cbv zeta in IH.
      destruct IH as (Hsame & Hw'' & Hlist & Hcount). simpl in Hsame, Hlist, Hcount.
      split_and!; [done|done| |].
      * rewrite Hlist, Hl, list_filter_filter. apply list_filter_iff.
        intros e. rewrite not_elem_of_cons. tauto.
      * rewrite Hcount. lia.
    + rewrite (Remove_absent _ x Hc).
      specialize (IH c n Hw). cbv zeta in IH.
      destruct IH as (Hsame & Hw'' & Hlist & Hcount).
      split_and!; [done|done| |done].
      rewrite Hlist. clear Hsame Hw'' Hlist Hcount.
      assert (x ∉ seq <$> skippedList (skippedSeqs c)) as Hnot.
      { intros Hin. apply (Contains_iff _ _ (proj2 Hw)) in Hin. congruence. }
      induction (skippedList (skippedSeqs c)) as [|y r IHr]; [done|].
      rewrite fmap_cons, not_elem_of_cons in Hnot. destruct Hnot as [Hne Hnot].
      rewrite !filter_cons, IHr by done.
      destruct (decide (seq y ∉ sequences)) as [Hy|Hy].
      * rewrite decide_True; [done|]. rewrite not_elem_of_cons. split; [congruence|done].
      * rewrite decide_False; [done|]. rewrite not_elem_of_cons. tauto.
Qed.

End Abandoning.

Section Cleaning.

Import SkippedList.

Variable star : bool.
Variable getChangesForSequences : list Z → list LogEntry * option error.
Variable GetDocument : string → gmap string (option ChannelRemoval) * option error.

Lemma RemoveSkippedSequences_takes_out c sequences :
  wellKept (skippedSeqs c) →
  let c' := fst (RemoveSkippedSequences c sequences) in
  skipped_apart c c'
  ∧ wellKept (skippedSeqs c')
  ∧ skippedList (skippedSeqs c')
    = filter (λ e, seq e ∉ sequences) (skippedList (skippedSeqs c))
  ∧ (∀ x, x ∈ sequences → Contains (skippedSeqs c') x = false)
  ∧ snd (RemoveSkippedSequences c sequences)
    = Z.of_nat (length (skippedList (skippedSeqs c)))
      - Z.of_nat (length (skippedList (skippedSeqs c'))).
Proof.
  intros Hw. cbv zeta. unfold RemoveSkippedSequences.
  destruct (RemoveSkippedSequences_fold sequences c 0 Hw) as (H1 & H2 & H3 & H4).
  split_and!; try done; try lia.
  intros x Hx. apply not_true_is_false. intros Hc.
  apply (Contains_iff _ _ (proj2 H2)) in Hc.
  apply list_elem_of_fmap in Hc as (e & -> & He).
  rewrite H3 in He. apply list_elem_of_filter in He as [Hne _]. done.
Qed.

(** [RemoveSkippedSequences] on a well-kept skipped list takes out
    exactly the entries whose sequence is among the given ones, counts
    each entry it takes out once (a sequence that is absent, or given a
    second time, is not counted), and touches nothing else. *)
Theorem RemoveSkippedSequences_removes c sequences :
  wellKept (skippedSeqs c) →
  let c' := fst (RemoveSkippedSequences c sequences) in
  skipped_apart c c'
  ∧ wellKept (skippedSeqs c')
  ∧ skippedList (skippedSeqs c')
    = filter (λ e, seq e ∉ sequences) (skippedList (skippedSeqs c))
  ∧ (∀ x, x ∈ sequences → Contains (skippedSeqs c') x = false)
  ∧ snd (RemoveSkippedSequences c sequences)
    = Z.of_nat (length (skippedList (skippedSeqs c)))
      - Z.of_nat (length (skippedList (skippedSeqs c'))).
Proof. apply RemoveSkippedSequences_takes_out. Qed.

Lemma queryBatches_nothing_found fuel batch : ∀ old foundEntries pendingRemovals,
  (∀ b, getChangesForSequences b = ([], None)) →
  (0 < batch)%nat → (length old ≤ fuel)%nat →
  queryBatches getChangesForSequences fuel batch old foundEntries pendingRemovals
  = (foundEntries, pendingRemovals ++ old).
Proof.
  induction fuel as [|fuel IH]; intros old found pend Hq Hb Hlen.
  - destruct old; [|simpl in Hlen; lia]. simpl. by rewrite app_nil_r.
  - destruct old as [|x old]; [simpl; by rewrite app_nil_r|].
    cbn [queryBatches]. rewrite Hq. rewrite app_nil_r.
    rewrite IH; [|done|done|].
    + f_equal. rewrite <- app_assoc. f_equal.
      rewrite filter_all; [apply take_drop|].
      intros y _. simpl. set_solver.
    + rewrite length_drop. simpl in *. lia.
Qed.

Lemma queryBatches_all_fail fuel batch : ∀ old foundEntries pendingRemovals,
  (∀ b, ∃ entries err, getChangesForSequences b = (entries, Some err)) →
  queryBatches getChangesForSequences fuel batch old foundEntries pendingRemovals
  = (foundEntries, pendingRemovals).
Proof.
  induction fuel as [|fuel IH]; intros old found pend Hq; [done|].
  destruct old as [|x old]; [done|]. cbn [queryBatches].
  destruct (Hq (take batch (x :: old))) as (entries & err & ->). by apply IH.
Qed.

Lemma filter_front_sequences (l : list SkippedSequence) k :
  StronglySorted by_sequence l →
  filter (λ e, seq e ∉ seq <$> take k l) l = drop k l.
Proof.
  intros Hs.
  assert (filter (λ e, seq e ∉ seq <$> take k l) (take k l ++ drop k l)
          = drop k l) as H.
  { rewrite filter_app. rewrite <- (take_drop k l) in Hs.
    apply StronglySorted_app in Hs as (Hcross & _ & Hsd).
    rewrite (filter_none _ (take k l)).
    - simpl. apply filter_all. intros e He Hin.
      apply list_elem_of_fmap in Hin as (e' & Heq & He').
      specialize (Hcross e' e He' He). unfold by_sequence in Hcross. lia.
    - intros e He Hnot. apply Hnot. by apply list_elem_of_fmap_2. }
  by rewrite take_drop in H.
Qed.

(** Abandoning.  When the skipped list is well kept and the database
    finds none of the sequences that have waited longer than
    [CacheSkippedSeqMaxWait] (or the query is disabled),
    [CleanSkippedSequenceQueue] takes all of them off the skipped list,
    adds their number to [abandoned_seqs], tells the listener nothing,
    and leaves the rest of the state and of the skipped list as they were. *)
Theorem CleanSkippedSequenceQueue_abandons disable batch c now :
  wellKept (skippedSeqs c) →
  (disable = true ∨ (0 < batch ∧ ∀ b, getChangesForSequences b = ([], None))) →
  let old := GetSkippedSequencesOlderThanMaxWait c now in
  ∃ c',
    CleanSkippedSequenceQueue star getChangesForSequences GetDocument
      disable batch c now
    = Some (c', [], Z.of_nat (length old))
    ∧ skipped_apart c c'
    ∧ skippedList (skippedSeqs c')
      = drop (length old) (skippedList (skippedSeqs c))
    ∧ (∀ x, x ∈ old → Contains (skippedSeqs c') x = false)
    ∧ wellKept (skippedSeqs c').
Proof.
  intros Hw Hq old. unfold CleanSkippedSequenceQueue. fold old.
  destruct (olderThan_prefix now (CacheSkippedSeqMaxWait (options c))
              (skippedList (skippedSeqs c))) as (k & Hk & _ & _).
  change (olderThan now (CacheSkippedSeqMaxWait (options c))
            (skippedList (skippedSeqs c))) with old in Hk.
  destruct old as [|x old'] eqn:Eold.
  { exists c. split_and!; [done|apply skipped_apart_refl|done| |done].
    by intros y ?%elem_of_nil. }
  rewrite <- Eold in *.
  assert ((if disable then Some ([], old)
           else if batch <=? 0 then None
           else Some (queryBatches getChangesForSequences (length old)
                        (Z.to_nat batch) old [] []))
          = Some ([], old)) as ->.
  { destruct disable; [done|]. destruct Hq as [?|[Hb Hq]]; [done|].
    rewrite (proj2 (Z.leb_gt _ _)) by lia.
    rewrite queryBatches_nothing_found; [done|done|lia|lia]. }
  cbn [processFound foldl].
  destruct (RemoveSkippedSequences_takes_out c old Hw) as (H1 & H2 & H3 & H4 & H5).
  destruct (RemoveSkippedSequences c old) as [c' n]. simpl in *.
  assert (skippedList (skippedSeqs c')
          = drop (length old) (skippedList (skippedSeqs c))) as Hdrop.
  { rewrite H3, Hk, length_fmap.
    rewrite <- (filter_front_sequences _ (length (take k (skippedList (skippedSeqs c)))))
      by apply Hw.
    assert (take (length (take k (skippedList (skippedSeqs c))))
              (skippedList (skippedSeqs c))
            = take k (skippedList (skippedSeqs c))) as ->; [|done].
    rewrite length_take.
    destruct (decide (k ≤ length (skippedList (skippedSeqs c)))%nat).
    - by rewrite Nat.min_l.
    - rewrite Nat.min_r by lia. by rewrite !take_ge by lia. }
  exists c'. unfold notify. rewrite decide_True by done.
  split_and!; try done. do 2 f_equal.
  rewrite H5, Hdrop, length_drop, Hk, length_fmap, length_take. lia.
Qed.

(** When every query of the database fails, [CleanSkippedSequenceQueue]
    changes nothing: the sequences stay skipped until a later sweep. *)
Theorem CleanSkippedSequenceQueue_query_fails batch c now :
  0 < batch →
  (∀ b, ∃ entries err, getChangesForSequences b = (entries, Some err)) →
  CleanSkippedSequenceQueue star getChangesForSequences GetDocument
    false batch c now
  = Some (c, [], 0).
Proof.
  intros Hb Hq. unfold CleanSkippedSequenceQueue.
  destruct (GetSkippedSequencesOlderThanMaxWait c now) as [|x old]; [done|].
  rewrite (proj2 (Z.leb_gt _ _)) by lia.
  rewrite queryBatches_all_fail by done. reflexivity.
Qed.

End Cleaning.

Lemma RemoveSkippedSequences_removes_witness :
  let c := set_skippedSeqs
             (SkippedList.run SkippedList.NewSkippedSequenceList
                [SkippedList.OpPush {| seq := 2; timeAdded := 5 |};
                 SkippedList.OpPush {| seq := 3; timeAdded := 6 |};
                 SkippedList.OpPush {| seq := 5; timeAdded := 7 |}])
             (Init None) in
  SkippedList.wellKept (skippedSeqs c)
  ∧ skippedList (skippedSeqs (fst (RemoveSkippedSequences c [3; 7; 3])))
    = [{| seq := 2; timeAdded := 5 |}; {| seq := 5; timeAdded := 7 |}]
  ∧ snd (RemoveSkippedSequences c [3; 7; 3]) = 1.
Proof.
  intros c.
  assert (SkippedList.wellKept (skippedSeqs c)) as Hw
    by apply run_wellKept, New_wellKept.
  destruct (RemoveSkippedSequences_removes c [3; 7; 3] Hw)
    as (_ & _ & Hl & _ & Hn).
  split_and!; [exact Hw| |].
  - rewrite Hl. reflexivity.
  - rewrite Hn, Hl. reflexivity.
Defined.

Lemma CleanSkippedSequenceQueue_abandons_witness :
  let c := set_skippedSeqs
             (SkippedList.run SkippedList.NewSkippedSequenceList
                [SkippedList.OpPush {| seq := 3; timeAdded := 5 |};
                 SkippedList.OpPush {| seq := 4; timeAdded := 6 |};
                 SkippedList.OpPush {| seq := 8; timeAdded := 4000000000000 |}])
             (Init None) in
  let now := 3600000000010 in
  SkippedList.wellKept (skippedSeqs c)
  ∧ GetSkippedSequencesOlderThanMaxWait c now = [3; 4]
  ∧ ∃ c', CleanSkippedSequenceQueue true (λ _, ([], None)) (λ _, (∅, None))
            false 50 c now
          = Some (c', [], 2)
          ∧ skippedList (skippedSeqs c')
            = [{| seq := 8; timeAdded := 4000000000000 |}].
Proof.
  intros c now.
  assert (SkippedList.wellKept (skippedSeqs c)) as Hw
    by apply run_wellKept, New_wellKept.
  destruct (CleanSkippedSequenceQueue_abandons true (λ _, ([], None))
              (λ _, (∅, None)) false 50 c now Hw)
    as (c' & Hc & _ & Hl & _).
  { right. split; [lia|done]. }
  split_and!; [exact Hw|reflexivity|].
  exists c'. split; [exact Hc|]. rewrite Hl. reflexivity.
Defined.

Lemma CleanSkippedSequenceQueue_query_fails_witness :
  let c := set_skippedSeqs
             (SkippedList.run SkippedList.NewSkippedSequenceList
                [SkippedList.OpPush {| seq := 3; timeAdded := 5 |};
                 SkippedList.OpPush {| seq := 4; timeAdded := 6 |}])
             (Init None) in
  GetSkippedSequencesOlderThanMaxWait c 3600000000010 = [3; 4]
  ∧ CleanSkippedSequenceQueue true (λ _, ([], Some (HTTPErrorf 500 "view")))
      (λ _, (∅, None)) false 50 c 3600000000010
    = Some (c, [], 0).
Proof.
  intros c. split; [reflexivity|].
  apply CleanSkippedSequenceQueue_query_fails; [lia|].
  intros b. by exists [], (HTTPErrorf 500 "view").
Defined.

(** ** The pending queue stays within its bound *)

Section Bounded.

Variable star : bool.

Lemma settled_bounded c now :
  0 ≤ CachePendingSeqMaxNum (options c) → settled c now → bounded c.
Proof.
  unfold settled, bounded. destruct (pendingLogs c); [simpl; lia|].
  by intros _ (_ & ? & _).
Qed.

Lemma addPendingLogs_bounded c now :
  draining c → 0 ≤ CachePendingSeqMaxNum (options c) →
  bounded (fst (_addPendingLogs star c now)).
Proof.
  intros Hd Hmax. destruct (draining_uint64 c Hd) as [Hn Hq].
  apply (settled_bounded _ now); [|by apply addPendingLogs_settled].
  by destruct (addPendingLogs_fields star c now) as (_ & _ & _ & _ & ->).
Qed.

Lemma processEntry_bounded c now change :
  buffering c → 0 ≤ Sequence change < maxUint64 →
  0 ≤ CachePendingSeqMaxNum (options c) → bounded c →
  bounded (fst (processEntry star c now change)).
Proof.
  intros Hb Hseq Hmax Hbd. unfold processEntry.
  destruct (logsDisabled c); [done|].
  destruct (decide (Sequence change ∈ receivedSeqs c)) as [Hin|Hin]; [done|].
  set (c0 := set_receivedSeqs ({[Sequence change]} ∪ receivedSeqs c) c).
  assert (buffering c0) as Hb0.
  { eapply buffering_ext; [..|exact Hb]; try done. simpl. set_solver. }
  destruct Hb as [(Hnext & Hsort & Hbound & Hrec & Hpos) Hstrict].
  change (nextSequence c0) with (nextSequence c).
  change (initialSequence c0) with (initialSequence c).
  destruct ((Sequence change =? nextSequence c) || (nextSequence c =? 0)) eqn:Enext.
  - pose proof (addToCache_nextSequence star c0 change) as Hn1.
    pose proof (addToCache_fields star c0 change)
      as (_ & _ & Hr1 & Hp1 & _ & _ & Ho1).
    destruct (_addToCache star c0 change) as [c1 ch1]. simpl in Hn1, Hr1, Hp1, Ho1.
    assert (nextSequence c ≤ Sequence change) as Hle.
    { apply orb_prop in Enext as [?%Z.eqb_eq|?%Z.eqb_eq]; lia. }
    rewrite (proj2 (Z.leb_le _ _) Hle), wrap64_small in Hn1 by lia.
    assert (draining c1) as Hd1.
    { unfold draining. rewrite Hn1, Hp1, Hr1.
      split_and!; [unfold uint64; lia|done| | |lia].
      - intros e He. specialize (Hstrict e He). specialize (Hbound e He).
        apply orb_prop in Enext as [?%Z.eqb_eq|?%Z.eqb_eq]; [lia|].
        destruct (pendingLogs c); [by apply elem_of_nil in He|].
        specialize (Hpos ltac:(done)). lia.
      - intros e He. specialize (Hrec e He). set_solver. }
    pose proof (addPendingLogs_bounded c1 now Hd1) as Hbd1.
    rewrite Ho1 in Hbd1. specialize (Hbd1 Hmax).
    destruct (_addPendingLogs star c1 now) as [c2 ch2]. done.
  - apply orb_false_elim in Enext as [Hne%Z.eqb_neq Hnz%Z.eqb_neq].
    destruct (Z.ltb_spec (nextSequence c) (Sequence change)) as [Hlt|Hge].
    + set (c1 := set_pendingLogs (heap.Push (pendingLogs c0) change) c0).
      assert (draining c1) as Hd1.
      { unfold draining; simpl.
        split_and!; [done| | | |unfold uint64 in Hnext; lia].
        + apply heap_Push_sorted; [done|].
          intros e He Heq. apply Hin. rewrite <- Heq. by apply Hrec.
        + intros e [->|He]%heap_Push_elem_of; [lia|].
          specialize (Hbound e He). lia.
        + intros e [->|He]%heap_Push_elem_of; [set_solver|].
          specialize (Hrec e He). set_solver. }
      destruct (Z.ltb_spec (CachePendingSeqMaxNum (options c1))
                  (Z.of_nat (length (pendingLogs c1)))) as [Hover|Hok].
      * by apply addPendingLogs_bounded.
      * done.
    + destruct (initialSequence c <? Sequence change); [|done].
      set (change' := if WasSkipped c0 (Sequence change)
                      then set_Skipped true change else change).
      pose proof (addToCache_fields star c0 change')
        as (_ & _ & _ & Hp1 & _ & _ & Ho1).
      destruct (_addToCache star c0 change') as [c1 ch1]. simpl in Hp1, Ho1.
      unfold bounded. simpl. by rewrite Hp1, Ho1.
Qed.

Lemma step_bounded c c' :
  buffering c → 0 ≤ CachePendingSeqMaxNum (options c) → bounded c →
  step star c c' → options c' = options c ∧ bounded c'.
Proof.
  intros Hb Hmax Hbd Hstep.
  destruct Hstep as [c now change Hs|c now|c lastSequence].
  - split; [|by apply processEntry_bounded].
    by destruct (processEntry_fields star c now change) as (_ & _ & _ & -> & _).
  - unfold CleanUp.
    pose proof (addPendingLogs_bounded c now (buffering_draining c Hb) Hmax) as Hbd1.
    destruct (addPendingLogs_fields star c now) as (_ & _ & _ & _ & Ho).
    destruct (_addPendingLogs star c now) as [c1 ch]. simpl in *. done.
  - unfold Clear. destruct (snd lastSequence); simpl; [done|].
    split; [done|]. unfold bounded. simpl. lia.
Qed.

(** From a state of the buffering whose queue is within its bound,
    whatever entries [processEntry] is given and whenever [CleanUp] and
    [Clear] run, the pending queue never holds more than
    [CachePendingSeqMaxNum] entries when an operation has returned, and
    the options stay as they are. *)
Theorem pendingLogs_bounded c c' :
  buffering c → 0 ≤ CachePendingSeqMaxNum (options c) → bounded c →
  rtc (step star) c c' →
  options c' = options c ∧ bounded c'.
Proof.
  intros Hb Hmax Hbd Hsteps.
  induction Hsteps as [c|c c1 c2 Hstep Hsteps IH]; [done|].
  destruct (step_buffering star c c1 Hb Hstep) as [_ Hb1].
  destruct (step_bounded c c1 Hb Hmax Hbd Hstep) as [Ho1 Hbd1].
  destruct IH as [Ho2 Hbd2]; [done|by rewrite Ho1|done|].
  split; [congruence|done].
Qed.

End Bounded.

Lemma pendingLogs_bounded_witness :
  let c := fst (Start (Init (Some {| CachePendingSeqMaxWait := 0;
                                     CachePendingSeqMaxNum := 2;
                                     CacheSkippedSeqMaxWait := 0 |}))
                  (0, None)) in
  let c' := fst (processEntry true
              (fst (processEntry true
                 (fst (processEntry true c 10 (docEntry 3 "doc3" ["A"] 10)))
                 11 (docEntry 5 "doc5" ["A"] 11)))
              12 (docEntry 7 "doc7" ["B"] 12)) in
  buffering c ∧ bounded c
  ∧ (Sequence <$> pendingLogs c') = [5; 7]
  ∧ bounded c'.
Proof.
  intros c c'.
  assert (buffering c) as Hb by (apply Start_buffering; by vm_compute).
  assert (bounded c) as Hbd by (by vm_compute).
  split_and!; [done|done|by vm_compute|].
  refine (proj2 (pendingLogs_bounded true c c' Hb _ Hbd _)); [by vm_compute|].
  refine (rtc_l _ _ _ _
            (step_processEntry true c 10 (docEntry 3 "doc3" ["A"] 10) _) _);
    [by vm_compute|].
  refine (rtc_l _ _ _ _
            (step_processEntry true _ 11 (docEntry 5 "doc5" ["A"] 11) _) _);
    [by vm_compute|].
  refine (rtc_l _ _ _ _
            (step_processEntry true _ 12 (docEntry 7 "doc7" ["B"] 12) _) _);
    [by vm_compute|].
  exact (rtc_refl _ _).
Defined.

(** ** Every sequence is accounted for *)

Section Accounting.

Import SkippedList.

Variable star : bool.

Lemma Contains_Push l x y :
  Contains l y = true → Contains (fst (Push l x)) y = true.
Proof.
  destruct (Push_cases l x) as [[-> _]|[-> _]]; simpl; [|done].
  unfold Contains. simpl. intros [e He]%bool_decide_eq_true.
  apply bool_decide_eq_true.
  destruct (decide (seq x = y)) as [<-|Hne].
  - rewrite lookup_insert_eq. eauto.
  - rewrite lookup_insert_ne by done. eauto.
Qed.

Lemma Push_above l x :
  (∀ e, e ∈ skippedList l → seq e < seq x) →
  skippedList (fst (Push l x)) = skippedList l ++ [x]
  ∧ Contains (fst (Push l x)) (seq x) = true.
Proof.
  intros Hb. rewrite Push_accepts.
  - simpl. split; [done|]. unfold Contains. simpl. rewrite lookup_insert_eq.
    by apply bool_decide_eq_true.
  - destruct (last (skippedList l)) eqn:El; [|done].
    apply Hb. by apply last_Some_elem_of.
Qed.

Lemma Contains_Remove_ne l x y :
  y ≠ x → Contains (fst (Remove l x)) y = Contains l y.
Proof.
  intros Hne. unfold Remove, Contains.
  destruct (skippedMap l !! x); simpl; [|done]. by rewrite lookup_delete_ne.
Qed.

(** One pass of the loop of [_addPendingLogs] that takes the head of
    the queue. *)
Lemma drain_pop c change rest :
  draining c → pendingLogs c = change :: rest →
  Sequence change = nextSequence c →
  let c1 := fst (_addToCache star (set_pendingLogs rest c) change) in
  draining c1
  ∧ nextSequence c1 = nextSequence c + 1
  ∧ pendingLogs c1 = rest
  ∧ receivedSeqs c1 = receivedSeqs c
  ∧ skippedSeqs c1 = skippedSeqs c
  ∧ options c1 = options c
  ∧ logsDisabled c1 = logsDisabled c
  ∧ initialSequence c1 = initialSequence c.
Proof.
  intros (Hnext & Hsort & Hbound & Hrec & Hpos) Ep Heq. cbv zeta.
  rewrite Ep in Hsort, Hbound, Hrec, Hpos.
  pose proof (Hbound change ltac:(set_solver)) as Hhead.
  apply StronglySorted_cons in Hsort as [Hall Hrest].
  rewrite Forall_forall in Hall. unfold by_Sequence in Hall.
  set (c0 := set_pendingLogs rest c).
  pose proof (addToCache_nextSequence star c0 change) as Hn1.
  pose proof (addToCache_fields star c0 change)
    as (Hl1 & Hi1 & Hr1 & Hp1 & _ & Hs1 & Ho1).
  destruct (_addToCache star c0 change) as [c1 changed].
  simpl in Hn1, Hl1, Hi1, Hr1, Hp1, Hs1, Ho1.
  rewrite (proj2 (Z.leb_le _ _)) in Hn1 by lia.
  rewrite wrap64_small in Hn1 by (unfold uint64, maxUint64 in *; lia).
  simpl. split_and!; try done; [|lia].
  unfold draining. rewrite Hn1, Hp1, Hr1.
  split_and!; [unfold uint64, maxUint64 in *; lia|done| |
    |intros _; unfold uint64 in *; lia].
  - intros e He. specialize (Hall e He).
    specialize (Hbound e ltac:(set_solver)). lia.
  - intros e He. apply Hrec. set_solver.
Qed.

(** One pass of the loop that gives up on the next sequence. *)
Lemma drain_skip c change rest now :
  draining c → pendingLogs c = change :: rest →
  Sequence change ≠ nextSequence c →
  let c2 := set_nextSequence (wrap64 (nextSequence c + 1))
              (PushSkipped c now (nextSequence c)) in
  draining c2
  ∧ nextSequence c2 = nextSequence c + 1
  ∧ nextSequence c + 1 < maxUint64.
Proof.
  intros (Hnext & Hsort & Hbound & Hrec & Hpos) Ep Hne. cbv zeta.
  rewrite Ep in Hsort, Hbound, Hrec, Hpos.
  pose proof (Hbound change ltac:(set_solver)) as Hhead.
  apply StronglySorted_cons in Hsort as Hsort'. destruct Hsort' as [Hall Hrest].
  rewrite Forall_forall in Hall. unfold by_Sequence in Hall.
  simpl. rewrite (wrap64_small (nextSequence c + 1))
    by (unfold uint64, maxUint64 in *; lia).
  split_and!; [|done|lia].
  unfold draining. simpl. rewrite Ep.
  split_and!; [unfold uint64, maxUint64 in *; lia|done| |done
    |intros _; unfold uint64 in *; lia].
  intros e [->|He]%elem_of_cons; [lia|].
  specialize (Hall e He). specialize (Hbound e ltac:(set_solver)). lia.
Qed.

(** The entry that is the next sequence, once [_addToCache] has taken
    it. *)
Lemma expected_taken c change :
  buffering c → 0 ≤ Sequence change < maxUint64 →
  Sequence change = nextSequence c ∨ nextSequence c = 0 →
  let c0 := set_receivedSeqs ({[Sequence change]} ∪ receivedSeqs c) c in
  let c1 := fst (_addToCache star c0 change) in
  draining c1
  ∧ nextSequence c1 = Sequence change + 1
  ∧ pendingLogs c1 = pendingLogs c
  ∧ receivedSeqs c1 = {[Sequence change]} ∪ receivedSeqs c
  ∧ skippedSeqs c1 = skippedSeqs c
  ∧ options c1 = options c
  ∧ logsDisabled c1 = logsDisabled c
  ∧ initialSequence c1 = initialSequence c.
Proof.
  intros [(Hnext & Hsort & Hbound & Hrec & Hpos) Hstrict] Hseq Enext. cbv zeta.
  set (c0 := set_receivedSeqs ({[Sequence change]} ∪ receivedSeqs c) c).
  pose proof (addToCache_nextSequence star c0 change) as Hn1.
  pose proof (addToCache_fields star c0 change)
    as (Hl1 & Hi1 & Hr1 & Hp1 & _ & Hs1 & Ho1).
  destruct (_addToCache star c0 change) as [c1 ch1].
  simpl in Hn1, Hl1, Hi1, Hr1, Hp1, Hs1, Ho1.
  assert (nextSequence c ≤ Sequence change) as Hle by lia.
  rewrite (proj2 (Z.leb_le _ _) Hle), wrap64_small in Hn1 by lia.
  simpl. split_and!; try done.
  unfold draining. rewrite Hn1, Hp1, Hr1.
  split_and!; [unfold uint64; lia|done| | |lia].
  - intros e He. specialize (Hstrict e He). specialize (Hbound e He).
    destruct Enext as [?|?]; [lia|].
    destruct (pendingLogs c); [by apply elem_of_nil in He|].
    specialize (Hpos ltac:(done)). lia.
  - intros e He. specialize (Hrec e He). set_solver.
Qed.

(** The entry beyond the next sequence, once it is on the queue. *)
Lemma deferred_draining c change :
  buffering c → 0 ≤ Sequence change < maxUint64 →
  Sequence change ∉ receivedSeqs c → nextSequence c < Sequence change →
  nextSequence c ≠ 0 →
  draining (set_pendingLogs (heap.Push (pendingLogs c) change)
              (set_receivedSeqs ({[Sequence change]} ∪ receivedSeqs c) c)).
Proof.
  intros [(Hnext & Hsort & Hbound & Hrec & Hpos) Hstrict] Hseq Hin Hlt Hnz.
  unfold draining; simpl.
  split_and!; [done| | | |unfold uint64 in Hnext; lia].
  - apply heap_Push_sorted; [done|].
    intros e He Heq. apply Hin. rewrite <- Heq. by apply Hrec.
  - intros e [->|He]%heap_Push_elem_of; [lia|].
    specialize (Hbound e He). lia.
  - intros e [->|He]%heap_Push_elem_of; [set_solver|].
    specialize (Hrec e He). set_solver.
Qed.

Variable lo : Z.

Lemma accounted_ext c c' :
  nextSequence c' = nextSequence c → skippedSeqs c' = skippedSeqs c →
  receivedSeqs c ⊆ receivedSeqs c' →
  accounted lo c → accounted lo c'.
Proof.
  intros Hn Hs Hr (H1 & H2 & H3 & H4). unfold accounted. rewrite Hn, Hs.
  split_and!; try done.
  intros s Hs'. destruct (H4 s Hs') as [?|?]; [left; by apply Hr|by right].
Qed.

Lemma accounted_next_received c c' :
  nextSequence c' = nextSequence c + 1 → skippedSeqs c' = skippedSeqs c →
  receivedSeqs c ⊆ receivedSeqs c' → nextSequence c ∈ receivedSeqs c' →
  accounted lo c → accounted lo c'.
Proof.
  intros Hn Hs Hr Hin (H1 & H2 & H3 & H4). unfold accounted. rewrite Hn, Hs.
  split_and!; [lia|done| |].
  - intros x Hx. specialize (H3 x Hx). lia.
  - intros s Hs'. destruct (decide (s = nextSequence c)) as [->|Hne]; [by left|].
    destruct (H4 s ltac:(lia)) as [?|?]; [left; by apply Hr|by right].
Qed.

Lemma accounted_next_skipped c now :
  accounted lo c → nextSequence c + 1 < maxUint64 →
  accounted lo (set_nextSequence (wrap64 (nextSequence c + 1))
                  (PushSkipped c now (nextSequence c))).
Proof.
  intros (H1 & H2 & H3 & H4) Hmax. unfold accounted. simpl.
  rewrite wrap64_small by lia.
  destruct (Push_above (skippedSeqs c)
              {| seq := nextSequence c; timeAdded := now |} H3) as [Hl Hc].
  split_and!; [lia|by apply Push_wellKept| |].
  - rewrite Hl. intros x [Hx| ->%list_elem_of_singleton]%elem_of_app.
    + specialize (H3 x Hx). lia.
    + simpl. lia.
  - intros s Hs'. destruct (decide (s = nextSequence c)) as [->|Hne]; [by right|].
    destruct (H4 s ltac:(lia)) as [?|?]; [by left|right].
    by apply Contains_Push.
Qed.

Lemma addPendingLogs_loop_accounted now fuel : ∀ c,
  draining c → accounted lo c →
  accounted lo (fst (addPendingLogs_loop star fuel c now)).
Proof.
  induction fuel as [|fuel IH]; intros c Hd Ha; simpl; [done|].
  destruct (pendingLogs c) as [|change rest] eqn:Ep; [done|].
  destruct (Z.eqb_spec (Sequence change) (nextSequence c)) as [Heq|Hne].
  - pose proof (drain_pop c change rest Hd Ep Heq) as H. cbv zeta in H.
    change (heap.Pop (change :: rest)) with rest.
    destruct (_addToCache star (set_pendingLogs rest c) change) as [c1 changed].
    simpl in H. destruct H as (Hd1 & Hn1 & Hp1 & Hr1 & Hs1 & _).
    specialize (IH c1 Hd1).
    destruct (addPendingLogs_loop star fuel c1 now) as [c2 more]. simpl in *.
    apply IH. apply (accounted_next_received c); try done; [by rewrite Hr1|].
    rewrite Hr1, <- Heq. destruct Hd as (_ & _ & _ & Hrec & _).
    apply Hrec. rewrite Ep. set_solver.
  - destruct (_ || _); [|done].
    destruct (drain_skip c change rest now Hd Ep Hne) as (Hd2 & Hn2 & Hlt).
    apply IH; [done|]. by apply accounted_next_skipped.
Qed.

Lemma processEntry_accounted c now change :
  buffering c → 0 ≤ Sequence change < maxUint64 →
  accounted lo c → accounted lo (fst (processEntry star c now change)).
Proof.
  intros Hb Hseq Ha. unfold processEntry.
  destruct (logsDisabled c); [done|].
  destruct (decide (Sequence change ∈ receivedSeqs c)) as [Hin|Hin]; [done|].
  set (c0 := set_receivedSeqs ({[Sequence change]} ∪ receivedSeqs c) c).
  assert (accounted lo c0) as Ha0.
  { apply (accounted_ext c); try done. simpl. set_solver. }
  pose proof Ha as (Hpos & Hw & Hbelow & Hcov).
  change (nextSequence c0) with (nextSequence c).
  change (initialSequence c0) with (initialSequence c).
  destruct ((Sequence change =? nextSequence c) || (nextSequence c =? 0)) eqn:Enext.
  - assert (Sequence change = nextSequence c) as Heq.
    { apply orb_prop in Enext as [?%Z.eqb_eq|?%Z.eqb_eq]; lia. }
    pose proof (expected_taken c change Hb Hseq (or_introl Heq)) as H.
    cbv zeta in H. fold c0 in H.
    destruct (_addToCache star c0 change) as [c1 ch1]. simpl in H.
    destruct H as (Hd1 & Hn1 & Hp1 & Hr1 & Hs1 & _).
    assert (accounted lo c1) as Ha1.
    { apply (accounted_next_received c0); simpl; try done; [lia|by rewrite Hr1|].
      rewrite Hr1, <- Heq. set_solver. }
    pose proof (addPendingLogs_loop_accounted now
                  (addPendingLogs_passes (nextSequence c1) (pendingLogs c1))
                  c1 Hd1 Ha1) as Ha2.
    unfold _addPendingLogs.
    destruct (addPendingLogs_loop star _ c1 now) as [c2 ch2]. done.
  - apply orb_false_elim in Enext as [Hne%Z.eqb_neq Hnz%Z.eqb_neq].
    destruct (Z.ltb_spec (nextSequence c) (Sequence change)) as [Hlt|Hge].
    + set (c1 := set_pendingLogs (heap.Push (pendingLogs c0) change) c0).
      assert (draining c1) as Hd1 by exact (deferred_draining c change Hb Hseq Hin Hlt Hnz).
      assert (accounted lo c1) as Ha1 by (by apply (accounted_ext c0)).
      destruct (CachePendingSeqMaxNum (options c1) <? Z.of_nat (length (pendingLogs c1)));
        [|done].
      by apply addPendingLogs_loop_accounted.
    + destruct (initialSequence c <? Sequence change); [|done].
      set (change' := if WasSkipped c0 (Sequence change)
                      then set_Skipped true change else change).
      assert (Sequence change' = Sequence change) as Hs'
        by (unfold change'; by destruct (WasSkipped c0 (Sequence change))).
      pose proof (addToCache_nextSequence star c0 change') as Hn1.
      pose proof (addToCache_fields star c0 change')
        as (_ & _ & Hr1 & _ & _ & Hs1 & _).
      destruct (_addToCache star c0 change') as [c1 ch1]. simpl in Hn1, Hr1, Hs1.
      rewrite Hs', (proj2 (Z.leb_gt _ _)) in Hn1 by lia.
      unfold accounted, RemoveSkipped. simpl. rewrite Hn1, Hr1, Hs1.
      split_and!; [done|by apply Remove_wellKept| |].
      * intros x Hx%Remove_elem_of. by apply Hbelow.
      * intros s Hs. destruct (decide (s = Sequence change)) as [->|Hns].
        -- left. set_solver.
        -- destruct (Hcov s Hs) as [?|?]; [left; set_solver|right].
           by rewrite Contains_Remove_ne.
Qed.

Lemma step_accounted c c' :
  buffering c → accounted lo c → step star c c' → accounted lo c'.
Proof.
  intros Hb Ha Hstep. destruct Hstep as [c now change Hs|c now|c lastSequence].
  - by apply processEntry_accounted.
  - unfold CleanUp.
    pose proof (addPendingLogs_loop_accounted now
                  (addPendingLogs_passes (nextSequence c) (pendingLogs c))
                  c (buffering_draining c Hb) Ha) as Ha1.
    unfold _addPendingLogs.
    destruct (addPendingLogs_loop star _ c now) as [c1 ch]. simpl in *.
    by apply (accounted_ext c1).
  - unfold Clear. destruct (snd lastSequence); simpl; by apply (accounted_ext c).
Qed.

(** No sequence goes missing without a trace.  From a state of the
    buffering in which every sequence from [lo] up to [nextSequence] has
    been received or is on the skipped list, this stays so whatever
    entries [processEntry] is given and whenever [CleanUp] and [Clear]
    run; the skipped list stays in increasing order with an index that
    agrees with it, and holds sequences below [nextSequence] only. *)
Theorem every_sequence_accounted c c' :
  buffering c → accounted lo c → rtc (step star) c c' → accounted lo c'.
Proof.
  intros Hb Ha Hsteps.
  induction Hsteps as [c|c c1 c2 Hstep Hsteps IH]; [done|].
  destruct (step_buffering star c c1 Hb Hstep) as [_ Hb1].
  apply IH; [done|]. by apply (step_accounted c).
Qed.

End Accounting.

Lemma every_sequence_accounted_witness :
  let c := fst (Start (Init (Some {| CachePendingSeqMaxWait := 0;
                                     CachePendingSeqMaxNum := 2;
                                     CacheSkippedSeqMaxWait := 0 |}))
                  (0, None)) in
  let c' := fst (processEntry true
              (fst (processEntry true
                 (fst (processEntry true c 10 (docEntry 3 "doc3" ["A"] 10)))
                 11 (docEntry 5 "doc5" ["A"] 11)))
              12 (docEntry 7 "doc7" ["B"] 12)) in
  buffering c ∧ accounted 1 c
  ∧ nextSequence c' = 4
  ∧ (seq <$> skippedList (skippedSeqs c')) = [1; 2]
  ∧ accounted 1 c'.
Proof.
  intros c c'.
  assert (buffering c) as Hb by (apply Start_buffering; by vm_compute).
  assert (accounted 1 c) as Ha.
  { unfold accounted. change (nextSequence c) with 1.
    split_and!; [done|apply New_wellKept|by intros x ?%elem_of_nil|lia]. }
  split_and!; [done|done|by vm_compute|by vm_compute|].
  refine (every_sequence_accounted true 1 c c' Hb Ha _).
  refine (rtc_l _ _ _ _
            (step_processEntry true c 10 (docEntry 3 "doc3" ["A"] 10) _) _);
    [by vm_compute|].
  refine (rtc_l _ _ _ _
            (step_processEntry true _ 11 (docEntry 5 "doc5" ["A"] 11) _) _);
    [by vm_compute|].
  refine (rtc_l _ _ _ _
            (step_processEntry true _ 12 (docEntry 7 "doc7" ["B"] 12) _) _);
    [by vm_compute|].
  exact (rtc_refl _ _).
Defined.

(** ** Entries that arrive out of order *)

Section Reassembly.

Variable star : bool.

Lemma addPendingLogs_passes_length next pending :
  (length pending ≤ addPendingLogs_passes next pending)%nat.
Proof.
  revert next. induction pending as [|e r IH]; intros next; simpl; [lia|].
  specialize (IH (wrap64 (Sequence e + 1))). lia.
Qed.

(** With no more than the allowed number of entries on the queue, none
    of them waiting for too long, the loop of [_addPendingLogs] takes
    the entries that follow on from [nextSequence] and stops at the first
    gap. *)
Lemma addPendingLogs_loop_contiguous now fuel : ∀ c,
  draining c → (length (pendingLogs c) ≤ fuel)%nat →
  Z.of_nat (length (pendingLogs c)) ≤ CachePendingSeqMaxNum (options c) →
  (∀ e, e ∈ pendingLogs c →
     now - TimeReceived e < CachePendingSeqMaxWait (options c)) →
  let c' := fst (addPendingLogs_loop star fuel c now) in
  (∀ s, nextSequence c ≤ s < nextSequence c' →
     ∃ e, e ∈ pendingLogs c ∧ Sequence e = s)
  ∧ (∀ e, e ∈ pendingLogs c' ↔ e ∈ pendingLogs c ∧ nextSequence c' < Sequence e)
  ∧ (∀ e, e ∈ pendingLogs c → Sequence e ≠ nextSequence c')
  ∧ (length (pendingLogs c') ≤ length (pendingLogs c))%nat.
Proof.
  induction fuel as [|fuel IH]; intros c Hd Hfuel Hlen Hwait; cbv zeta.
  - destruct (pendingLogs c) eqn:Ep; [|simpl in Hfuel; lia]. simpl. rewrite Ep.
    split_and!; [lia| |by intros e ?%elem_of_nil|done].
    intros e. split; [by intros ?%elem_of_nil|by intros [?%elem_of_nil _]].
  - pose proof Hd as (Hnext & Hsort & Hbound & Hrec & Hpos).
    simpl. destruct (pendingLogs c) as [|change rest] eqn:Ep.
    { simpl. rewrite Ep. split_and!; [lia| |by intros e ?%elem_of_nil|done].
      intros e. split; [by intros ?%elem_of_nil|by intros [?%elem_of_nil _]]. }
    apply StronglySorted_cons in Hsort as [Hall Hrest].
    rewrite Forall_forall in Hall. unfold by_Sequence in Hall.
    pose proof (Hbound change ltac:(set_solver)) as Hhead.
    destruct (Z.eqb_spec (Sequence change) (nextSequence c)) as [Heq|Hne].
    + pose proof (drain_pop star c change rest Hd Ep Heq) as H. cbv zeta in H.
      change (heap.Pop (change :: rest)) with rest.
      destruct (_addToCache star (set_pendingLogs rest c) change) as [c1 changed].
      simpl in H. destruct H as (Hd1 & Hn1 & Hp1 & Hr1 & Hs1 & Ho1 & _).
      pose proof (addPendingLogs_loop_draining star now fuel c1 Hd1) as [Hle _].
      specialize (IH c1 Hd1). rewrite Hp1, Ho1, Hn1 in IH. rewrite Hn1 in Hle.
      destruct IH as (I1 & I2 & I3 & I4).
      { simpl in Hfuel. lia. }
      { simpl in Hlen. lia. }
      { intros e He. apply Hwait. set_solver. }
      destruct (addPendingLogs_loop star fuel c1 now) as [c2 more]. simpl in *.
      split_and!.
      * intros s Hs. destruct (decide (s = nextSequence c)) as [->|Hns].
        -- exists change. split; [set_solver|done].
        -- destruct (I1 s ltac:(lia)) as (e & He & Hes).
           exists e. split; [set_solver|done].
      * intros e. rewrite I2. split.
        -- intros [He Hlt]. split; [set_solver|done].
        -- intros [[->|He]%elem_of_cons Hlt]; [lia|done].
      * intros e [->|He]%elem_of_cons; [lia|by apply I3].
      * lia.
    + assert ((CachePendingSeqMaxNum (options c)
               <? Z.of_nat (length (change :: rest))) = false) as ->
        by (by apply Z.ltb_ge).
      assert ((CachePendingSeqMaxWait (options c) <=? now - TimeReceived change)
              = false) as ->
        by (apply Z.leb_gt, Hwait; set_solver).
      simpl. rewrite Ep.
      assert (∀ e, e ∈ change :: rest → nextSequence c < Sequence e) as Hgt.
      { intros e [->|He]%elem_of_cons; [lia|]. specialize (Hall e He). lia. }
      split_and!; [lia| | |done].
      * intros e. split; [intros He; split; [done|by apply Hgt]|by intros [? _]].
      * intros e He. specialize (Hgt e He). lia.
Qed.

(** One entry of a run that is still to come, none of it forced. *)
Lemma processEntry_contiguous c now change :
  logsDisabled c = false → buffering c → 0 < nextSequence c →
  Sequence change ∉ receivedSeqs c →
  nextSequence c ≤ Sequence change < maxUint64 →
  Z.of_nat (length (pendingLogs c)) + 1 ≤ CachePendingSeqMaxNum (options c) →
  (∀ e, e ∈ pendingLogs c ∨ e = change →
     now - TimeReceived e < CachePendingSeqMaxWait (options c)) →
  let c' := fst (processEntry star c now change) in
  skippedSeqs c' = skippedSeqs c
  ∧ nextSequence c ≤ nextSequence c'
  ∧ (∀ s, nextSequence c ≤ s < nextSequence c' →
       ∃ e, (e ∈ pendingLogs c ∨ e = change) ∧ Sequence e = s)
  ∧ (∀ e, e ∈ pendingLogs c'
          ↔ (e ∈ pendingLogs c ∨ e = change) ∧ nextSequence c' < Sequence e)
  ∧ (∀ e, e ∈ pendingLogs c ∨ e = change → Sequence e ≠ nextSequence c')
  ∧ (length (pendingLogs c') ≤ length (pendingLogs c) + 1)%nat.
Proof.
  intros Hdis Hb Hpos Hin Hseq Hlen Hwait. cbv zeta. unfold processEntry.
  rewrite Hdis. destruct (decide (Sequence change ∈ receivedSeqs c)) as [?|_]; [done|].
  set (c0 := set_receivedSeqs ({[Sequence change]} ∪ receivedSeqs c) c).
  change (nextSequence c0) with (nextSequence c).
  pose proof Hb as [(Hnext & Hsort & Hbound & Hrec & _) Hstrict].
  destruct (Z.eqb_spec (Sequence change) (nextSequence c)) as [Heq|Hne]; cbn [orb].
  - pose proof (expected_taken star c change Hb ltac:(lia) (or_introl Heq)) as H.
    cbv zeta in H. fold c0 in H.
    destruct (_addToCache star c0 change) as [c1 ch1]. simpl in H.
    destruct H as (Hd1 & Hn1 & Hp1 & Hr1 & Hs1 & Ho1 & _).
    unfold _addPendingLogs.
    set (fuel := addPendingLogs_passes (nextSequence c1) (pendingLogs c1)).
    pose proof (addPendingLogs_loop_contiguous now fuel c1 Hd1) as H.
    pose proof (addPendingLogs_loop_unforced star now fuel c1) as Hsk.
    pose proof (addPendingLogs_loop_draining star now fuel c1 Hd1) as [Hle _].
    rewrite Hp1, Ho1, Hn1 in H. rewrite Hp1, Ho1, Hs1 in Hsk. rewrite Hn1 in Hle.
    destruct H as (I1 & I2 & I3 & I4).
    { unfold fuel. rewrite Hp1. apply addPendingLogs_passes_length. }
    { lia. }
    { intros e He. apply Hwait. by left. }
    specialize (Hsk ltac:(lia) ltac:(intros e He; apply Hwait; by left)).
    destruct (addPendingLogs_loop star fuel c1 now) as [c2 more]. simpl in *.
    split_and!.
    + done.
    + lia.
    + intros s Hs. destruct (decide (s = Sequence change)) as [->|Hns];
        [exists change; auto|].
      destruct (I1 s ltac:(lia)) as (e & He & Hes). exists e. auto.
    + intros e. rewrite I2. split; [intros [He Hlt]; auto|].
      intros [[He| ->] Hlt]; [done|lia].
    + intros e [He| ->]; [by apply I3|lia].
    + lia.
  - rewrite (proj2 (Z.eqb_neq _ _)) by lia.
    rewrite (proj2 (Z.ltb_lt (nextSequence c) (Sequence change))) by lia.
    rewrite (proj2 (Z.ltb_ge _ _)); [|simpl; rewrite heap_Push_length; lia].
    simpl. split_and!; [done|lia|intros s Hs; lia| | |rewrite heap_Push_length; lia].
    + intros e. rewrite heap_Push_elem_of. split.
      * intros [->|He]; [split; [by right|lia]|].
        split; [by left|by apply Hstrict].
      * intros [[He| ->] _]; auto.
    + intros e [He| ->]; [specialize (Hstrict e He); lia|lia].
Qed.

Lemma submit_contiguous jobs : ∀ c,
  logsDisabled c = false → buffering c → 0 < nextSequence c →
  Z.of_nat (length (pendingLogs c) + length jobs)
    ≤ CachePendingSeqMaxNum (options c) →
  NoDup (Sequence <$> (snd <$> jobs)) →
  (∀ e, e ∈ snd <$> jobs →
     nextSequence c ≤ Sequence e < maxUint64 ∧ Sequence e ∉ receivedSeqs c) →
  (∀ now e, now ∈ fst <$> jobs → e ∈ pendingLogs c ∨ e ∈ snd <$> jobs →
     now - TimeReceived e < CachePendingSeqMaxWait (options c)) →
  let c' := submit star c jobs in
  skippedSeqs c' = skippedSeqs c
  ∧ receivedSeqs c' = list_to_set (Sequence <$> (snd <$> jobs)) ∪ receivedSeqs c
  ∧ nextSequence c ≤ nextSequence c'
  ∧ (∀ s, nextSequence c ≤ s < nextSequence c' →
       ∃ e, (e ∈ pendingLogs c ∨ e ∈ snd <$> jobs) ∧ Sequence e = s)
  ∧ (∀ e, e ∈ pendingLogs c'
          ↔ (e ∈ pendingLogs c ∨ e ∈ snd <$> jobs) ∧ nextSequence c' < Sequence e)
  ∧ (∀ e, e ∈ pendingLogs c ∨ e ∈ snd <$> jobs → Sequence e ≠ nextSequence c').
Proof.
  induction jobs as [|[t e] jobs IH]; intros c Hdis Hb Hpos Hlen Hnd Hall Hwait;
    cbv zeta.
  - simpl. destruct Hb as [_ Hstrict].
    split_and!; [done|set_solver|lia|intros; lia| |].
    + intros e. split; [intros He; split; [by left|by apply Hstrict]|].
      by intros [[?|?%elem_of_nil] _].
    + intros e [He|?%elem_of_nil]; [|done]. specialize (Hstrict e He). lia.
  - change (submit star c ((t, e) :: jobs))
      with (submit star (fst (processEntry star c t e)) jobs).
    change (snd <$> (t, e) :: jobs) with (e :: (snd <$> jobs)) in *.
    change (fst <$> (t, e) :: jobs) with (t :: (fst <$> jobs)) in *.
    change (Sequence <$> e :: (snd <$> jobs))
      with (Sequence e :: (Sequence <$> (snd <$> jobs))) in *.
    apply NoDup_cons in Hnd as [Hfresh Hnd].
    assert (∀ now0 e0, now0 = t ∨ now0 ∈ fst <$> jobs →
              e0 ∈ pendingLogs c ∨ e0 = e ∨ e0 ∈ snd <$> jobs →
              now0 - TimeReceived e0 < CachePendingSeqMaxWait (options c))
      as Hwait'.
    { intros now0 e0 Hnow He0. apply Hwait; rewrite elem_of_cons; tauto. }
    assert (∀ e0, e0 = e ∨ e0 ∈ snd <$> jobs →
              nextSequence c ≤ Sequence e0 < maxUint64
              ∧ Sequence e0 ∉ receivedSeqs c) as Hall'.
    { intros e0 He0. apply Hall. rewrite elem_of_cons. tauto. }
    clear Hwait Hall.
    destruct (Hall' e (or_introl eq_refl)) as [Hrange Hnew].
    destruct (processEntry_contiguous c t e Hdis Hb Hpos Hnew Hrange)
      as (S1 & S2 & S3 & S4 & S5 & S6).
    { simpl in Hlen. lia. }
    { intros e0 He0. apply (Hwait' t); tauto. }
    destruct (processEntry_fields star c t e) as (F1 & _ & _ & F4 & F5).
    rewrite Hdis in F5.
    destruct (processEntry_buffering star c t e Hb ltac:(lia)) as [_ Hb1].
    set (c1 := fst (processEntry star c t e)) in *.
    destruct (IH c1) as (J1 & J2 & J3 & J4 & J5 & J6).
    + congruence.
    + done.
    + lia.
    + rewrite F4. simpl in Hlen. lia.
    + done.
    + intros e' He'. destruct (Hall' e' (or_intror He')) as [Hr' Hn'].
      assert (Sequence e' ≠ Sequence e) as Hdiff.
      { intros Heq. apply Hfresh. rewrite <- Heq. by apply list_elem_of_fmap_2. }
      split; [split; [|lia]|].
      * destruct (decide (nextSequence c1 ≤ Sequence e')); [done|exfalso].
        destruct (S3 (Sequence e') ltac:(lia)) as (e0 & [He0| ->] & Hs0); [|done].
        apply Hn'. rewrite <- Hs0. by apply Hb.
      * rewrite F5, not_elem_of_union, not_elem_of_singleton. done.
    + rewrite F4. intros now0 e0 Hnow [He0|He0].
      * apply S4 in He0 as [He0 _]. apply Hwait'; tauto.
      * apply Hwait'; tauto.
    + split_and!.
      * congruence.
      * rewrite J2, F5. simpl. rewrite (assoc_L (∪)). f_equal. apply (comm_L (∪)).
      * lia.
      * intros s Hs. destruct (decide (s < nextSequence c1)).
        -- destruct (S3 s ltac:(lia)) as (e0 & He0 & ?).
           exists e0. rewrite elem_of_cons. tauto.
        -- destruct (J4 s ltac:(lia)) as (e0 & [He0|He0] & ?).
           ++ apply S4 in He0 as [He0 _]. exists e0. rewrite elem_of_cons. tauto.
           ++ exists e0. rewrite elem_of_cons. tauto.
      * intros e0. rewrite J5, S4, elem_of_cons. split; [tauto|].
        intros [He0 Hlt]. split; [|done].
        destruct He0 as [He0|[->|He0]]; [left|left|by right];
          (split; [tauto|lia]).
      * intros e0. rewrite elem_of_cons. intros He0.
        assert ((e0 ∈ pendingLogs c ∨ e0 = e) ∨ e0 ∈ snd <$> jobs)
          as [He0'|Hj] by tauto; [|apply J6; by right].
        destruct (decide (nextSequence c1 < Sequence e0)).
        -- apply J6. left. apply S4. auto.
        -- pose proof (S5 e0 He0'). lia.
Qed.

(** Reassembly.  When the entries of the [k] sequences from
    [nextSequence] on arrive in any order, none of them received
    before, not more of them than [CachePendingSeqMaxNum], and none
    waits for [CachePendingSeqMaxWait], then they have all left the
    pending queue when the last one has been processed: [nextSequence]
    has advanced by [k], nothing is pending, and no sequence has been
    put on the skipped list. *)
Theorem contiguous_run_reassembled c jobs k :
  logsDisabled c = false → pendingLogs c = [] → 0 < nextSequence c →
  nextSequence c + Z.of_nat k ≤ maxUint64 →
  Sequence <$> (snd <$> jobs) ≡ₚ seqZ (nextSequence c) (Z.of_nat k) →
  (∀ s, nextSequence c ≤ s < nextSequence c + Z.of_nat k → s ∉ receivedSeqs c) →
  Z.of_nat k ≤ CachePendingSeqMaxNum (options c) →
  (∀ now e, now ∈ fst <$> jobs → e ∈ snd <$> jobs →
     now - TimeReceived e < CachePendingSeqMaxWait (options c)) →
  let c' := submit star c jobs in
  nextSequence c' = nextSequence c + Z.of_nat k
  ∧ pendingLogs c' = []
  ∧ skippedSeqs c' = skippedSeqs c
  ∧ receivedSeqs c'
    = list_to_set (seqZ (nextSequence c) (Z.of_nat k)) ∪ receivedSeqs c.
Proof.
  intros Hdis Hp Hpos Hmax Hperm Hnew Hk Hwait. cbv zeta.
  assert (∀ s, s ∈ Sequence <$> (snd <$> jobs)
               ↔ nextSequence c ≤ s < nextSequence c + Z.of_nat k) as Hmem.
  { intros s. rewrite Hperm. apply elem_of_seqZ. }
  assert (length jobs = k) as Hlenj.
  { apply Permutation_length in Hperm.
    rewrite !length_fmap, length_seqZ in Hperm. lia. }
  destruct (submit_contiguous jobs c) as (J1 & J2 & J3 & J4 & J5 & J6).
  - done.
  - split; [unfold draining|]; rewrite Hp.
    + split_and!; [unfold uint64; lia|constructor|by intros e ?%elem_of_nil..|done].
    + by intros e ?%elem_of_nil.
  - done.
  - rewrite Hp. simpl. lia.
  - rewrite Hperm. apply NoDup_seqZ.
  - intros e He. apply (list_elem_of_fmap_2 Sequence) in He as Hs.
    apply Hmem in Hs. split; [lia|by apply Hnew].
  - rewrite Hp. intros now e Hnow [?%elem_of_nil|He]; [done|by apply Hwait].
  - rewrite Hp in J4, J5, J6.
    assert (nextSequence (submit star c jobs) = nextSequence c + Z.of_nat k) as Hn.
    { destruct (Z.lt_trichotomy (nextSequence (submit star c jobs))
                  (nextSequence c + Z.of_nat k)) as [Hlt|[?|Hgt]]; [exfalso|done|exfalso].
      - assert (nextSequence (submit star c jobs) ∈ Sequence <$> (snd <$> jobs))
          as Hin by (apply Hmem; lia).
        apply list_elem_of_fmap in Hin as (e & Heq & He).
        by apply (J6 e (or_intror He)).
      - destruct (J4 (nextSequence c + Z.of_nat k) ltac:(lia))
          as (e & [?%elem_of_nil|He] & Hs); [done|].
        apply (list_elem_of_fmap_2 Sequence) in He. apply Hmem in He. lia. }
    split_and!; [done| |done|].
    + destruct (pendingLogs (submit star c jobs)) as [|e r] eqn:Ep'; [done|exfalso].
      destruct (proj1 (J5 e) ltac:(set_solver)) as [[?%elem_of_nil|He] Hlt]; [done|].
      apply (list_elem_of_fmap_2 Sequence) in He. apply Hmem in He. lia.
    + rewrite J2. f_equal. by apply list_to_set_perm_L.
Qed.

End Reassembly.

Lemma contiguous_run_reassembled_witness :
  let c := fst (Start (Init None) (0, None)) in
  let jobs := [(10, docEntry 3 "doc3" ["A"] 10);
               (11, docEntry 1 "doc1" ["A"] 11);
               (12, docEntry 2 "doc2" ["B"] 12)] in
  Sequence <$> (snd <$> jobs) ≡ₚ seqZ (nextSequence c) 3
  ∧ nextSequence (submit true c jobs) = 4
  ∧ pendingLogs (submit true c jobs) = []
  ∧ skippedList (skippedSeqs (submit true c jobs)) = [].
Proof.
  intros c jobs.
  assert (Sequence <$> (snd <$> jobs) ≡ₚ seqZ (nextSequence c) (Z.of_nat 3))
    as Hperm by apply (Permutation_cons_app [1; 2] [] 3), reflexivity.
  destruct (contiguous_run_reassembled true c jobs 3) as (H1 & H2 & H3 & _).
  - reflexivity.
  - reflexivity.
  - reflexivity.
  - by vm_compute.
  - exact Hperm.
  - intros s _. apply not_elem_of_empty.
  - by vm_compute.
  - intros now e Hnow He.
    repeat (apply elem_of_cons in Hnow as [->|Hnow]);
      [..|by apply elem_of_nil in Hnow];
      repeat (apply elem_of_cons in He as [->|He]);
      try (by apply elem_of_nil in He); by vm_compute.
  - split_and!; [exact Hperm|rewrite H1; reflexivity|exact H2|by rewrite H3].
Defined.

(** ** Keys of unused sequences *)

Section UnusedKeys.

Import strconv.

Variable star : bool.

Lemma trimmed_append prefix s : trimmed (prefix +:+ s) prefix = Some s.
Proof.
  induction prefix as [|p prefix IH]; [by destruct s|].
  rewrite append_cons. simpl. by rewrite decide_True.
Qed.

Lemma TrimPrefix_append prefix s : TrimPrefix (prefix +:+ s) prefix = s.
Proof. unfold TrimPrefix. by rewrite trimmed_append. Qed.

(** [processUnusedSequence] releases the sequence that is written in
    decimal after the prefix of the key, and does nothing when what is
    left of the key is not the numeral of a [uint64]; a key that does
    not start with the prefix is read as a whole. *)
Theorem processUnusedSequence_key prefix c now :
  (∀ n, uint64 n →
     processUnusedSequence star prefix c now (prefix +:+ FormatUint n)
     = releaseUnusedSequence star c now n)
  ∧ (∀ docID, numeral (TrimPrefix docID prefix) →
       processUnusedSequence star prefix c now docID
       = releaseUnusedSequence star c now
           (decimal_value (TrimPrefix docID prefix) 0))
  ∧ (∀ docID, ¬ numeral (TrimPrefix docID prefix) →
       processUnusedSequence star prefix c now docID = (c, []))
  ∧ (∀ docID, trimmed docID prefix = None →
       TrimPrefix docID prefix = docID).
Proof.
  split_and!.
  - intros n Hn. unfold processUnusedSequence.
    by rewrite TrimPrefix_append, ParseUint_FormatUint.
  - intros docID Hnum. unfold processUnusedSequence.
    by rewrite (proj2 (ParseUint_ok _ _) (conj Hnum eq_refl)).
  - intros docID Hnum. unfold processUnusedSequence.
    destruct (ParseUint (TrimPrefix docID prefix)) as [v [e|]] eqn:Ep; [done|].
    apply ParseUint_ok in Ep as [? _]. done.
  - intros docID Ht. unfold TrimPrefix. by rewrite Ht.
Qed.

End UnusedKeys.

(** ** Starting and stopping *)

Section StartStop.

Variable star : bool.

(** A cache that was started on the last sequence [n] of the database
    reports [n] as its last sequence and as its stable sequence, expects
    [n + 1] next, and holds nothing; when the last sequence of the
    database cannot be read [Start] returns the error and leaves the
    cache as it was. *)
Theorem Start_LastSequence opts n :
  uint64 n →
  let c := fst (Start (Init opts) (n, None)) in
  snd (Start (Init opts) (n, None)) = None
  ∧ LastSequence c = n
  ∧ (∀ docID, GetStableSequence c docID = intSeq 0 0 n)
  ∧ initialSequence c = n
  ∧ nextSequence c = wrap64 (n + 1)
  ∧ pendingLogs c = [] ∧ receivedSeqs c = ∅ ∧ channelCaches c = ∅
  ∧ skippedList (skippedSeqs c) = []
  ∧ (∀ c0 v err, Start c0 (v, Some err) = (c0, Some err)).
Proof.
  intros Hn. cbv zeta.
  assert (LastSequence (fst (Start (Init opts) (n, None))) = n) as Hl.
  { unfold LastSequence, Start, _setInitialSequence. simpl.
    unfold uint64, maxUint64, wrap64 in *. lia. }
  split_and!; try done. intros docID. unfold GetStableSequence. by rewrite Hl.
Qed.

Lemma submit_disabled jobs : ∀ c,
  logsDisabled c = true → submit star c jobs = c.
Proof.
  induction jobs as [|[t e] jobs IH]; intros c Hdis; [done|].
  change (submit star c ((t, e) :: jobs))
    with (submit star (fst (processEntry star c t e)) jobs).
  unfold processEntry. rewrite Hdis. by apply IH.
Qed.

Lemma releaseRange_disabled now l : ∀ c notified,
  logsDisabled c = true →
  foldl (λ '(c, notified) sequence,
           let '(c, more) := releaseUnusedSequence star c now sequence in
           (c, notified ++ more))
        (c, notified) l
  = (c, notified).
Proof.
  induction l as [|x l IH]; intros c notified Hdis; [done|].
  cbn [foldl]. unfold releaseUnusedSequence at 2, processEntry. rewrite Hdis.
  unfold notify. rewrite decide_True by done. rewrite app_nil_r. by apply IH.
Qed.

(** A stopped cache takes no more entries.  After [Stop], and as long
    as the logs are disabled ([EnableChannelIndexing(false)] does the
    same), [processEntry] and the notifications of unused sequences
    change nothing and tell the listener nothing. *)
Theorem Stop_ignores_entries c :
  let c' := Stop c in
  stopped c' = true
  ∧ EnableChannelIndexing c' false = c'
  ∧ (∀ jobs, submit star c' jobs = c')
  ∧ (∀ now change, processEntry star c' now change = (c', ∅))
  ∧ (∀ now sequence, releaseUnusedSequence star c' now sequence = (c', []))
  ∧ (∀ prefix now docID, processUnusedSequence star prefix c' now docID = (c', []))
  ∧ (∀ now docID r, processUnusedSequenceRange star c' now docID = Some r →
       r = (c', [])).
Proof.
  cbv zeta. assert (logsDisabled (Stop c) = true) as Hdis by done.
  assert (∀ now sequence,
            releaseUnusedSequence star (Stop c) now sequence = (Stop c, [])) as Hrel.
  { intros now sequence. unfold releaseUnusedSequence, processEntry.
    by rewrite Hdis. }
  split_and!; try done.
  - intros jobs. by apply submit_disabled.
  - intros prefix now docID. unfold processUnusedSequence.
    by destruct (strconv.ParseUint _) as [v [e|]].
  - intros now docID r. unfold processUnusedSequenceRange, releaseRange.
    repeat case_match; intros [= <-]; try done.
    by apply releaseRange_disabled.
Qed.

End StartStop.

Lemma Start_LastSequence_witness :
  uint64 41
  ∧ LastSequence (fst (Start (Init None) (41, None))) = 41
  ∧ nextSequence (fst (Start (Init None) (41, None))) = 42.
Proof.
  assert (uint64 41) as Hn by (unfold uint64, maxUint64; lia).
  destruct (Start_LastSequence None 41 Hn) as (_ & Hl & _ & _ & Hnext & _).
  split_and!; [exact Hn|exact Hl|exact Hnext].
Defined.

(** ** What the channel caches are told *)

Section ChannelCalls.

Variable star : bool.

Lemma getChannelCache_snd c n :
  snd (_getChannelCache c n)
  = default {| channelName := n; validFrom := wrap64 (initialSequence c + 1);
               calls := [] |}
      (channelCaches c !! n).
Proof. unfold _getChannelCache. by destruct (channelCaches c !! n). Qed.

Lemma getChannelCache_ext c c' n :
  initialSequence c' = initialSequence c →
  channelCaches c' !! n = channelCaches c !! n →
  snd (_getChannelCache c' n) = snd (_getChannelCache c n).
Proof. intros Hi Hl. by rewrite !getChannelCache_snd, Hi, Hl. Qed.

Lemma onChannelCache_lookup c name call n :
  channelCaches (onChannelCache c name call) !! n
  = if decide (n = name)
    then Some (called call (snd (_getChannelCache c name)))
    else channelCaches c !! n.
Proof.
  unfold onChannelCache, _getChannelCache.
  destruct (channelCaches c !! name) eqn:E; simpl;
    destruct (decide (n = name)) as [->|Hne];
    by rewrite ?lookup_insert_eq, ?lookup_insert_ne by done.
Qed.

Lemma addToChannel_lookup entry isRemoval c added name n :
  let r := addToChannel entry isRemoval (c, added) name in
  initialSequence (fst r) = initialSequence c
  ∧ channelCaches (fst r) !! n
    = (if decide (n = name)
       then Some (foldl (λ cache call, called call cache)
                    (snd (_getChannelCache c name)) (callsFor entry isRemoval))
       else channelCaches c !! n)
  ∧ snd r = {[name]} ∪ added.
Proof.
  cbv zeta. split.
  { by destruct (addToChannel_same entry isRemoval (c, added) name)
      as (_ & _ & -> & _). }
  split; [|unfold addToChannel; by destruct (Skipped entry)].
  unfold addToChannel, callsFor. destruct (Skipped entry); simpl.
  - rewrite !onChannelCache_lookup. destruct (decide (n = name)) as [->|Hne]; [|done].
    f_equal. f_equal. rewrite getChannelCache_snd, onChannelCache_lookup.
    by rewrite decide_True.
  - rewrite onChannelCache_lookup. by destruct (decide (n = name)).
Qed.

Lemma callsFor_not_nil entry isRemoval : callsFor entry isRemoval ≠ [].
Proof. done. Qed.

Lemma addToChannels_lookup entry (l : list (string * option ChannelRemoval)) :
  ∀ c added, NoDup (l.*1) →
  let r := foldl (λ acc '(name, removal),
                    match removal with
                    | None => addToChannel entry false acc name
                    | Some r =>
                        if Removal_Seq r =? Sequence entry
                        then addToChannel entry true acc name else acc
                    end) (c, added) l in
  initialSequence (fst r) = initialSequence c
  ∧ (∀ n, channelCaches (fst r) !! n
          = if decide (docCalls entry ((list_to_map l : gmap string (option ChannelRemoval)) !! n) = [])
            then channelCaches c !! n
            else Some (foldl (λ cache call, called call cache)
                         (snd (_getChannelCache c n))
                         (docCalls entry ((list_to_map l : gmap string (option ChannelRemoval)) !! n))))
  ∧ (∀ n, n ∈ snd r ↔ n ∈ added ∨ docCalls entry ((list_to_map l : gmap string (option ChannelRemoval)) !! n) ≠ []).
Proof.
  induction l as [|[name removal] l IH]; intros c added Hnd; cbv zeta.
  - simpl. split_and!; [done|intros n; by rewrite lookup_empty|].
    intros n. rewrite lookup_empty. simpl. tauto.
  - rewrite fmap_cons in Hnd. apply NoDup_cons in Hnd as [Hfresh Hnd].
    cbn [foldl].
    set (acc1 := match removal with
                 | None => addToChannel entry false (c, added) name
                 | Some r =>
                     if Removal_Seq r =? Sequence entry
                     then addToChannel entry true (c, added) name else (c, added)
                 end).
    assert (initialSequence (fst acc1) = initialSequence c
            ∧ (∀ n, channelCaches (fst acc1) !! n
                    = if decide (n = name ∧ docCalls entry (Some removal) ≠ [])
                      then Some (foldl (λ cache call, called call cache)
                                   (snd (_getChannelCache c name))
                                   (docCalls entry (Some removal)))
                      else channelCaches c !! n)
            ∧ (∀ n, n ∈ snd acc1
                    ↔ n ∈ added ∨ (n = name ∧ docCalls entry (Some removal) ≠ [])))
      as (Hi1 & Hl1 & Ha1).
    { unfold acc1, docCalls. destruct removal as [r|].
      - destruct (Removal_Seq r =? Sequence entry).
        + destruct (addToChannel_lookup entry true c added name name)
            as (Hi & _ & Hs).
          split_and!; [done| |].
          * intros n.
            destruct (addToChannel_lookup entry true c added name n) as (_ & -> & _).
            destruct (decide (n = name)) as [->|Hne].
            -- by rewrite decide_True.
            -- rewrite decide_False; [done|]. by intros [? _].
          * intros n. rewrite Hs, elem_of_union, elem_of_singleton.
            pose proof (callsFor_not_nil entry true). tauto.
        + simpl. split_and!; [done| |].
          * intros n. rewrite decide_False; [done|]. by intros [_ ?].
          * intros n. tauto.
      - destruct (addToChannel_lookup entry false c added name name)
          as (Hi & _ & Hs).
        split_and!; [done| |].
        + intros n.
          destruct (addToChannel_lookup entry false c added name n) as (_ & -> & _).
          destruct (decide (n = name)) as [->|Hne].
          * by rewrite decide_True.
          * rewrite decide_False; [done|]. by intros [? _].
        + intros n. rewrite Hs, elem_of_union, elem_of_singleton.
          pose proof (callsFor_not_nil entry false). tauto. }
    destruct acc1 as [c1 added1]. simpl in Hi1, Hl1, Ha1.
    destruct (IH c1 added1 Hnd) as (Hi & Hl & Ha).
    split_and!; [congruence| |].
    + intros n. rewrite Hl, Hl1. simpl list_to_map.
      destruct (decide (n = name)) as [->|Hne].
      * rewrite lookup_insert_eq.
        rewrite (not_elem_of_list_to_map_1 _ _ Hfresh). simpl docCalls at 1.
        rewrite decide_True by done.
        destruct (decide (docCalls entry (Some removal) = [])) as [He|He].
        -- rewrite decide_False; [done|]. by intros [_ ?].
        -- by rewrite decide_True.
      * rewrite lookup_insert_ne by done.
        rewrite (decide_False (P := n = name ∧ _)) by (by intros [? _]).
        destruct (decide (docCalls entry (list_to_map l !! n) = [])); [done|].
        f_equal. f_equal. apply getChannelCache_ext; [done|].
        rewrite Hl1. rewrite decide_False; [done|]. by intros [? _].
    + intros n. rewrite Ha, Ha1. simpl list_to_map.
      destruct (decide (n = name)) as [->|Hne].
      * rewrite lookup_insert_eq.
        rewrite (not_elem_of_list_to_map_1 _ _ Hfresh). simpl docCalls at 2.
        tauto.
      * rewrite lookup_insert_ne by done. tauto.
Qed.

Lemma addToCache_tells c change :
  let c' := fst (_addToCache star c change) in
  (DocID change = "" →
     channelCaches c' = channelCaches c ∧ snd (_addToCache star c change) = ∅)
  ∧ (DocID change ≠ "" →
     ∀ name,
       channelCaches c' !! name
       = (if decide (callsOn star change name = [])
          then channelCaches c !! name
          else Some (foldl (λ cache call, called call cache)
                       (snd (_getChannelCache c name))
                       (callsOn star change name)))
       ∧ (name ∈ snd (_addToCache star c change)
          ↔ callsOn star change name ≠ [])).
Proof.
  cbv zeta. split.
  { intros Hd. rewrite addToCache_placeholder by done. simpl.
    split; [|done]. by destruct (nextSequence c <=? Sequence change). }
  intros Hd name. unfold _addToCache. rewrite decide_False by done.
  set (c1 := if nextSequence c <=? Sequence change
             then set_nextSequence (wrap64 (Sequence change + 1)) c else c).
  assert (initialSequence c1 = initialSequence c
          ∧ channelCaches c1 = channelCaches c) as [Hi1 Hc1]
    by (unfold c1; by destruct (nextSequence c <=? Sequence change)).
  set (entry := set_Channels ∅ change).
  pose proof (addToChannels_lookup entry (map_to_list (Channels change)) c1 ∅
                (NoDup_fst_map_to_list _)) as H.
  cbv zeta in H. rewrite list_to_map_to_list in H.
  change (Sequence change) with (Sequence entry).
  destruct (foldl _ (c1, ∅) (map_to_list (Channels change))) as [c2 added2].
  simpl in H. destruct H as (Hi2 & Hl2 & Ha2).
  assert (snd (_getChannelCache c1 name) = snd (_getChannelCache c name)) as Hg1
    by (apply getChannelCache_ext; [done|by rewrite Hc1]).
  unfold callsOn. fold entry. cbv zeta.
  set (doc := docCalls entry (Channels change !! name)) in *.
  destruct star; simpl andb.
  - destruct (addToChannel_lookup entry false c2 added2 UserStarChannel name)
      as (_ & -> & ->).
    rewrite elem_of_union, elem_of_singleton, Ha2.
    destruct (decide (name = UserStarChannel)) as [->|Hne].
    + rewrite bool_decide_eq_true_2 by done.
      rewrite decide_False by (intros [_ ?]%app_eq_nil; done).
      split; [|split; [intros _ [_ ?]%app_eq_nil; done|tauto]].
      rewrite foldl_app. f_equal. f_equal.
      rewrite getChannelCache_snd, Hl2, Hi2, Hi1.
      fold doc. destruct (decide (doc = [])) as [->|Hdoc]; simpl.
      * by rewrite Hc1, <- getChannelCache_snd.
      * by rewrite Hg1.
    + rewrite bool_decide_eq_false_2 by done. rewrite app_nil_r.
      rewrite Hl2. fold doc. rewrite Hc1, Hg1.
      split; [done|]. set_solver.
  - rewrite app_nil_r, Hl2, Ha2. fold doc. rewrite Hc1, Hg1.
    split; [done|]. set_solver.
Qed.

(** [_addToCache] tells every channel cache what the entry owes it, no
    more and no less.  For an entry of a document, the cache of a
    channel is told the calls of [callsOn], in that order, and is made
    first (valid from the sequence after [initialSequence]) when there
    is none; the cache of a channel that is owed no call is left as it
    is, or absent; and the channels returned as changed are those that
    were told something.  A placeholder for an unused sequence reaches
    no channel cache. *)
Theorem addToCache_calls c change :
  let c' := fst (_addToCache star c change) in
  (DocID change = "" →
     channelCaches c' = channelCaches c ∧ snd (_addToCache star c change) = ∅)
  ∧ (DocID change ≠ "" →
     ∀ name,
       channelCaches c' !! name
       = (if decide (callsOn star change name = [])
          then channelCaches c !! name
          else Some (foldl (λ cache call, called call cache)
                       (snd (_getChannelCache c name))
                       (callsOn star change name)))
       ∧ (name ∈ snd (_addToCache star c change)
          ↔ callsOn star change name ≠ [])).
Proof. apply addToCache_tells. Qed.

(** An entry that arrives late.  An entry whose sequence is below
    [nextSequence] and above [initialSequence], and was not received
    before, leaves [nextSequence] and the pending queue alone; its
    sequence is taken off the skipped list, which stays well kept; and
    when it is the entry of a document the channel caches are told what
    it owes them, with [AddLateSequence] after [addToCache] exactly when
    the sequence was on the skipped list. *)
Theorem processEntry_late_arrival c now change :
  logsDisabled c = false → Sequence change ∉ receivedSeqs c →
  0 ≤ initialSequence c →
  initialSequence c < Sequence change < nextSequence c →
  SkippedList.wellKept (skippedSeqs c) →
  let entry := if WasSkipped c (Sequence change)
               then set_Skipped true change else change in
  let c' := fst (processEntry star c now change) in
  nextSequence c' = nextSequence c
  ∧ pendingLogs c' = pendingLogs c
  ∧ receivedSeqs c' = {[Sequence change]} ∪ receivedSeqs c
  ∧ SkippedList.wellKept (skippedSeqs c')
  ∧ skippedList (skippedSeqs c')
    = filter (λ e, seq e ≠ Sequence change) (skippedList (skippedSeqs c))
  ∧ WasSkipped c' (Sequence change) = false
  ∧ (DocID change ≠ "" →
     ∀ name,
       channelCaches c' !! name
       = (if decide (callsOn star entry name = [])
          then channelCaches c !! name
          else Some (foldl (λ cache call, called call cache)
                       (snd (_getChannelCache c name))
                       (callsOn star entry name)))
       ∧ (name ∈ snd (processEntry star c now change)
          ↔ callsOn star entry name ≠ [])).
Proof.
  intros Hdis Hin Hinit Hseq Hw. cbv zeta. unfold processEntry.
  rewrite Hdis, decide_False by done.
  set (c0 := set_receivedSeqs ({[Sequence change]} ∪ receivedSeqs c) c).
  change (nextSequence c0) with (nextSequence c).
  change (initialSequence c0) with (initialSequence c).
  change (WasSkipped c0 (Sequence change)) with (WasSkipped c (Sequence change)).
  rewrite (proj2 (Z.eqb_neq (Sequence change) (nextSequence c))) by lia.
  rewrite (proj2 (Z.eqb_neq (nextSequence c) 0)) by lia. cbn [orb].
  rewrite (proj2 (Z.ltb_ge (nextSequence c) (Sequence change))) by lia.
  rewrite (proj2 (Z.ltb_lt (initialSequence c) (Sequence change))) by lia.
  set (entry := if WasSkipped c (Sequence change)
                then set_Skipped true change else change).
  assert (Sequence entry = Sequence change ∧ DocID entry = DocID change)
    as [Hs' Hd'] by (unfold entry; by destruct (WasSkipped c (Sequence change))).
  pose proof (addToCache_nextSequence star c0 entry) as Hn1.
  pose proof (addToCache_fields star c0 entry)
    as (_ & _ & Hr1 & Hp1 & _ & Hs1 & _).
  pose proof (addToCache_tells c0 entry) as [_ Ht]. cbv zeta in Ht.
  destruct (_addToCache star c0 entry) as [c1 ch1].
  simpl in Hn1, Hr1, Hp1, Hs1, Ht.
  rewrite Hs', (proj2 (Z.leb_gt _ _)) in Hn1 by lia.
  unfold RemoveSkipped, WasSkipped. simpl. rewrite Hs1.
  split_and!; [done|done|done|by apply Remove_wellKept| | |].
  - destruct (SkippedList.Contains (skippedSeqs c) (Sequence change)) eqn:Hc.
    + destruct (Remove_present _ _ Hw Hc) as (l' & Hr & Hl & _).
      by rewrite Hr.
    + rewrite Remove_absent by done. simpl. symmetry. apply filter_all.
      intros e He Heq. apply not_true_iff_false in Hc. apply Hc.
      apply (Contains_iff _ _ (proj2 Hw)). rewrite <- Heq.
      by apply list_elem_of_fmap_2.
  - destruct (SkippedList.Contains (skippedSeqs c) (Sequence change)) eqn:Hc.
    + destruct (Remove_present _ _ Hw Hc) as (l' & Hr & _ & Hn & _).
      by rewrite Hr.
    + by rewrite Remove_absent.
  - intros Hd name. rewrite Hd' in Ht. destruct (Ht Hd name) as [-> Hch].
    split; [|done].
    destruct (decide (callsOn star entry name = [])); [done|].
    f_equal. f_equal. by apply getChannelCache_ext.
Qed.

End ChannelCalls.
